(** * Polygon merge engine: a shallow embedding of [geometry/PolygonMerge.hpp]

    The development follows the C++ sources of the repository:
    - [math/MathUtility.hpp]     : tolerance-aware comparisons ([Module math]);
    - [geometry/PolygonMerge.hpp]: [PolygonWithProp], [PolygonMerger],
      [PolygonMergeUtils] and [PolygonMergeRunner].

    Conventions of the embedding.
    - A template parameter [num_type] is a type [num] with a [NumType]
      instance.  Integral coordinates are mathematical integers [Z] (signed
      overflow is undefined behaviour in C++ and lies outside the model);
      floating values are exact rationals [Q] compared with the machine
      epsilon of the type, a parameter of the instance (rounding, NaN and
      infinities lie outside the model).
    - [std::vector], [std::list] are [list]; [std::set<property_type>] is
      the [list] of its members in iteration order; [std::map] keyed by
      such sets is the association [list] of its entries in iteration
      order; [std::unordered_map<property_type, property_type>] is a [gmap].
    - [PolygonData *] is the record it points to: every record is owned by
      exactly one container at a time, so no aliasing has to be tracked.
    - Undefined behaviour (front of an empty vector, index out of range)
      and loops that run out of fuel are [None] in the [option] monad. *)

From Stdlib Require Import ZArith QArith Qabs Qround Lia Lqa Bool List.
From stdpp Require Import base option list gmap.
Import ListNotations.

(** ** Numeric element types ([common/Traits.hpp]) *)

(** What the code uses of a numeric template parameter.  [is_integral] is
    [std::is_integral<num_type>::value], [epsilon] is
    [std::numeric_limits<num_type>::epsilon()], and [float_epsilon] is the
    epsilon of [common::float_type<num_type>], whose values are in [Q]. *)
Class NumType (num : Type) := {
  is_integral : bool;
  num_zero : num;
  num_one : num;
  num_add : num -> num -> num;
  num_sub : num -> num -> num;
  num_mul : num -> num -> num;
  num_abs : num -> num;
  num_eqb : num -> num -> bool;
  num_ltb : num -> num -> bool;
  epsilon : num;
  to_float : num -> Q;
  float_epsilon : Q
}.

Definition Qlt_bool (x y : Q) : bool := negb (Qle_bool y x).

(** An integral [num_type] (for instance [int64_t]); [feps] is the epsilon of
    its [float_type]. *)
Definition integral (feps : Q) : NumType Z := {|
  is_integral := true;
  num_zero := 0%Z;
  num_one := 1%Z;
  num_add := Z.add;
  num_sub := Z.sub;
  num_mul := Z.mul;
  num_abs := Z.abs;
  num_eqb := Z.eqb;
  num_ltb := Z.ltb;
  epsilon := 0%Z;
  to_float := inject_Z;
  float_epsilon := feps
|}.

(** A floating [num_type] with machine epsilon [eps]; it is its own
    [float_type]. *)
Definition floating (eps : Q) : NumType Q := {|
  is_integral := false;
  num_zero := 0%Q;
  num_one := 1%Q;
  num_add := Qplus;
  num_sub := Qminus;
  num_mul := Qmult;
  num_abs := Qabs;
  num_eqb := Qeq_bool;
  num_ltb := Qlt_bool;
  epsilon := eps;
  to_float := fun x => x;
  float_epsilon := eps
|}.

(** [common::float_type<num_type>] as a numeric type of its own. *)
Definition float_t {num : Type} {NT : NumType num} : NumType Q :=
  floating float_epsilon.

(** The epsilon of [double], [2^-52]. *)
Definition double_epsilon : Q := 1 # 4503599627370496.

(** ** Numeric predicates ([math/MathUtility.hpp]) *)

Module math.
Section Predicates.
Context {num : Type} {NT : NumType num}.

Definition num_leb (a b : num) : bool := negb (num_ltb b a).

Definition isPositive (x : num) : bool := num_ltb num_zero x.

Definition EQ (num1 num2 : num) : bool :=
  if is_integral then num_eqb num1 num2
  else num_leb (num_abs (num_sub num1 num2)) epsilon.

Definition NE (num1 num2 : num) : bool := negb (EQ num1 num2).

Definition GE (num1 num2 : num) : bool :=
  if is_integral then num_leb num2 num1
  else num_ltb num2 num1 || EQ num1 num2.

Definition LE (num1 num2 : num) : bool :=
  if is_integral then num_leb num1 num2
  else num_ltb num1 num2 || EQ num1 num2.

Definition GT (num1 num2 : num) : bool :=
  if is_integral then num_ltb num2 num1
  else num_ltb epsilon (num_sub num1 num2).

Definition LT (num1 num2 : num) : bool :=
  if is_integral then num_ltb num1 num2
  else num_ltb epsilon (num_sub num2 num1).
End Predicates.
End math.

(** ** Points, polygons and boxes *)

Definition Point2D (num : Type) : Type := (num * num)%type.
Abbreviation Polygon2D num := (list (Point2D num)).
Abbreviation Polyline2D num := (list (Point2D num)).

(** Modelled from the spec: [Box2D] and [Extent] live in headers of the
    repository that are not among the sources verified here ([Box.hpp],
    [Utility.hpp]).  A box is its lower-left and upper-right corner; [None]
    is the invalid box of the default constructor, the unit of [operator|=].
    The bounding box of a polygon is the union of its points; [Length] is the
    extent in [x], [Width] the extent in [y] and [Area] their product. *)
Definition Box2D (num : Type) : Type := option (Point2D num * Point2D num).

Section Geometry.
Context {num : Type} {NT : NumType num}.

(** Modelled from the spec: [Point2D::operator==], from [Point.hpp], which is
    not among the sources verified here; two points are equal when their
    coordinates are. *)
Definition Point_eqb (p q : Point2D num) : bool :=
  num_eqb p.1 q.1 && num_eqb p.2 q.2.

Definition num_min (a b : num) : num := if num_ltb b a then b else a.
Definition num_max (a b : num) : num := if num_ltb a b then b else a.

(** Modelled from the spec: [Box2D::operator|=]. *)
Definition box_union (a b : Box2D num) : Box2D num :=
  match a, b with
  | None, _ => b
  | _, None => a
  | Some (l1, u1), Some (l2, u2) =>
      Some ((num_min l1.1 l2.1, num_min l1.2 l2.2),
            (num_max u1.1 u2.1, num_max u1.2 u2.2))
  end.

(** Modelled from the spec: [Extent] of a point sequence. *)
Definition Extent (pts : list (Point2D num)) : Box2D num :=
  fold_left (fun b p => box_union b (Some (p, p))) pts None.

(** Modelled from the spec: [Box2D::Length], [Box2D::Width], [Box2D::Area]. *)
Definition Length (b : Box2D num) : num :=
  match b with Some (l, u) => num_sub u.1 l.1 | None => num_zero end.
Definition Width (b : Box2D num) : num :=
  match b with Some (l, u) => num_sub u.2 l.2 | None => num_zero end.
Definition Area (b : Box2D num) : num := num_mul (Length b) (Width b).

(** Modelled from the spec: [DistanceSq], the squared distance of two points,
    from a header that is not among the sources verified here. *)
Definition DistanceSq (p q : Point2D num) : num :=
  num_add (num_mul (num_sub p.1 q.1) (num_sub p.1 q.1))
          (num_mul (num_sub p.2 q.2) (num_sub p.2 q.2)).
End Geometry.

(** ** The tagged polygon record ([PolygonWithProp]) *)

Record PolygonWithProp (property_type num : Type) := mkPolygonWithProp {
  property : property_type;
  solid : Polygon2D num;
  holes : list (Polygon2D num)
}.
Arguments mkPolygonWithProp {property_type num} _ _ _.
Arguments property {property_type num} _.
Arguments solid {property_type num} _.
Arguments holes {property_type num} _.

Section PolygonWithPropOps.
Context {property_type num : Type} {NT : NumType num}.
Abbreviation PolygonData := (PolygonWithProp property_type num).

(** [boost::polygon::area], the absolute area of a ring computed in
    [float_t]; an external primitive. *)
Variable area : Polygon2D num -> Q.

(** [Polygon2D::isCCW], the orientation test of a header that is not among
    the sources verified here. *)
Variable isCCW : Polygon2D num -> bool.

Definition hasHole (pd : PolygonData) : bool :=
  match holes pd with [] => false | _ => true end.

Definition BBox (pd : PolygonData) : Box2D num :=
  fold_left (fun b h => box_union b (Extent h)) (holes pd)
    (box_union None (Extent (solid pd))).

(** Modelled from the spec: [Polygon2D::Reverse] reverses the point order. *)
Definition Reverse (p : Polygon2D num) : Polygon2D num := rev p.

Definition Normalize (pd : PolygonData) : PolygonData :=
  {| property := property pd;
     solid := if isCCW (solid pd) then solid pd else Reverse (solid pd);
     holes := map (fun h => if isCCW h then Reverse h else h) (holes pd) |}.

Definition CoveredArea (pd : PolygonData) : Q := area (solid pd).

(** The erase loop of [RemoveTinyHoles] over the hole list. *)
Fixpoint eraseTinyHoles (a : Q) (hs : list (Polygon2D num)) : list (Polygon2D num) :=
  match hs with
  | [] => []
  | h :: rest =>
      if math.LT (NT := float_t) (area h) a then eraseTinyHoles a rest
      else h :: eraseTinyHoles a rest
  end.

Definition RemoveTinyHoles (a : Q) (pd : PolygonData) : PolygonData :=
  {| property := property pd;
     solid := solid pd;
     holes := eraseTinyHoles a (holes pd) |}.
End PolygonWithPropOps.

(** ** The point-index map ([detail::Point2DIndexMap]) *)

(** The operations shared by the two specialisations.  [pm_At] is [None]
    where the C++ throws ([unordered_map::at] on a missing key) or fails its
    assertion. *)
Class Point2DIndexMap (num : Type) := {
  ptmap : Type;
  pm_Clear : ptmap;
  pm_Count : Point2D num -> ptmap -> bool;
  pm_Insert : Point2D num -> nat -> ptmap -> ptmap;
  pm_At : Point2D num -> ptmap -> option nat
}.

(** [std::unordered_map::insert] and [std::unordered_map::emplace] keep an
    existing entry: the pair is added only when the key is absent. *)
Definition umap_insert {K V : Type} `{Countable K} (k : K) (v : V)
    (m : gmap K V) : gmap K V :=
  match m !! k with
  | Some _ => m
  | None => <[k := v]> m
  end.

(** The integral specialisation: a hash map keyed by the exact point. *)
Definition IntegralPointIndexMap : Point2DIndexMap Z := {|
  ptmap := gmap (Z * Z) nat;
  pm_Clear := ∅;
  pm_Count := fun p m => bool_decide (is_Some (m !! p));
  pm_Insert := fun p index m => umap_insert p index m;
  pm_At := fun p m => m !! p
|}.

(** The floating specialisation keeps its entries in a
    [boost::geometry::index::rtree] and compares points with the [operator==]
    of [Point.hpp]; neither is among the sources verified here, and the
    properties below hold of every map with the laws that follow. *)

(** What the reconstructor relies on from a point-index map: a point that
    counts has an index; an index that is looked up is one that was inserted;
    a point counts once it or an equal point was inserted; and the index of
    a point that did not count before its insertion is the inserted one. *)
Class Point2DIndexMapLaws (num : Type) {NT : NumType num}
    {PM : Point2DIndexMap num} : Prop := {
  pm_Count_At : forall p m, pm_Count p m = true -> is_Some (pm_At p m);
  pm_At_Clear : forall p, pm_At p pm_Clear = None;
  pm_At_Insert : forall p i m q j,
    pm_At q (pm_Insert p i m) = Some j -> j = i \/ pm_At q m = Some j;
  pm_Count_Clear : forall p, pm_Count p pm_Clear = false;
  pm_Count_Insert : forall p i m q,
    pm_Count q (pm_Insert p i m) = Point_eqb p q || pm_Count q m;
  pm_At_Insert_fresh : forall p i m q,
    pm_Count q m = false -> Point_eqb p q = true ->
    pm_At q (pm_Insert p i m) = Some i
}.

(** ** The hole reconstructor ([PolygonMerger::makePolygonData]) *)

Record PtNode := mkPtNode { prev : nat; next : nat }.

Definition set_prev (i v : nat) (nodeList : list PtNode) : option (list PtNode) :=
  nd ← nodeList !! i;
  Some (<[i := mkPtNode v (next nd)]> nodeList).

Definition set_next (i v : nat) (nodeList : list PtNode) : option (list PtNode) :=
  nd ← nodeList !! i;
  Some (<[i := mkPtNode (prev nd) v]> nodeList).

(** A [for] loop over the indices [idxs] in the [option] monad. *)
Fixpoint forLoop {S I : Type} (body : S -> I -> option S) (idxs : list I)
    (st : S) : option S :=
  match idxs with
  | [] => Some st
  | i :: rest => st' ← body st i; forLoop body rest st'
  end.

Section MakePolygonData.
Context {property_type num : Type} {NT : NumType num} {PM : Point2DIndexMap num}.
Abbreviation PolygonData := (PolygonWithProp property_type num).

(** [while(start != nodeList[index].next) { polygon << in[index]; index =
    nodeList[index].next; }] returns the collected points and the final
    [index].  The loop of the source has no bound; [fuel] bounds the number
    of its iterations, and [makePolygonData_total] shows that the number of
    points is bound enough. *)
Fixpoint walkRing (fuel : nat) (inp : Polyline2D num) (nodeList : list PtNode)
    (start index : nat) (polygon : Polygon2D num)
    : option (Polygon2D num * nat) :=
  nd ← nodeList !! index;
  if decide (start = next nd) then Some (polygon, index)
  else match fuel with
       | O => None
       | S fuel' =>
           p ← inp !! index;
           walkRing fuel' inp nodeList start (next nd) (polygon ++ [p])
       end.

(** The degeneracy test on the bounding box of a candidate hole: the
    [if constexpr (std::is_integral<num_type>::value)] of the source. *)
Definition keepHole (bbox : Box2D num) : bool :=
  if is_integral then num_ltb num_one (Length bbox) && num_ltb num_one (Width bbox)
  else math.GT (Area bbox) num_zero.

Record ReconState := mkReconState {
  rs_nodeList : list PtNode;
  rs_holes : list (Polygon2D num);
  rs_ptMap : ptmap
}.

(** The state of the reconstructor before iteration [i] over a polyline of
    [n] points: the links stay in range; a [prev] link points to a smaller
    index or to the last node; the [next] link of a node that has had its
    turn points to a larger index that has had its turn or is on now; the
    [next] link of a node still to come is the one it started with; the last
    node links to a smaller index; and the map holds indices that have had
    their turn. *)
Definition ReconInv (n i : nat) (st : ReconState) : Prop :=
  length (rs_nodeList st) = n
  /\ (forall k nd, rs_nodeList st !! k = Some nd -> prev nd < n /\ next nd < n)
  /\ (forall k nd, rs_nodeList st !! k = Some nd -> prev nd < k \/ prev nd = n - 1)
  /\ (forall k nd, rs_nodeList st !! k = Some nd ->
        k < i -> k < n - 1 -> k < next nd <= i)
  /\ (forall k nd, rs_nodeList st !! k = Some nd ->
        i <= k -> k < n - 1 -> next nd = S k)
  /\ (2 <= n -> forall nd, rs_nodeList st !! (n - 1) = Some nd -> next nd < n - 1)
  /\ (forall q j, pm_At q (rs_ptMap st) = Some j -> j < i).

(** The ring spliced out at a self-touch: with [nodeList[curr].next] set to
    [prev], the points from [prev] up to the node before [curr]. *)
Definition candidateRing (inp : Polyline2D num) (nodeList : list PtNode)
    (prev0 curr : nat) : option (Polygon2D num) :=
  nodeList1 ← set_next curr prev0 nodeList;
  r ← walkRing (length inp) inp nodeList1 prev0 prev0 [];
  Some r.1.

(** The body of [if(ptMap.Count(in[i])) { ... }]. *)
Definition spliceAt (inp : Polyline2D num) (i : nat) (st : ReconState)
    : option ReconState :=
  p ← inp !! i;
  prev0 ← pm_At p (rs_ptMap st);
  let curr := i in
  ndc ← rs_nodeList st !! curr;
  let next0 := next ndc in
  nodeList1 ← set_next curr prev0 (rs_nodeList st);
  polygon ← candidateRing inp (rs_nodeList st) prev0 curr;
  let bbox := Extent polygon in
  let holes' := if keepHole bbox then rs_holes st ++ [polygon] else rs_holes st in
  ndp ← nodeList1 !! prev0;
  let prev1 := prev ndp in
  nodeList2 ← set_next prev1 curr nodeList1;
  nodeList3 ← set_prev curr prev1 nodeList2;
  nodeList4 ← set_next curr next0 nodeList3;
  Some (mkReconState nodeList4 holes' (rs_ptMap st)).

(** One iteration of [for(size_t i = 0; i < in.size(); ++i)]. *)
Definition reconStep (inp : Polyline2D num) (st : ReconState) (i : nat)
    : option ReconState :=
  p ← inp !! i;
  st' ← (if pm_Count p (rs_ptMap st) then spliceAt inp i st else Some st);
  Some (mkReconState (rs_nodeList st') (rs_holes st')
          (pm_Insert p i (rs_ptMap st'))).

Definition initNodeList (size : nat) : list PtNode :=
  map (fun i => mkPtNode ((i + size - 1) mod size) ((i + 1) mod size)) (seq 0 size).

(** [if(in.front() == in.back()) in.pop_back();] *)
Definition dropClosingPoint (inp : Polyline2D num) : option (Polyline2D num) :=
  front ← head inp;
  back ← last inp;
  Some (if Point_eqb front back then removelast inp else inp).

(** The state of the loop before iteration [k]. *)
Definition reconState (inp : Polyline2D num) (k : nat) : option ReconState :=
  forLoop (reconStep inp) (seq 0 k)
    (mkReconState (initNodeList (length inp)) [] pm_Clear).

Definition makePolygonData (inp0 : Polyline2D num) (prop : property_type)
    : option PolygonData :=
  inp ← dropClosingPoint inp0;
  let size := length inp in
  st ← reconState inp size;
  (* [size - 1] wraps around for an empty polyline and [nodeList[index]] is
     then out of range *)
  if decide (size = 0) then None
  else
    let start := size - 1 in
    r ← walkRing size inp (rs_nodeList st) start start [];
    p ← inp !! r.2;
    Some (mkPolygonWithProp prop (r.1 ++ [p]) (rs_holes st)).
End MakePolygonData.

(** ** The spatial task tree *)

(** Modelled from the spec: [tree::RectNode] is declared in
    [generic/tree/RectTree.hpp], a header of the repository that is not among the sources verified here.
    A node holds its bounding box, the objects that live at its level and
    its child nodes. *)
Inductive RectNode (num A : Type) : Type :=
  mkRectNode : Box2D num -> list A -> list (RectNode num A) -> RectNode num A.
Arguments mkRectNode {num A} _ _ _.

Section RectNodeOps.
Context {num A : Type}.

(** Modelled from the spec: the accessors of [tree::RectNode]. *)
Definition GetBBox (n : RectNode num A) : Box2D num :=
  match n with mkRectNode b _ _ => b end.
Definition GetObjs (n : RectNode num A) : list A :=
  match n with mkRectNode _ objs _ => objs end.
Definition GetChildren (n : RectNode num A) : list (RectNode num A) :=
  match n with mkRectNode _ _ cs => cs end.
Definition hasChild (n : RectNode num A) : bool :=
  match GetChildren n with [] => false | _ => true end.
Definition SetBBox (b : Box2D num) (n : RectNode num A) : RectNode num A :=
  mkRectNode b (GetObjs n) (GetChildren n).
Definition SetChildren (cs : list (RectNode num A)) (n : RectNode num A)
    : RectNode num A :=
  mkRectNode (GetBBox n) (GetObjs n) cs.

(** Modelled from the spec: [getAllObjects], the items at this node and at
    all its descendants. *)
Fixpoint GetAllObjects (n : RectNode num A) : list A :=
  match n with
  | mkRectNode _ objs cs => objs ++ flat_map GetAllObjects cs
  end.

(** An update, through the pointers [GetAllObjects] hands out, of every
    object of the tree. *)
Fixpoint updateObjects (f : A -> option A) (n : RectNode num A)
    : option (RectNode num A) :=
  match n with
  | mkRectNode b objs cs =>
      objs' ← mapM f objs;
      cs' ← mapM (updateObjects f) cs;
      Some (mkRectNode b objs' cs')
  end.

(** The node reached from [n] by the child indices [path]. *)
Fixpoint nodeAt (n : RectNode num A) (path : list nat) : option (RectNode num A) :=
  match path with
  | [] => Some n
  | i :: rest => c ← GetChildren n !! i; nodeAt c rest
  end.
End RectNodeOps.

(** ** The merger ([PolygonMerger]) *)

Record MergeSettings := mkMergeSettings {
  cleanPolyonPoints : bool;
  checkPropertyDiff : bool;
  ignoreTinySolid : bool;
  ignoreTinyHoles : bool;
  tinySolidArea : Q;
  tinyHolesArea : Q;
  cleanPointDist : Q;
  mergeThreashold : nat
}.

Definition defaultMergeSettings : MergeSettings :=
  mkMergeSettings false false false false 0 0 0 1024.

Section PolygonMerger.
Context {property_type num : Type} `{Countable property_type}
        {NT : NumType num} {PM : Point2DIndexMap num}.
Abbreviation PolygonData := (PolygonWithProp property_type num).
Abbreviation MergeTaskNode := (RectNode num PolygonData).
Abbreviation PropertyMap := (gmap property_type property_type).

(** [PropDiffPolygon]: a property set with the polylines of its region. *)
Definition PropDiffPolygon : Type :=
  (list property_type * list (Polyline2D num))%type.

Record PolygonMerger := mkPolygonMerger {
  m_bbox : Box2D num;
  m_datas : list PolygonData;
  m_propertyMap : PropertyMap;
  m_mergeTaskTree : MergeTaskNode;
  m_mergeSettings : MergeSettings;
  m_propDiffAreas : list PropDiffPolygon
}.

Definition with_bbox (b : Box2D num) (st : PolygonMerger) : PolygonMerger :=
  mkPolygonMerger b (m_datas st) (m_propertyMap st) (m_mergeTaskTree st)
    (m_mergeSettings st) (m_propDiffAreas st).
Definition with_datas (ds : list PolygonData) (st : PolygonMerger) : PolygonMerger :=
  mkPolygonMerger (m_bbox st) ds (m_propertyMap st) (m_mergeTaskTree st)
    (m_mergeSettings st) (m_propDiffAreas st).
Definition with_propertyMap (m : PropertyMap) (st : PolygonMerger) : PolygonMerger :=
  mkPolygonMerger (m_bbox st) (m_datas st) m (m_mergeTaskTree st)
    (m_mergeSettings st) (m_propDiffAreas st).
Definition with_mergeTaskTree (t : MergeTaskNode) (st : PolygonMerger) : PolygonMerger :=
  mkPolygonMerger (m_bbox st) (m_datas st) (m_propertyMap st) t
    (m_mergeSettings st) (m_propDiffAreas st).
Definition with_propDiffAreas (ds : list PropDiffPolygon) (st : PolygonMerger)
    : PolygonMerger :=
  mkPolygonMerger (m_bbox st) (m_datas st) (m_propertyMap st) (m_mergeTaskTree st)
    (m_mergeSettings st) ds.

Definition SetMergeSettings (settings : MergeSettings) (st : PolygonMerger)
    : PolygonMerger :=
  mkPolygonMerger (m_bbox st) (m_datas st) (m_propertyMap st) (m_mergeTaskTree st)
    settings (m_propDiffAreas st).

(** *** External primitives and missing headers *)

(** [boost::polygon::area]. *)
Variable area : Polygon2D num -> Q.
(** [Polygon2D::isCCW]. *)
Variable isCCW : Polygon2D num -> bool.
(** [toPolygon] of a box. *)
Variable toPolygon : Box2D num -> Polygon2D num.
(** [boost::geometry::simplify(in, out, dist)]: Douglas-Peucker with
    tolerance [dist]. *)
Variable simplify : Q -> Polygon2D num -> Polygon2D num.
(** [boost::polygon::property_merge]: the [insert] calls, as the list of
    [(points, property, is_hole)] in call order, followed by [merge] and by
    [get] on every polygon set.  The result lists, in the iteration order of
    the [std::map], each property set (in the iteration order of the
    [std::set]) with the closed polylines of its region. *)
Variable property_merge :
  list (list (Point2D num) * property_type * bool) ->
  list (list property_type * list (Polyline2D num)).
(** [RectNode::Build(objs, threshold)] and its one-argument form, and
    [RectNode::Clear]. *)
Variable Build : MergeTaskNode -> list PolygonData -> nat -> MergeTaskNode.
Variable BuildNode : MergeTaskNode -> list PolygonData -> MergeTaskNode.
Variable ClearNode : MergeTaskNode -> MergeTaskNode.
(** [ConnectivityExtraction] over the boxes of the children followed by
    [makeSparseIndexGraph], and [boost::connected_components]: the component
    label of every vertex and the number of components. *)
Variable ConnectivityExtraction : list (Box2D num) -> list (list nat).
Variable connected_components : list (list nat) -> list nat * nat.

(** *** Ingestion *)

Definition AddPolygonData (pd : PolygonData) (st : PolygonMerger)
    : PolygonData * PolygonMerger :=
  let pd' := Normalize isCCW pd in
  (pd', with_datas (m_datas st ++ [pd'])
          (with_bbox (box_union (m_bbox st) (BBox pd')) st)).

Definition AddObject_box (prop : property_type) (box : Box2D num)
    (st : PolygonMerger) : PolygonData * PolygonMerger :=
  AddPolygonData (mkPolygonWithProp prop (toPolygon box) []) st.

Definition AddObject (prop : property_type) (polygon : Polygon2D num)
    (st : PolygonMerger) : PolygonData * PolygonMerger :=
  AddPolygonData (mkPolygonWithProp prop polygon []) st.

Definition AddObject_pwh (prop : property_type)
    (pwh : Polygon2D num * list (Polygon2D num)) (st : PolygonMerger)
    : PolygonData * PolygonMerger :=
  AddPolygonData (mkPolygonWithProp prop pwh.1 pwh.2) st.

(** [Clear()]: the records are released and every container is emptied. *)
Definition Clear (st : PolygonMerger) : PolygonMerger :=
  mkPolygonMerger None [] ∅ (ClearNode (m_mergeTaskTree st))
    (m_mergeSettings st) [].

Definition GetAllPolygons (st : PolygonMerger) : list PolygonData :=
  match GetAllObjects (m_mergeTaskTree st) with
  | [] => m_datas st
  | polygons => polygons
  end.

(** *** Point cleanup ([PolygonMergeUtils]) *)

(** [while(size != in.Size()) { in = out; simplify(in, out, dist); size =
    out.Size(); }] *)
Fixpoint simplifyLoop (fuel : nat) (dist : Q) (inp out : Polygon2D num)
    (size : nat) : option (Polygon2D num) :=
  if decide (size = length inp) then Some out
  else match fuel with
       | O => None
       | S fuel' =>
           let inp' := out in
           let out' := simplify dist inp' in
           simplifyLoop fuel' dist inp' out' (length out')
       end.

Definition CleanPolygon_ring (dist : Q) (polygon : Polygon2D num)
    : option (Polygon2D num) :=
  out ← simplifyLoop (S (length polygon)) dist [] polygon (length polygon);
  front ← head out;
  back ← last out;
  let out' :=
    if Qlt_bool (dist * dist) (to_float (DistanceSq front back))
    then removelast out else out in
  Some (if bool_decide (3 <= length out') then out' else polygon).

Definition CleanPolygon (dist : Q) (pd : PolygonData) : option PolygonData :=
  solid' ← CleanPolygon_ring dist (solid pd);
  holes' ← mapM (CleanPolygon_ring dist) (holes pd);
  Some (mkPolygonWithProp (property pd) solid' holes').

(** [PolygonMerger::CleanPolygons]: the polygons of [GetAllPolygons] are
    cleaned in place, in the tree or, while the tree is empty, in [m_datas]. *)
Definition CleanPolygons (st : PolygonMerger) : option PolygonMerger :=
  let dist := cleanPointDist (m_mergeSettings st) in
  match GetAllObjects (m_mergeTaskTree st) with
  | [] =>
      ds ← mapM (CleanPolygon dist) (m_datas st);
      Some (with_datas ds st)
  | _ =>
      t ← updateObjects (CleanPolygon dist) (m_mergeTaskTree st);
      Some (with_mergeTaskTree t st)
  end.

(** *** Tiny-area and tiny-hole filters *)

Fixpoint eraseTinyArea (a : Q) (polygons : list PolygonData) : list PolygonData :=
  match polygons with
  | [] => []
  | pd :: rest =>
      if math.LT (NT := float_t) (CoveredArea area pd) a
      then eraseTinyArea a rest
      else pd :: eraseTinyArea a rest
  end.

Definition FilterOutTinyArea_list (st : PolygonMerger)
    (polygons : list PolygonData) : list PolygonData :=
  let s := m_mergeSettings st in
  if ignoreTinySolid s && math.isPositive (NT := float_t) (tinySolidArea s)
  then eraseTinyArea (tinySolidArea s) polygons
  else polygons.

Definition FilterOutTinyArea (st : PolygonMerger) : PolygonMerger :=
  let polygons := FilterOutTinyArea_list st (GetAllPolygons st) in
  with_mergeTaskTree (Build (m_mergeTaskTree st) polygons 0) st.

Definition FilterOutTinyHoles (st : PolygonMerger)
    (polygons : list PolygonData) : list PolygonData :=
  let s := m_mergeSettings st in
  if ignoreTinyHoles s && math.isPositive (NT := float_t) (tinyHolesArea s)
  then map (RemoveTinyHoles area (tinyHolesArea s)) polygons
  else polygons.

(** *** The single-level merge ([PolygonMerger::MergePolygons]) *)

(** [m_propertyMap.count(p) ? m_propertyMap.at(p) : p] *)
Definition resolveProperty (m : PropertyMap) (p : property_type) : property_type :=
  match m !! p with
  | Some q => q
  | None => p
  end.

(** The [insert] calls of the first loop: the solid of every record as a
    positive contribution and its holes as negative ones, all under the
    resolved property. *)
Definition mergerInputs (m : PropertyMap) (polygons : list PolygonData)
    : list (list (Point2D num) * property_type * bool) :=
  flat_map (fun pd =>
    let property := resolveProperty m (property pd) in
    (solid pd, property, false) :: map (fun hole => (hole, property, true)) (holes pd))
    polygons.

(** [for(; iter != properties.end(); ++iter) m_propertyMap.insert({*iter, prop})] *)
Definition redirectProperties (prop : property_type) (others : list property_type)
    (m : PropertyMap) : PropertyMap :=
  fold_left (fun m' pi => umap_insert pi prop m') others m.

(** The body of [for(auto & result : results)]: the state is the output list
    [polygons] and the merger. *)
Definition processResult (acc : list PolygonData * PolygonMerger)
    (result : list property_type * list (Polyline2D num))
    : option (list PolygonData * PolygonMerger) :=
  let '(polygons, st) := acc in
  let '(properties, outs0) := result in
  (* GENERIC_ASSERT(!properties.empty()) *)
  prop ← head properties;
  let '(outs, st') :=
    if bool_decide (1 < length properties) then
      if checkPropertyDiff (m_mergeSettings st) then
        ([], with_propDiffAreas (m_propDiffAreas st ++ [(properties, outs0)]) st)
      else
        (outs0, with_propertyMap
                  (redirectProperties prop (tail properties) (m_propertyMap st)) st)
    else (outs0, st) in
  pds ← mapM (fun out => makePolygonData out prop) outs;
  Some (polygons ++ pds, st').

Definition MergePolygons (st : PolygonMerger) (polygons : list PolygonData)
    : option (list PolygonData * PolygonMerger) :=
  if bool_decide (length polygons <= 1) then Some (polygons, st)
  else
    let results := property_merge (mergerInputs (m_propertyMap st) polygons) in
    forLoop processResult results ([], st).

(** *** The region merge ([PolygonMerger::MergeRegion]) *)

(** [ConnectedComponents] of [topology/IndexGraph.hpp]: [cc.resize(numComp)]
    and [cc[c[i]].push_back(i)] for every vertex [i]. *)
Definition ConnectedComponents (g : list (list nat)) : option (list (list nat)) :=
  let '(c, numComp) := connected_components g in
  forLoop (fun cc i =>
             ci ← c !! i;
             comp ← cc !! ci;
             Some (<[ci := comp ++ [i]]> cc))
          (seq 0 (length c)) (replicate numComp []).

Definition GetOverlappedSubTaskNodes (node : MergeTaskNode)
    : option (list (list nat)) :=
  let vecNodes := GetChildren node in
  let connection := ConnectivityExtraction (map GetBBox vecNodes) in
  cc ← ConnectedComponents connection;
  Some (filter (fun component => 1 < length component) cc).

(** One sibling group: the objects of its members are drained into one list,
    the members are cleared and the list is merged. *)
Definition mergeSubNodeGroup
    (acc : list MergeTaskNode * list PolygonData * PolygonMerger)
    (subNodeGroup : list nat)
    : option (list MergeTaskNode * list PolygonData * PolygonMerger) :=
  let '(children, mergedObjs, st) := acc in
  r ← forLoop (fun (a : list MergeTaskNode * list PolygonData) i =>
                 subNode ← a.1 !! i;
                 Some (<[i := ClearNode subNode]> a.1, a.2 ++ GetObjs subNode))
              subNodeGroup (children, []);
  m ← MergePolygons st r.2;
  Some (r.1, mergedObjs ++ m.1, m.2).

(** The body of [MergeRegion] after the recursion into the children. *)
Definition mergeOwnRegion (node : MergeTaskNode) (st : PolygonMerger)
    : option (MergeTaskNode * PolygonMerger) :=
  subNodeGroups ← GetOverlappedSubTaskNodes node;
  g ← forLoop mergeSubNodeGroup subNodeGroups (GetChildren node, [], st);
  let '(children, mergedObjs, st1) := g in
  let merged := match subNodeGroups with [] => false | _ => true end in
  let node1 := SetChildren children node in
  let allObjs := GetAllObjects node1 ++ mergedObjs in
  r ← (match GetObjs node1 with
       | [] => Some (allObjs, st1, merged)
       | _ => m ← MergePolygons st1 allObjs; Some (m.1, m.2, true)
       end);
  let '(allObjs1, st2, merged1) := r in
  let allObjs2 := if (merged1 : bool) then FilterOutTinyHoles st2 allObjs1 else allObjs1 in
  Some (BuildNode node1 allObjs2, st2).

(** [for(auto * child : children) MergeRegion(child);] with the region merge
    [mergeRegion] of a child: the children are merged in order, each on the
    merger state its elder siblings left. *)
Fixpoint mergeChildren
    (mergeRegion : MergeTaskNode -> PolygonMerger -> option (MergeTaskNode * PolygonMerger))
    (children : list MergeTaskNode) (st : PolygonMerger)
    : option (list MergeTaskNode * PolygonMerger) :=
  match children with
  | [] => Some ([], st)
  | child :: rest =>
      c ← mergeRegion child st;
      r ← mergeChildren mergeRegion rest c.2;
      Some (c.1 :: r.1, r.2)
  end.

Fixpoint MergeRegion (node : MergeTaskNode) (st : PolygonMerger)
    : option (MergeTaskNode * PolygonMerger) :=
  match node with
  | mkRectNode b objs children =>
      r ← mergeChildren MergeRegion children st;
      mergeOwnRegion (mkRectNode b objs r.1) r.2
  end.

(** The call of [MergeRegion] for the node at [path] that the call for [node]
    on the merger [st] makes: the node and the merger that call is made on.
    The loop over the children reaches the child of index [i] on the merger
    that the calls for the children before it have left; the child is as it
    was, since a call changes the node it is made for and no other. *)
Fixpoint callAt (node : MergeTaskNode) (path : list nat) (st : PolygonMerger)
    : option (MergeTaskNode * PolygonMerger) :=
  match path with
  | [] => Some (node, st)
  | i :: rest =>
      r ← mergeChildren MergeRegion (take i (GetChildren node)) st;
      child ← GetChildren node !! i;
      callAt child rest r.2
  end.

(** *** The drivers *)

Definition BuildTaskTree (st : PolygonMerger) : PolygonMerger :=
  with_datas []
    (with_mergeTaskTree
       (Build (SetBBox (m_bbox st) (m_mergeTaskTree st)) (m_datas st)
              (mergeThreashold (m_mergeSettings st))) st).

Definition PreProcess (st : PolygonMerger) : option PolygonMerger :=
  let s := m_mergeSettings st in
  st1 ← (if cleanPolyonPoints s && math.isPositive (NT := float_t) (cleanPointDist s)
         then CleanPolygons st else Some st);
  Some (BuildTaskTree st1).

Definition PostProcess (st : PolygonMerger) : option PolygonMerger :=
  let s := m_mergeSettings st in
  st1 ← (if negb (Qeq_bool (cleanPointDist s) 0)
            && math.isPositive (NT := float_t) (cleanPointDist s)
         then CleanPolygons st else Some st);
  Some (if ignoreTinySolid s && math.isPositive (NT := float_t) (tinySolidArea s)
        then FilterOutTinyArea st1 else st1).

(** [Merge()]: the single-threaded driver. *)
Definition Merge (st : PolygonMerger) : option PolygonMerger :=
  st1 ← PreProcess st;
  r ← MergeRegion (m_mergeTaskTree st1) st1;
  PostProcess (with_mergeTaskTree r.1 r.2).
End PolygonMerger.

(** ** The parallel driver ([PolygonMergeRunner]) *)

(** Modelled from the spec: [thread::taskflow::TaskFlow] is declared in
    [generic/thread/TaskFlow.hpp], a header of the repository that is not among the sources verified here.
    A task flow is a dependency graph: [Emplace] adds a work unit and returns
    its task, [Precede] adds the edge "must complete before".  The work of
    every task here is [MergeRegion] bound to a node, which the path of child
    indices from the root identifies. *)
Record TaskFlow := mkTaskFlow {
  tf_tasks : list (list nat);
  tf_edges : list (nat * nat)
}.

(** Modelled from the spec: [TaskFlow::Emplace], the new task is the next
    free index. *)
Definition Emplace (work : list nat) (tf : TaskFlow) : nat * TaskFlow :=
  (length (tf_tasks tf), mkTaskFlow (tf_tasks tf ++ [work]) (tf_edges tf)).

(** Modelled from the spec: [TaskNode::Precede], [task] must complete before
    [successor] starts. *)
Definition Precede (task successor : nat) (tf : TaskFlow) : TaskFlow :=
  mkTaskFlow (tf_tasks tf) (tf_edges tf ++ [(task, successor)]).

(** Modelled from the spec: what an executor guarantees for a task flow.  A
    run gives every task the time it starts and the time it completes; a
    task starts only after every task that precedes it has completed. *)
Definition respectsEdges (tf : TaskFlow) (start finish : nat -> nat) : Prop :=
  forall a b, (a, b) ∈ tf_edges tf -> finish a < start b.

Section PolygonMergeRunner.
Context {num A : Type}.

(** [for(auto * child : children) { task = Emplace(MergeRegion(child));
    task->Precede(successor); ScheduleSubTasks(child, task); }] with the
    recursive call [scheduleSubTasks]; [i] is the index of the first child
    of [children] under the node at [path]. *)
Fixpoint scheduleChildren
    (scheduleSubTasks : RectNode num A -> list nat -> nat -> TaskFlow -> TaskFlow)
    (path : list nat) (i : nat) (successor : nat)
    (children : list (RectNode num A)) (tf : TaskFlow) : TaskFlow :=
  match children with
  | [] => tf
  | child :: rest =>
      let '(task, tf1) := Emplace (path ++ [i]) tf in
      let tf2 := Precede task successor tf1 in
      let tf3 := scheduleSubTasks child (path ++ [i]) task tf2 in
      scheduleChildren scheduleSubTasks path (S i) successor rest tf3
  end.

Fixpoint ScheduleSubTasks (parent : RectNode num A) (path : list nat)
    (successor : nat) (tf : TaskFlow) : TaskFlow :=
  match parent with
  | mkRectNode _ _ children =>
      (* if(!(parent->hasChild())) return; *)
      scheduleChildren ScheduleSubTasks path 0 successor children tf
  end.

Definition ScheduleTasks (tree : RectNode num A) : TaskFlow :=
  let '(task, tf) := Emplace [] (mkTaskFlow [] []) in
  ScheduleSubTasks tree [] task tf.

(** [tf'] has the tasks and the edges of [tf], and possibly more. *)
Definition tf_extends (tf tf' : TaskFlow) : Prop :=
  tf_tasks tf `prefix_of` tf_tasks tf' /\ tf_edges tf `prefix_of` tf_edges tf'.

(** Every node below [n], the node at [path], has a task that precedes the
    task of its parent. *)
Definition edgesBelow (n : RectNode num A) (path : list nat) (tf : TaskFlow)
    : Prop :=
  forall q i c, nodeAt n (q ++ [i]) = Some c ->
    exists tc tp,
      tf_tasks tf !! tc = Some (path ++ q ++ [i])
      /\ tf_tasks tf !! tp = Some (path ++ q)
      /\ (tc, tp) ∈ tf_edges tf.
End PolygonMergeRunner.

(** ** Concrete instances for the examples *)

(** Twice the signed area of a ring by the shoelace formula. *)
Fixpoint shoelace2 {num : Type} {NT : NumType num} (first : Point2D num)
    (pts : list (Point2D num)) : num :=
  match pts with
  | [] => num_zero
  | p :: rest =>
      let q := match rest with [] => first | q :: _ => q end in
      num_add (num_sub (num_mul p.1 q.2) (num_mul q.1 p.2)) (shoelace2 first rest)
  end.

Definition signedArea2 {num : Type} {NT : NumType num} (pts : list (Point2D num))
    : num :=
  match pts with
  | [] => num_zero
  | p :: _ => shoelace2 p pts
  end.

(** A stand-in for [boost::polygon::area]: the absolute area of the ring. *)
Definition shoelaceArea {num : Type} {NT : NumType num}
    (pts : list (Point2D num)) : Q :=
  (Qabs (to_float (signedArea2 pts)) / 2)%Q.

(** A stand-in for [Polygon2D::isCCW]: positive signed area. *)
Definition shoelace_isCCW {num : Type} {NT : NumType num}
    (pts : list (Point2D num)) : bool :=
  num_ltb num_zero (signedArea2 pts).

(** A stand-in for [toPolygon]: the four corners, counter-clockwise. *)
Definition cornersPolygon {num : Type} (b : Box2D num) : Polygon2D num :=
  match b with
  | Some (l, u) => [l; (u.1, l.2); u; (l.1, u.2)]
  | None => []
  end.

(** A stand-in for [boost::geometry::simplify]: a point is dropped when it
    lies within [dist] of the point kept before it. *)
Fixpoint dropClose (dist : Q) (kept : Point2D Z) (pts : list (Point2D Z))
    : list (Point2D Z) :=
  match pts with
  | [] => []
  | p :: rest =>
      if Qle_bool (inject_Z (DistanceSq (NT := integral double_epsilon) kept p))
                  (dist * dist)
      then dropClose dist kept rest
      else p :: dropClose dist p rest
  end.

Definition radialSimplify (dist : Q) (pts : Polygon2D Z) : Polygon2D Z :=
  match pts with
  | [] => []
  | p :: rest => p :: dropClose dist p rest
  end.

(** Stand-ins for the rectangle tree: one bucket without children, and a
    cleared node. *)
Definition oneBucket {num A : Type} (n : RectNode num A) (objs : list A)
    : RectNode num A :=
  mkRectNode (GetBBox n) objs [].

Definition emptiedNode {num A : Type} (n : RectNode num A) : RectNode num A :=
  mkRectNode (GetBBox n) [] [].

(** Stand-ins for the connectivity analysis: no two boxes are connected, and
    every vertex is a component of its own. *)
Definition noConnection {num : Type} (boxes : list (Box2D num)) : list (list nat) :=
  map (fun _ => []) boxes.

Definition ownComponents (g : list (list nat)) : list nat * nat :=
  (seq 0 (length g), length g).

Module Examples.

Definition NTZ : NumType Z := integral double_epsilon.
Definition NTQ : NumType Q := floating double_epsilon.
#[export] Existing Instance NTZ.
#[export] Existing Instance IntegralPointIndexMap.

Definition emptyMerger (s : MergeSettings) : PolygonMerger (property_type := nat) (num := Z) :=
  mkPolygonMerger None [] ∅ (mkRectNode None [] []) s [].

(** The property map after the redirects [2 -> 1] and [1 -> 0]. *)
Definition chainedMap : gmap nat nat := <[2%nat := 1%nat]> (<[1%nat := 0%nat]> ∅).

Definition unitSquare : Polygon2D Z := [(0, 0); (1, 0); (1, 1); (0, 1)]%Z.

(** A record whose property [2] has the image [1] in [chainedMap]. *)
Definition redirectedRecord : PolygonWithProp nat Z :=
  mkPolygonWithProp 2%nat unitSquare [].

(** A merger that has seen the two redirects. *)
Definition chainedMerger : PolygonMerger (property_type := nat) (num := Z) :=
  mkPolygonMerger None [] chainedMap (mkRectNode None [] []) defaultMergeSettings [].

(** A stand-in for [boost::polygon::property_merge] that reports no region. *)
Definition noRegions
    (inputs : list (list (Point2D Z) * nat * bool))
    : list (list nat * list (Polyline2D Z)) := [].

(** Point cleanup switched off before the merge, with a positive distance. *)
Definition cleanAfterSettings : MergeSettings :=
  mkMergeSettings false false false false 0 0 (1 # 2) 1024.

(** A merger with one pending square under [cleanAfterSettings]. *)
Definition pendingSquare : PolygonMerger (property_type := nat) (num := Z) :=
  mkPolygonMerger None [mkPolygonWithProp 1%nat unitSquare []] ∅
    (mkRectNode None [] []) cleanAfterSettings [].

(** Two overlapping squares, [[0,0]-[2,2]] with property [1] and
    [[1,1]-[3,3]] with property [2], and the regions the boolean primitive
    tells apart by the properties that cover them: what of the first square
    lies outside the second, the overlap, and what of the second lies outside
    the first, each as a closed polyline. *)
Definition squareA : PolygonWithProp nat Z :=
  mkPolygonWithProp 1%nat [(0, 0); (2, 0); (2, 2); (0, 2)]%Z [].
Definition squareB : PolygonWithProp nat Z :=
  mkPolygonWithProp 2%nat [(1, 1); (3, 1); (3, 3); (1, 3)]%Z [].
Definition onlyA : Polyline2D Z :=
  [(0, 0); (2, 0); (2, 1); (1, 1); (1, 2); (0, 2); (0, 0)]%Z.
Definition overlapAB : Polyline2D Z :=
  [(1, 1); (2, 1); (2, 2); (1, 2); (1, 1)]%Z.
Definition onlyB : Polyline2D Z :=
  [(2, 1); (3, 1); (3, 3); (1, 3); (1, 2); (2, 2); (2, 1)]%Z.
Definition twoSquaresRegions : list (list nat * list (Polyline2D Z)) :=
  [([1%nat], [onlyA]); ([1%nat; 2%nat], [overlapAB]); ([2%nat], [onlyB])].

Definition diffSettings : MergeSettings :=
  mkMergeSettings false true false false 0 0 0 1024.

(** Three rectangles in a row: [[0,2]x[0,2]] with property [1],
    [[4,6]x[0,2]] with property [2], and [[1,5]x[0,2]] with property [3]
    across the gap.  The regions, in the order of the [std::map]: covered by
    [{1}], by [{1,3}], by [{2}], by [{2,3}] and by [{3}]. *)
Definition rectLeft : PolygonWithProp nat Z :=
  mkPolygonWithProp 1%nat [(0, 0); (2, 0); (2, 2); (0, 2)]%Z [].
Definition rectRight : PolygonWithProp nat Z :=
  mkPolygonWithProp 2%nat [(4, 0); (6, 0); (6, 2); (4, 2)]%Z [].
Definition rectAcross : PolygonWithProp nat Z :=
  mkPolygonWithProp 3%nat [(1, 0); (5, 0); (5, 2); (1, 2)]%Z [].
Definition strip (x0 x1 : Z) : Polyline2D Z :=
  [(x0, 0); (x1, 0); (x1, 2); (x0, 2); (x0, 0)]%Z.
Definition threeRectsRegions : list (list nat * list (Polyline2D Z)) :=
  [([1%nat], [strip 0 1]); ([1%nat; 3%nat], [strip 1 2]);
   ([2%nat], [strip 5 6]); ([2%nat; 3%nat], [strip 4 5]);
   ([3%nat], [strip 2 4])].

(** A stand-in for [boost::polygon::property_merge] with the regions of the
    three rectangles. *)
Definition threeRectsMerge
    (inputs : list (list (Point2D Z) * nat * bool))
    : list (list nat * list (Polyline2D Z)) := threeRectsRegions.

(** The polyline [q, p, a, b, p, p, c]: it touches itself at [p], and [p] is
    there twice in a row. *)
Definition pinchedTwice : Polyline2D Z :=
  [(9, 9); (0, 0); (5, 0); (5, 5); (0, 0); (0, 0); (7, 1)]%Z.

(** A polyline with the new point [(0, 0)] twice in a row. *)
Definition doubledPoint : Polyline2D Z := [(1, 1); (0, 0); (0, 0); (3, 3)]%Z.

(** A root with two leaves, a square in each. *)
Definition twoLeaves : RectNode Z (PolygonWithProp nat Z) :=
  mkRectNode None []
    [mkRectNode None [mkPolygonWithProp 1%nat unitSquare []] [];
     mkRectNode None [mkPolygonWithProp 2%nat unitSquare []] []].

(** A "polygon" of two points. *)
Definition twoPoints : Polygon2D Z := [(0, 0); (1, 1)]%Z.

(** A triangle in [double] coordinates of area [1 - 2^-53], the largest
    [double] below [1]; its vertices and its area are exact in [double]. *)
Definition belowOne : Q := 9007199254740991 # 9007199254740992.
Definition nearUnitTriangle : Polygon2D Q := [(0, 0); (2, 0); (0, belowOne)]%Q.
Definition nearUnitRecord : PolygonWithProp nat Q :=
  mkPolygonWithProp 1%nat [(0, 0); (4, 0); (4, 4); (0, 4)]%Q [nearUnitTriangle].

(** Holes of area [1/2] and [5] in integral coordinates. *)
Definition halfHole : Polygon2D Z := [(1, 1); (1, 2); (2, 1)]%Z.
Definition fiveHole : Polygon2D Z := [(3, 3); (3, 5); (8, 3)]%Z.
Definition twoHolesRecord : PolygonWithProp nat Z :=
  mkPolygonWithProp 1%nat [(0, 0); (10, 0); (10, 10); (0, 10)]%Z [halfHole; fiveHole].
Definition tinyHolesSettings : MergeSettings :=
  mkMergeSettings false false false true 0 1 0 1024.

End Examples.

(** ** Numeric predicates with a tolerance ([math/MathUtility.hpp]) *)

(** The floating overloads of [EQ], [NE], [GE], [LE], [GT] and [LT] take the
    tolerance as a third argument; [Module math] has them at the default, the
    epsilon of the type. *)
Module math_tolerance.
Definition EQ (num1 num2 tolerance : Q) : bool :=
  Qle_bool (Qabs (num1 - num2)) tolerance.
Definition NE (num1 num2 tolerance : Q) : bool := negb (EQ num1 num2 tolerance).
Definition GE (num1 num2 tolerance : Q) : bool :=
  Qlt_bool num2 num1 || EQ num1 num2 tolerance.
Definition LE (num1 num2 tolerance : Q) : bool :=
  Qlt_bool num1 num2 || EQ num1 num2 tolerance.
Definition GT (num1 num2 tolerance : Q) : bool :=
  Qlt_bool tolerance (num1 - num2).
Definition LT (num1 num2 tolerance : Q) : bool :=
  Qlt_bool tolerance (num2 - num1).
End math_tolerance.

(** [std::copysign(mag, sgn)]: the magnitude of [mag] with the sign bit of
    [sgn]; [negative] is that bit, which a floating zero has as well. *)
Definition copysign (mag : Q) (negative : bool) : Q :=
  if negative then (- Qabs mag)%Q else Qabs mag.

Section SafeInv.
Context {num : Type} {NT : NumType num}.

(** [std::signbit] of the scalar as a value of the float type, and the
    rounding of a quotient to the float type: external primitives. *)
Variable signbit : num -> bool.
Variable fl : Q -> Q.

(** [SafeInv]: the inverse of a scalar in [float_type<num_type>]; a scalar
    that [EQ] takes for zero is replaced by the epsilon of the float type
    with the scalar's sign bit. *)
Definition SafeInv (scalar : num) : Q :=
  if math.EQ scalar num_zero
  then fl (1 / copysign float_epsilon (signbit scalar))
  else fl (1 / to_float scalar).
End SafeInv.

(** ** Undirected index edges ([topology/IndexGraph.hpp]) *)

Module topology.

(** [index_t] is [std::size_t]; [noIndex] is its largest value. *)
Definition index_t : Type := N.
Definition noIndex : index_t := (2 ^ 64 - 1)%N.

Record UndirectedIndexEdge := mkEdge { m_vertices : index_t * index_t }.

(** The default constructor: an invalid edge. *)
Definition invalidEdge : UndirectedIndexEdge := mkEdge (noIndex, noIndex).

Definition SetVertices (iv1 iv2 : index_t) (e : UndirectedIndexEdge)
    : UndirectedIndexEdge :=
  mkEdge (N.min iv1 iv2, N.max iv1 iv2).

(** The constructor from two vertices. *)
Definition Edge (iv1 iv2 : index_t) : UndirectedIndexEdge :=
  SetVertices iv1 iv2 invalidEdge.

Definition v1 (e : UndirectedIndexEdge) : index_t := (m_vertices e).1.
Definition v2 (e : UndirectedIndexEdge) : index_t := (m_vertices e).2.

(** [operator==] and [operator!=]. *)
Definition edge_eqb (e1 e2 : UndirectedIndexEdge) : bool :=
  N.eqb (m_vertices e1).1 (m_vertices e2).1
  && N.eqb (m_vertices e1).2 (m_vertices e2).2.
Definition edge_neqb (e1 e2 : UndirectedIndexEdge) : bool := negb (edge_eqb e1 e2).

Definition hasVertex (iv : index_t) (e : UndirectedIndexEdge) : bool :=
  N.eqb iv (m_vertices e).1 || N.eqb iv (m_vertices e).2.

(** [EdgeSet]: the edges of a graph as a set of undirected index edges.  The
    graph is taken by what [Edges], [Source] and [Target] give of it, the
    list of the endpoints of its edges in iteration order; the
    [std::unordered_set] under [UndirectedIndexEdgeCompare] is the set of
    the vertex pairs of its members. *)
Definition EdgeSet (g : list (index_t * index_t)) : gset (index_t * index_t) :=
  fold_left (fun edgeSet '(u, v) => edgeSet ∪ {[ m_vertices (Edge u v) ]}) g ∅.

End topology.

(** ** String helpers ([tools/StringHelper.hpp]) *)

Module str.

(** [std::equal(first1, last1, first2)]: the first range against as many
    elements from [first2] on; reading the second range beyond its end is
    undefined. *)
Fixpoint equal (l1 l2 : list Ascii.ascii) : option bool :=
  match l1, l2 with
  | [], _ => Some true
  | _ :: _, [] => None
  | x :: l1', y :: l2' =>
      if Ascii.eqb x y then equal l1' l2' else Some false
  end.

(** A [std::string] is the list of its characters; [rbegin] to [rend] runs
    through it from the back. *)
Definition EndsWith (s suffix : list Ascii.ascii) : option bool :=
  if bool_decide (length s < length suffix) then Some false
  else equal (rev suffix) (rev s).

End str.

(** ** Interpolation ([math/Interpolation.hpp]) *)

Module interpolation.

Inductive Method : Type := Linear | Cubic.
Inductive BCType : Type := FirstDeriv | SecondDeriv | NotAKnot.

Definition Method_eqb (a b : Method) : bool :=
  match a, b with Linear, Linear | Cubic, Cubic => true | _, _ => false end.
Definition BCType_eqb (a b : BCType) : bool :=
  match a, b with
  | FirstDeriv, FirstDeriv | SecondDeriv, SecondDeriv | NotAKnot, NotAKnot => true
  | _, _ => false
  end.

(** [size_t] subtraction wraps around. *)
Definition size_sub (a b : N) : N := ((a + 2 ^ 64 - b) mod 2 ^ 64)%N.

(** [v[i]] for a [size_t] index; out of range is undefined. *)
Definition at_N {A : Type} (v : list A) (i : N) : option A :=
  if (i <? N.of_nat (length v))%N then v !! N.to_nat i else None.

(** [v[i] = x]; out of range is undefined. *)
Definition vset {A : Type} (i : nat) (x : A) (v : list A) : option (list A) :=
  if bool_decide (i < length v) then Some (<[i := x]> v) else None.

(** [std::round]: to the nearest whole number, halves away from zero. *)
Definition round (x : Q) : Z :=
  if Qle_bool 0 x then Qfloor (x + (1 # 2)) else Qceiling (x - (1 # 2)).

Section Interpolation.
Context {num : Type} {NT : NumType num}.

(** [std::sqrt], an external primitive. *)
Variable sqrt : Q -> Q.

(** The band matrix of [boost::numeric::ublas] with [lu_factorize] and
    [lu_substitute]: for a matrix of the given size and band widths, the
    assignments [m(i, j) = v] and [rhs[i] = v] in the order the code makes
    them, the solution vector. *)
Variable lu_solve :
  nat -> nat -> nat -> list (nat * nat * Q) -> list (nat * Q) -> list Q.

Record Interpolation := mkInterpolation {
  m_method : Method;
  m_monotonic : bool;
  m_left : BCType;
  m_right : BCType;
  m_lVal : Q;
  m_rVal : Q;
  m_x : list num;
  m_y : list num;
  m_coef0 : Q;
  m_coef1 : list Q;
  m_coef2 : list Q;
  m_coef3 : list Q
}.

Definition with_coefs (c0 : Q) (c1 c2 c3 : list Q) (t : Interpolation)
    : Interpolation :=
  mkInterpolation (m_method t) (m_monotonic t) (m_left t) (m_right t)
    (m_lVal t) (m_rVal t) (m_x t) (m_y t) c0 c1 c2 c3.

(** [Interpolation(Method method)] *)
Definition create (method : Method) : Interpolation :=
  mkInterpolation method false SecondDeriv SecondDeriv 0 0 [] [] 0 [] [] [].

(** [SetBoundary]; its assertion wants the samples not to be set yet. *)
Definition SetBoundary (left right : BCType) (lVal rVal : Q) (t : Interpolation)
    : option Interpolation :=
  match m_x t with
  | [] => Some (mkInterpolation (m_method t) (m_monotonic t) left right lVal rVal
                  (m_x t) (m_y t) (m_coef0 t) (m_coef1 t) (m_coef2 t) (m_coef3 t))
  | _ => None
  end.

(** [a / b] in [num_type], as a value of the float type: the division of an
    integral type truncates, and by zero it is undefined; a floating division
    by zero lies outside the model. *)
Definition num_quot (a b : num) : option Q :=
  if is_integral then
    if num_eqb b num_zero then None
    else
      let q := (to_float a / to_float b)%Q in
      Some (inject_Z (if Qle_bool 0 q then Qfloor q else Qceiling q))
  else Some (to_float a / to_float b)%Q.

(** [UpdateCoefficients] *)
Definition UpdateCoefficients (t : Interpolation) : option Interpolation :=
  let size := length (m_coef1 t) in
  (* [size - 1] wraps around for no coefficient, and [m_x[1]] is out of range *)
  if bool_decide (size = 0) then None
  else
    r ← forLoop (fun (c : list Q * list Q) i =>
           xi ← m_x t !! i; xi1 ← m_x t !! (i + 1);
           yi ← m_y t !! i; yi1 ← m_y t !! (i + 1);
           c1i ← m_coef1 t !! i; c1i1 ← m_coef1 t !! (i + 1);
           let h := to_float (num_sub xi1 xi) in
           let v2 := ((3 * to_float (num_sub yi1 yi) / h - (2 * c1i + c1i1)) / h)%Q in
           c2 ← vset i v2 c.1;
           let v3 := (((c1i1 - c1i) / (3 * h) - (2 # 3) * v2) / h)%Q in
           c3 ← vset i v3 c.2;
           Some (c2, c3))
         (seq 0 (size - 1)) (m_coef2 t, m_coef3 t);
    c0 ← (if BCType_eqb (m_left t) FirstDeriv then Some 0%Q else r.2 !! 0);
    Some (with_coefs c0 (m_coef1 t) r.1 r.2 t).

(** The first loop of [makeMonotonic]: [im1] is [std::max(i - 1, size_t(0))]
    and [ip1] is [std::min(i + 1, m_x.size() - 1)], both in [size_t]. *)
Definition flattenStep (t : Interpolation) (s : bool * list Q) (i : nat)
    : option (bool * list Q) :=
  let im1 := N.max (size_sub (N.of_nat i) 1) 0 in
  let ip1 := N.min (N.of_nat i + 1) (size_sub (N.of_nat (length (m_x t))) 1) in
  yim1 ← at_N (m_y t) im1;
  yi ← m_y t !! i;
  rising ← (if math.num_leb yim1 yi then
              yip1 ← at_N (m_y t) ip1;
              if math.num_leb yi yip1 then c1i ← s.2 !! i; Some (Qlt_bool c1i 0)
              else Some false
            else Some false);
  falling ← (if (rising : bool) then Some false
             else if math.num_leb yi yim1 then
               yip1 ← at_N (m_y t) ip1;
               if math.num_leb yip1 yi then c1i ← s.2 !! i; Some (Qlt_bool 0 c1i)
               else Some false
             else Some false);
  if rising || falling then c1 ← vset i 0%Q s.2; Some (true, c1)
  else Some s.

(** The second loop of [makeMonotonic]. *)
Definition limitStep (t : Interpolation) (s : bool * list Q) (i : nat)
    : option (bool * list Q) :=
  xi ← m_x t !! i; xi1 ← m_x t !! (i + 1);
  yi ← m_y t !! i; yi1 ← m_y t !! (i + 1);
  let avg := (to_float (num_sub yi1 yi) / to_float (num_sub xi1 xi))%Q in
  let EQ0 := fun v => math.EQ (NT := float_t) v 0%Q in
  let GE0 := fun v => math.GE (NT := float_t) v 0%Q in
  let LE0 := fun v => math.LE (NT := float_t) v 0%Q in
  flat ← (if EQ0 avg then c1i ← s.2 !! i; Some (negb (EQ0 c1i) || negb (EQ0 c1i))
          else Some false);
  if (flat : bool) then
    c1 ← vset i 0%Q s.2; c1' ← vset (i + 1) 0%Q c1; Some (true, c1')
  else
    c1i ← s.2 !! i;
    same ← (if GE0 c1i then
              c1i1 ← s.2 !! (i + 1);
              Some (GE0 c1i1 && GE0 avg)
            else Some false);
    same' ← (if (same : bool) then Some true
             else if LE0 c1i then
               c1i1 ← s.2 !! (i + 1);
               Some (LE0 c1i1 && LE0 avg)
             else Some false);
    if (same' : bool) then
      c1i1 ← s.2 !! (i + 1);
      let r := (sqrt (c1i * c1i + c1i1 * c1i1) / Qabs avg)%Q in
      if Qlt_bool 3 r then
        c1 ← vset i (c1i * (3 / r))%Q s.2;
        c1' ← vset (i + 1) (c1i1 * (3 / r))%Q c1;
        Some (true, c1')
      else Some s
    else Some s.

(** [makeMonotonic]: the record and the flag [modified]. *)
Definition makeMonotonic (t : Interpolation) : option (Interpolation * bool) :=
  (* assert(m_x.size() > 2) *)
  if bool_decide (2 < length (m_x t)) then
    s1 ← forLoop (flattenStep t) (seq 0 (length (m_x t))) (false, m_coef1 t);
    s2 ← forLoop (limitStep t) (seq 0 (length (m_x t) - 1)) (s1 : bool * list Q);
    let t1 := with_coefs (m_coef0 t) (s2 : bool * list Q).2 (m_coef2 t) (m_coef3 t) t in
    if (s2 : bool * list Q).1 then
      t2 ← UpdateCoefficients t1;
      Some (mkInterpolation (m_method t2) true (m_left t2) (m_right t2)
              (m_lVal t2) (m_rVal t2) (m_x t2) (m_y t2) (m_coef0 t2)
              (m_coef1 t2) (m_coef2 t2) (m_coef3 t2), true)
    else Some (t1, false)
  else None.

(** The slopes of the linear method. *)
Definition linearSlopes (x y : list num) (size : nat) (c1 : list Q)
    : option (list Q) :=
  c1' ← forLoop (fun c i =>
           xi ← x !! i; xj ← x !! (i + 1); yi ← y !! i; yj ← y !! (i + 1);
           vset i (to_float (num_sub yj yi) / to_float (num_sub xj xi))%Q c)
         (seq 0 (size - 1)) c1;
  last ← c1' !! (size - 2);
  vset (size - 1) last c1'.

(** The band system of the cubic method: the assignments to the matrix and
    to the right-hand side, in the order the code makes them. *)
Definition cubicSystem (t : Interpolation) (x y : list num) (size : nat)
    : option (list (nat * nat * Q) * list (nat * Q)) :=
  let X := fun i : nat => x !! i in
  let Y := fun i : nat => y !! i in
  let d := fun a b : num => to_float (num_sub a b) in
  let neg := fun a : num => num_sub num_zero a in
  inner ← forLoop (fun (s : list (nat * nat * Q) * list (nat * Q)) i =>
             let j := i + 1 in let k := i + 2 in
             xi ← X i; xj ← X j; xk ← X k; yi ← Y i; yj ← Y j; yk ← Y k;
             q1 ← num_quot (num_sub yk yj) (num_sub xk xj);
             q2 ← num_quot (num_sub yj yi) (num_sub xj xi);
             Some (s.1 ++ [(j, i, ((1 # 3) * d xj xi)%Q);
                           (j, j, ((2 # 3) * d xk xi)%Q);
                           (j, k, ((1 # 3) * d xk xj)%Q)],
                   s.2 ++ [(j, (q1 - q2)%Q)]))
           (seq 0 (size - 2)) ([], []);
  lft ← (match m_left t with
         | FirstDeriv =>
             x0 ← X 0; x1 ← X 1; y0 ← Y 0; y1 ← Y 1;
             q ← num_quot (num_sub y1 y0) (num_sub x1 x0);
             Some ([(0, 0, (2 * d x1 x0)%Q); (0, 1, (1 * d x1 x0)%Q)],
                   [(0, (3 * (q - m_lVal t))%Q)])
         | SecondDeriv => Some ([(0, 0, 2%Q); (0, 1, 0%Q)], [(0, m_lVal t)])
         | NotAKnot =>
             x0 ← X 0; x1 ← X 1; x2 ← X 2;
             Some ([(0, 0, to_float (num_add (neg x2) x1));
                    (0, 1, d x2 x0);
                    (0, 2, to_float (num_add (neg x1) x0))],
                   [(0, 0%Q)])
         end);
  rgt ← (match m_right t with
         | FirstDeriv =>
             xa ← X (size - 1); xb ← X (size - 2);
             ya ← Y (size - 1); yb ← Y (size - 2);
             q ← num_quot (num_sub ya yb) (num_sub xa xb);
             Some ([(size - 1, size - 1, (2 * d xa xb)%Q);
                    (size - 1, size - 2, (1 * d xa xb)%Q)],
                   [(size - 1, (3 * (m_rVal t - q))%Q)])
         | SecondDeriv =>
             Some ([(size - 1, size - 1, 2%Q); (size - 1, size - 2, 0%Q)],
                   [(size - 1, m_rVal t)])
         | NotAKnot =>
             xa ← X (size - 1); xb ← X (size - 2); xc ← X (size - 3);
             Some ([(size - 1, size - 3, to_float (num_add (neg xa) xb));
                    (size - 1, size - 2, d xa xc);
                    (size - 1, size - 1, to_float (num_add (neg xb) xc))],
                   [])
         end);
  Some (inner.1 ++ lft.1 ++ rgt.1, inner.2 ++ lft.2 ++ rgt.2).

(** The coefficients of the cubic method from the solution of the system. *)
Definition cubicCoefs (t : Interpolation) (x y : list num) (size : nat)
    (c1 c2 c3 : list Q) : option (list Q * list Q * list Q) :=
  sys ← cubicSystem t x y size;
  let lower := if BCType_eqb (m_right t) NotAKnot then 2 else 1 in
  let upper := if BCType_eqb (m_left t) NotAKnot then 2 else 1 in
  let rhs := lu_solve size lower upper sys.1 sys.2 in
  c2a ← forLoop (fun c i => v ← rhs !! i; vset i v c) (seq 0 size) c2;
  r ← forLoop (fun (c : list Q * list Q) i =>
         let j := i + 1 in
         xi ← x !! i; xj ← x !! j; yi ← y !! i; yj ← y !! j;
         c2i ← c2a !! i; c2j ← c2a !! j;
         q ← num_quot (num_sub yj yi) (num_sub xj xi);
         let h := to_float (num_sub xj xi) in
         c1' ← vset i (q - (1 # 3) * (2 * c2i + c2j) * h)%Q c.1;
         c3' ← vset i ((1 # 3) * (c2j - c2i) / h)%Q c.2;
         Some (c1', c3'))
       (seq 0 (size - 1)) (c1, c3);
  xa ← x !! (size - 1); xb ← x !! (size - 2);
  let h := to_float (num_sub xa xb) in
  c3b ← vset (size - 1) 0%Q r.2;
  c3p ← c3b !! (size - 2); c2p ← c2a !! (size - 2); c1p ← r.1 !! (size - 2);
  c1b ← vset (size - 1) (3 * c3p * h * h + 2 * c2p * h + c1p)%Q r.1;
  c2b ← (if BCType_eqb (m_right t) FirstDeriv then vset (size - 1) 0%Q c2a
         else Some c2a);
  Some (c1b, c2b, c3b).

(** [SetSamples] *)
Definition SetSamples (x y : list num) (t : Interpolation)
    : option Interpolation :=
  let size := length x in
  (* assert(size > 0 && size == y.size()) *)
  if bool_decide (0 < size /\ size = length y) then
    let zeros := replicate size 0%Q in
    let t0 := mkInterpolation (m_method t) (m_monotonic t) (m_left t) (m_right t)
                (m_lVal t) (m_rVal t) x y (m_coef0 t) zeros zeros zeros in
    if bool_decide (size < 2) then Some t0
    else
      let method := if bool_decide (size < 3) then Linear else m_method t in
      c ← (match method with
           | Linear => c1 ← linearSlopes x y size zeros; Some (c1, zeros, zeros)
           | Cubic => cubicCoefs t0 x y size zeros zeros zeros
           end);
      c0 ← (if BCType_eqb (m_left t) FirstDeriv then Some 0%Q else c.2 !! 0);
      let t1 := mkInterpolation method (m_monotonic t) (m_left t) (m_right t)
                  (m_lVal t) (m_rVal t) x y c0 c.1.1 c.1.2 c.2 in
      if negb (m_monotonic t) && bool_decide (2 < size)
      then r ← makeMonotonic t1; Some r.1
      else Some t1
  else None.

(** The constructor that takes the samples. *)
Definition createWith (x y : list num) (method : Method) (monotonic : bool)
    (left : BCType) (lValue : Q) (right : BCType) (rValue : Q)
    : option Interpolation :=
  SetSamples x y
    (mkInterpolation method monotonic left right lValue rValue [] [] 0 [] [] []).

(** The number of leading elements that are not greater than [x]. *)
Fixpoint notGreaterPrefix (v : list num) (x : num) : nat :=
  match v with
  | [] => 0
  | e :: rest => if num_ltb x e then 0 else S (notGreaterPrefix rest x)
  end.

(** [std::upper_bound(first, last, x)]: the position of the first element
    greater than [x]; the range has to be partitioned by that, which a sorted
    range is. *)
Definition upper_bound (v : list num) (x : num) : option nat :=
  let k := notGreaterPrefix v x in
  if forallb (fun e => num_ltb x e) (drop k v) then Some k else None.

(** [FindClosest]: [std::max(int(iter - m_x.begin() - 1), 0)]. *)
Definition FindClosest (t : Interpolation) (x : num) : option nat :=
  k ← upper_bound (m_x t) x;
  Some (k - 1).

(** [Interpolate(x, num_floating_tag)] *)
Definition Interpolate_floating (t : Interpolation) (x : num) : option Q :=
  let n := length (m_x t) in
  idx ← FindClosest t x;
  xi ← m_x t !! idx;
  let h := to_float (num_sub x xi) in
  x0 ← m_x t !! 0;
  if num_ltb x x0 then
    c1 ← m_coef1 t !! 0; y0 ← m_y t !! 0;
    Some ((m_coef0 t * h + c1) * h + to_float y0)%Q
  else
    xl ← m_x t !! (n - 1);
    if num_ltb xl x then
      c2 ← m_coef2 t !! (n - 1); c1 ← m_coef1 t !! (n - 1); yl ← m_y t !! (n - 1);
      Some ((c2 * h + c1) * h + to_float yl)%Q
    else
      c3 ← m_coef3 t !! idx; c2 ← m_coef2 t !! idx; c1 ← m_coef1 t !! idx;
      yi ← m_y t !! idx;
      Some (((c3 * h + c2) * h + c1) * h + to_float yi)%Q.

(** [Interpolate(x)] and [operator()]: the value, which for an integral
    [num_type] is rounded to a whole number. *)
Definition Interpolate (t : Interpolation) (x : num) : option Q :=
  v ← Interpolate_floating t x;
  Some (if is_integral then inject_Z (round v) else v).

End Interpolation.
End interpolation.

(** ** Further laws of the point-index map *)

(** Both specialisations look a point up by the point alone: an insertion
    under another point leaves the index of a point as it was. *)
Class Point2DIndexMapFrame (num : Type) {NT : NumType num}
    {PM : Point2DIndexMap num} : Prop := {
  pm_At_Insert_other : forall p i m q,
    Point_eqb p q = false -> pm_At q (pm_Insert p i m) = pm_At q m
}.

(** The points a map counts after [k] iterations of the reconstructor are
    the first [k] points of the polyline. *)
Definition countsPrefix {num : Type} {NT : NumType num}
    {PM : Point2DIndexMap num} (inp : Polyline2D num) (k : nat) (m : ptmap)
    : Prop :=
  forall q, pm_Count q m = existsb (fun p => Point_eqb p q) (take k inp).

(** ** What a merge leaves of the merger *)

(** From [st] to [st'] the settings, the bounding box and the pending records
    are as they were; the property map has its entries of before, and the
    conflict records begin with those of before; and of the two only the one
    that [checkPropertyDiff] selects has changed. *)
Definition mergeFrame {property_type num : Type} `{Countable property_type}
    (st st' : PolygonMerger (property_type := property_type) (num := num))
    : Prop :=
  m_mergeSettings st' = m_mergeSettings st
  /\ m_bbox st' = m_bbox st
  /\ m_datas st' = m_datas st
  /\ m_propertyMap st ⊆ m_propertyMap st'
  /\ m_propDiffAreas st `prefix_of` m_propDiffAreas st'
  /\ (checkPropertyDiff (m_mergeSettings st) = true ->
        m_propertyMap st' = m_propertyMap st)
  /\ (checkPropertyDiff (m_mergeSettings st) = false ->
        m_propDiffAreas st' = m_propDiffAreas st).

(** ** Further concrete instances for the examples *)

Module Cases.

(** A merger with the two overlapping squares of [Examples] pending and the
    redirects [2 -> 1] and [1 -> 0] in its property map. *)
Definition twoPending (s : MergeSettings)
    : PolygonMerger (property_type := nat) (num := Z) :=
  mkPolygonMerger None [Examples.squareA; Examples.squareB] Examples.chainedMap
    (mkRectNode None [] []) s [].

(** A stand-in for [RectNode::Build] with a threshold: one bucket. *)
Definition bucketBuild {num A : Type} (n : RectNode num A) (objs : list A)
    (threshold : nat) : RectNode num A :=
  oneBucket n objs.

(** A stand-in for [boost::connected_components] on three vertices: the
    first and the last are connected. *)
Definition outerTwoConnected (g : list (list nat)) : list nat * nat :=
  ([0; 1; 0], 2).

(** A root with three children. *)
Definition threeLeaves : RectNode Z (PolygonWithProp nat Z) :=
  mkRectNode None []
    [mkRectNode None [Examples.squareA] [];
     mkRectNode None [] [];
     mkRectNode None [Examples.squareB] []].

End Cases.

(** ** What one merge result contributes *)

(** The tags of the records emitted for one result of the boolean primitive:
    one tag, the first property of the set, per polyline; none when the set
    has several members and [check] is on. *)
Definition emittedTags {property_type num : Type} (check : bool)
    (result : list property_type * list (Polyline2D num)) : list property_type :=
  match head result.1 with
  | Some p0 =>
      if check && bool_decide (1 < length result.1) then []
      else replicate (length result.2) p0
  | None => []
  end.

(** The redirects one result adds to the property map. *)
Definition redirectsOf {property_type num : Type} `{Countable property_type}
    (m : gmap property_type property_type)
    (result : list property_type * list (Polyline2D num))
    : gmap property_type property_type :=
  match result.1 with
  | p0 :: others => redirectProperties p0 others m
  | [] => m
  end.

(** ** The shape of a scheduled task flow *)

(** Every task but the first is the source of one edge, the edges come in
    the order of their sources, and every edge leads from the task of a child
    node to the task of its parent, which was emplaced before it. *)
Definition childToParent (tf : TaskFlow) : Prop :=
  1 <= length (tf_tasks tf)
  /\ (tf_edges tf).*1 = seq 1 (length (tf_tasks tf) - 1)
  /\ forall a b, (a, b) ∈ tf_edges tf ->
       b < a
       /\ exists path i,
            tf_tasks tf !! a = Some (path ++ [i])
            /\ tf_tasks tf !! b = Some path.

(** [d] lists, each once, the paths of the nodes below [n], the node at
    [path]. *)
Definition pathsBelow {num A : Type} (n : RectNode num A) (path : list nat)
    (d : list (list nat)) : Prop :=
  NoDup d
  /\ forall q, q ∈ d <->
       exists r, r <> [] /\ q = path ++ r /\ is_Some (nodeAt n r).

(** ** A sequence of ingestions *)

(** [AddObject(property, polygon)] called for every pair of [objs] in turn. *)
Definition AddObjects {property_type num : Type} `{Countable property_type}
    {NT : NumType num} (isCCW : Polygon2D num -> bool)
    (objs : list (property_type * Polygon2D num))
    (st : PolygonMerger (property_type := property_type) (num := num))
    : PolygonMerger :=
  fold_left (fun st' o => (AddObject isCCW o.1 o.2 st').2) objs st.

(** * Properties *)

(** ** Comparisons on [Q] *)

Lemma Qlt_bool_iff (x y : Q) : Qlt_bool x y = true <-> (x < y)%Q.
Proof.
  unfold Qlt_bool. rewrite negb_true_iff.
  split; intros Hxy.
  - apply Qnot_le_lt. intros Hle. apply Qle_bool_iff in Hle. congruence.
  - destruct (Qle_bool y x) eqn:E; [|done].
    apply Qle_bool_iff in E. exfalso. lra.
Qed.

Lemma Qlt_bool_false_iff (x y : Q) : Qlt_bool x y = false <-> (y <= x)%Q.
Proof.
  unfold Qlt_bool. rewrite negb_false_iff. apply Qle_bool_iff.
Qed.

Lemma float_LT_iff {num : Type} {NT : NumType num} (a b : Q) :
  math.LT (NT := float_t) a b = true <-> (float_epsilon < b - a)%Q.
Proof. unfold math.LT. simpl. apply Qlt_bool_iff. Qed.

Lemma float_isPositive_iff {num : Type} {NT : NumType num} (a : Q) :
  math.isPositive (NT := float_t) a = true <-> (0 < a)%Q.
Proof. unfold math.isPositive. simpl. apply Qlt_bool_iff. Qed.

(** ** Tiny holes *)

Section TinyHoles.
Context {property_type num : Type} {NT : NumType num}.
Variable area : Polygon2D num -> Q.

Lemma eraseTinyHoles_filter (a : Q) (hs : list (Polygon2D num)) :
  eraseTinyHoles area a hs
  = List.filter (fun h => negb (Qlt_bool float_epsilon (a - area h))) hs.
Proof.
  induction hs as [|h hs IH]; [done|].
  simpl. unfold math.LT at 1. simpl.
  destruct (Qlt_bool float_epsilon (a - area h)); simpl; by rewrite IH.
Qed.

Lemma eraseTinyHoles_In (a : Q) (hs : list (Polygon2D num)) (h : Polygon2D num) :
  In h (eraseTinyHoles area a hs)
  <-> In h hs /\ ~ (float_epsilon < a - area h)%Q.
Proof.
  rewrite eraseTinyHoles_filter, filter_In, negb_true_iff.
  rewrite <- Qlt_bool_iff. destruct (Qlt_bool _ _); intuition congruence.
Qed.
End TinyHoles.

Section TinyHolesClaims.
Context {property_type num : Type} `{Countable property_type}
        {NT : NumType num} {PM : Point2DIndexMap num}.
Variable area : Polygon2D num -> Q.

(** C6 (amended).  [RemoveTinyHoles] compares through the tolerance-aware
    [math::LT] of [float_t]: it drops exactly the holes whose area lies below
    the threshold by more than the epsilon of [float_t], and keeps every other
    hole in its place (also one whose area is below the threshold by no more
    than epsilon).  With [ignoreTinyHoles] set and [tinyHolesArea = 1], and an
    epsilon in [[0, 1/2)], a hole of area [1/2] is removed and a hole of area
    [5] survives. *)
Theorem RemoveTinyHoles_tolerance (threshold : Q)
    (pd : PolygonWithProp property_type num) :
  holes (RemoveTinyHoles area threshold pd)
    = List.filter (fun h => negb (Qlt_bool float_epsilon (threshold - area h)))
        (holes pd)
  /\ (forall h, In h (holes (RemoveTinyHoles area threshold pd))
        <-> In h (holes pd) /\ ~ (float_epsilon < threshold - area h)%Q)
  /\ property (RemoveTinyHoles area threshold pd) = property pd
  /\ solid (RemoveTinyHoles area threshold pd) = solid pd
  /\ (forall (st : PolygonMerger) h1 h2,
        ignoreTinyHoles (m_mergeSettings st) = true ->
        tinyHolesArea (m_mergeSettings st) = 1%Q ->
        (0 <= float_epsilon)%Q -> (float_epsilon < 1 # 2)%Q ->
        (area h1 == 1 # 2)%Q -> (area h2 == 5)%Q ->
        holes pd = [h1; h2] ->
        FilterOutTinyHoles area st [pd]
          = [mkPolygonWithProp (property pd) (solid pd) [h2]]).
Proof.
  split; [apply eraseTinyHoles_filter|].
  split; [intros h; apply eraseTinyHoles_In|].
  split; [done|]. split; [done|].
  intros st h1 h2 Hig Hthr Heps0 Heps Ha1 Ha2 Hholes.
  assert (Hpos : math.isPositive (NT := float_t) 1%Q = true)
    by (apply float_isPositive_iff; lra).
  unfold FilterOutTinyHoles. rewrite Hig, Hthr, Hpos. simpl.
  unfold RemoveTinyHoles. rewrite Hholes. simpl.
  assert (H1 : math.LT (NT := float_t) (area h1) 1%Q = true)
    by (apply float_LT_iff; lra).
  assert (H2 : math.LT (NT := float_t) (area h2) 1%Q = false).
  { destruct (math.LT (NT := float_t) (area h2) 1%Q) eqn:E; [|done].
    apply float_LT_iff in E. lra. }
  by rewrite H1, H2.
Qed.
End TinyHolesClaims.

Lemma RemoveTinyHoles_tolerance_witness :
  FilterOutTinyHoles (NT := Examples.NTZ) (shoelaceArea (NT := Examples.NTZ))
    (Examples.emptyMerger Examples.tinyHolesSettings) [Examples.twoHolesRecord]
  = [mkPolygonWithProp 1%nat (solid Examples.twoHolesRecord) [Examples.fiveHole]].
Proof.
  pose proof (RemoveTinyHoles_tolerance (NT := Examples.NTZ)
                (shoelaceArea (NT := Examples.NTZ)) 1%Q
                Examples.twoHolesRecord) as (_ & _ & _ & _ & Hex).
  apply (Hex (Examples.emptyMerger Examples.tinyHolesSettings)
             Examples.halfHole Examples.fiveHole).
  - reflexivity.
  - reflexivity.
  - vm_compute. discriminate.
  - vm_compute. reflexivity.
  - vm_compute. reflexivity.
  - vm_compute. reflexivity.
  - reflexivity.
Defined.

(** C6 as stated fails: with the epsilon of [double] and the threshold [1], a
    hole of area [1 - 2^-53] is smaller than the threshold and is kept. *)
Lemma RemoveTinyHoles_below_threshold_kept :
  ~ (forall h,
       In h (holes (RemoveTinyHoles (NT := Examples.NTQ)
                      (shoelaceArea (NT := Examples.NTQ)) 1%Q
                      Examples.nearUnitRecord))
       <-> In h (holes Examples.nearUnitRecord)
           /\ ~ (shoelaceArea (NT := Examples.NTQ) h < 1)%Q).
Proof.
  intros Hclaim.
  destruct (Hclaim Examples.nearUnitTriangle) as [Hkept _].
  destruct Hkept as [_ Hnot].
  - vm_compute. left. reflexivity.
  - apply Hnot. vm_compute. reflexivity.
Qed.

(** ** Property resolution *)

Section PropertyResolution.
Context {property_type num : Type} `{Countable property_type}.

(** C4.  The resolution of a property [p] in [MergePolygons] returns the
    image of [p] in the property map when there is one and [p] itself
    otherwise; the image is returned as it is, also when the map redirects
    it further; and every contribution of a record is handed to the boolean
    primitive under the property so resolved. *)
Theorem resolveProperty_one_level (m : gmap property_type property_type)
    (p : property_type) :
  (forall q, m !! p = Some q -> resolveProperty m p = q)
  /\ (m !! p = None -> resolveProperty m p = p)
  /\ (forall q r, m !! p = Some q -> m !! q = Some r ->
        resolveProperty m p = q /\ (q <> r -> resolveProperty m p <> r))
  /\ (forall polygons : list (PolygonWithProp property_type num),
        map (fun x => x.1.2) (mergerInputs m polygons)
        = flat_map (fun pd => replicate (S (length (holes pd)))
                                (resolveProperty m (property pd))) polygons).
Proof.
  split; [|split; [|split]].
  - unfold resolveProperty. by intros q ->.
  - unfold resolveProperty. by intros ->.
  - unfold resolveProperty. intros q r -> Hq. split; [done | congruence].
  - intros polygons. unfold mergerInputs.
    induction polygons as [|pd polygons IH]; [done|].
    cbn [flat_map]. rewrite map_app. f_equal; [|exact IH].
    cbn [map fst snd replicate]. f_equal.
    induction (holes pd) as [|h hs IHh]; [done|]. cbn. by rewrite IHh.
Qed.
End PropertyResolution.

Lemma resolveProperty_one_level_witness :
  resolveProperty Examples.chainedMap 2%nat = 1%nat
  /\ resolveProperty Examples.chainedMap 5%nat = 5%nat
  /\ resolveProperty Examples.chainedMap 2%nat <> 0%nat.
Proof.
  pose proof (resolveProperty_one_level (num := Z) Examples.chainedMap 2%nat)
    as (Himg & _ & Hchain & _).
  pose proof (resolveProperty_one_level (num := Z) Examples.chainedMap 5%nat)
    as (_ & Hid & _).
  split; [apply Himg; reflexivity|].
  split; [apply Hid; reflexivity|].
  apply (Hchain 1%nat 0%nat); [reflexivity | reflexivity | discriminate].
Defined.

(** ** The single-level merge *)

Section MergePolygonsFrame.
Context {property_type num : Type} `{Countable property_type}
        {NT : NumType num} {PM : Point2DIndexMap num}.
Variable property_merge :
  list (list (Point2D num) * property_type * bool) ->
  list (list property_type * list (Polyline2D num)).

(** C9.  On a list of at most one record [MergePolygons] returns at once: the
    list, the property map, the conflict records and the rest of the merger
    are as they were, whatever the boolean primitive would compute and
    whatever the property map holds for the record's property. *)
Theorem MergePolygons_at_most_one (st : PolygonMerger)
    (polygons : list (PolygonWithProp property_type num)) :
  length polygons <= 1 ->
  MergePolygons property_merge st polygons = Some (polygons, st).
Proof.
  intros Hlen. unfold MergePolygons. by rewrite bool_decide_eq_true_2.
Qed.
End MergePolygonsFrame.

Lemma MergePolygons_at_most_one_witness :
  MergePolygons (NT := Examples.NTZ) (PM := IntegralPointIndexMap)
    Examples.noRegions Examples.chainedMerger [Examples.redirectedRecord]
  = Some ([Examples.redirectedRecord], Examples.chainedMerger).
Proof.
  apply (MergePolygons_at_most_one (NT := Examples.NTZ)
           (PM := IntegralPointIndexMap) Examples.noRegions
           Examples.chainedMerger [Examples.redirectedRecord]).
  simpl. lia.
Defined.

(** ** Ingestion *)

Section Ingestion.
Context {property_type num : Type} `{Countable property_type}
        {NT : NumType num}.
Variable isCCW : Polygon2D num -> bool.

(** C5 (amended).  [AddObject] validates nothing and reports nothing: whatever
    the number of points of the polygon, the record is normalized, which
    keeps the number of points, appended to the pending records of the
    merger, and returned to the caller; the bounding box of the merger is
    extended and nothing else changes. *)
Theorem AddObject_retains (prop : property_type) (polygon : Polygon2D num)
    (st : PolygonMerger) :
  let r := AddObject isCCW prop polygon st in
  r.1 = Normalize isCCW (mkPolygonWithProp prop polygon [])
  /\ m_datas r.2 = m_datas st ++ [r.1]
  /\ property r.1 = prop
  /\ length (solid r.1) = length polygon
  /\ m_bbox r.2 = box_union (m_bbox st) (BBox r.1)
  /\ m_propertyMap r.2 = m_propertyMap st
  /\ m_mergeTaskTree r.2 = m_mergeTaskTree st
  /\ m_mergeSettings r.2 = m_mergeSettings st
  /\ m_propDiffAreas r.2 = m_propDiffAreas st.
Proof.
  simpl. repeat split.
  destruct (isCCW polygon); [done|]. unfold Reverse. by rewrite length_rev.
Qed.
End Ingestion.

(** C5 as stated fails: a polygon of two points is accepted and retained. *)
Lemma AddObject_two_points_retained :
  let r := AddObject (NT := Examples.NTZ) (shoelace_isCCW (NT := Examples.NTZ))
             1%nat Examples.twoPoints
             (Examples.emptyMerger defaultMergeSettings) in
  length (solid r.1) < 3 /\ m_datas r.2 = [r.1].
Proof. vm_compute. split; [lia | reflexivity]. Qed.

(** ** Loops and trees *)

(** Case analysis on the computation a monadic bind of the goal waits for. *)
Ltac case_bind :=
  match goal with
  | |- context [mbind _ ?x] => destruct x eqn:?; simpl; [|done]
  end.

Lemma forLoop_invariant {S I : Type} (body : S -> I -> option S) (P : S -> Prop)
    (idxs : list I) :
  (forall s i s', In i idxs -> body s i = Some s' -> P s -> P s') ->
  forall s s', forLoop body idxs s = Some s' -> P s -> P s'.
Proof.
  induction idxs as [|i idxs IH]; intros Hbody s s' Hloop Hs; simpl in Hloop.
  - congruence.
  - destruct (body s i) as [s1|] eqn:E; [|done]. simpl in Hloop.
    eapply IH; [|exact Hloop|].
    + intros ? ? ? ?. apply Hbody. by right.
    + eapply Hbody; [by left | exact E | exact Hs].
Qed.

Lemma forLoop_app {S I : Type} (body : S -> I -> option S) (l1 l2 : list I)
    (s : S) :
  forLoop body (l1 ++ l2) s = s1 ← forLoop body l1 s; forLoop body l2 s1.
Proof.
  revert s. induction l1 as [|i l1 IH]; intros s; [done|].
  simpl. destruct (body s i); [apply IH | done].
Qed.

Lemma RectNode_nested_ind {num A : Type} (P : RectNode num A -> Prop) :
  (forall b objs cs, Forall P cs -> P (mkRectNode b objs cs)) ->
  forall n, P n.
Proof.
  intros Hnode. fix rec 1. intros [b objs cs]. apply Hnode.
  induction cs as [|c cs IH]; constructor; [apply rec | exact IH].
Qed.

(** ** The merge leaves the settings alone *)

Section SettingsFrame.
Context {property_type num : Type} `{Countable property_type}
        {NT : NumType num} {PM : Point2DIndexMap num}.
Variable area : Polygon2D num -> Q.
Variable property_merge :
  list (list (Point2D num) * property_type * bool) ->
  list (list property_type * list (Polyline2D num)).
Variable BuildNode :
  RectNode num (PolygonWithProp property_type num) ->
  list (PolygonWithProp property_type num) ->
  RectNode num (PolygonWithProp property_type num).
Variable ClearNode :
  RectNode num (PolygonWithProp property_type num) ->
  RectNode num (PolygonWithProp property_type num).
Variable ConnectivityExtraction : list (Box2D num) -> list (list nat).
Variable connected_components : list (list nat) -> list nat * nat.

Lemma processResult_settings
    (acc : list (PolygonWithProp property_type num) * PolygonMerger) result acc' :
  processResult acc result = Some acc' ->
  m_mergeSettings acc'.2 = m_mergeSettings acc.2.
Proof.
  destruct acc as [polygons st], result as [properties outs0].
  unfold processResult.
  destruct (head properties) as [prop|]; [|done]. simpl.
  case_bool_decide.
  - destruct (checkPropertyDiff (m_mergeSettings st)); simpl;
      try case_bind; by intros [= <-].
  - case_bind. by intros [= <-].
Qed.

Lemma MergePolygons_settings (st : PolygonMerger) polygons r :
  MergePolygons property_merge st polygons = Some r ->
  m_mergeSettings r.2 = m_mergeSettings st.
Proof.
  unfold MergePolygons. case_bool_decide; [by intros [= <-]|].
  intros Hloop.
  apply (forLoop_invariant _
           (fun acc => m_mergeSettings acc.2 = m_mergeSettings st) _
           (fun s i s' _ Hb Hs => eq_trans (processResult_settings s i s' Hb) Hs)
           _ _ Hloop).
  done.
Qed.

Lemma mergeSubNodeGroup_settings acc group acc' :
  mergeSubNodeGroup property_merge ClearNode acc group = Some acc' ->
  m_mergeSettings acc'.2 = m_mergeSettings acc.2.
Proof.
  destruct acc as [[children mergedObjs] st]. unfold mergeSubNodeGroup.
  destruct (forLoop _ _ _) as [r|]; [|done]. simpl.
  destruct (MergePolygons property_merge st r.2) as [m|] eqn:E; [|done].
  simpl. intros [= <-]. simpl. by apply MergePolygons_settings in E.
Qed.

Lemma mergeOwnRegion_settings node st r :
  mergeOwnRegion area property_merge BuildNode ClearNode
    ConnectivityExtraction connected_components node st = Some r ->
  m_mergeSettings r.2 = m_mergeSettings st.
Proof.
  unfold mergeOwnRegion.
  destruct (GetOverlappedSubTaskNodes _ _ _) as [groups|]; [|done]. simpl.
  destruct (forLoop _ groups _) as [[[children mergedObjs] st1]|] eqn:E; [|done].
  simpl.
  assert (Hst1 : m_mergeSettings st1 = m_mergeSettings st).
  { apply (forLoop_invariant _
             (fun acc => m_mergeSettings acc.2 = m_mergeSettings st) _
             (fun s i s' _ Hb Hs => eq_trans (mergeSubNodeGroup_settings s i s' Hb) Hs)
             _ _ E). done. }
  destruct (GetObjs _) as [|o objs]; simpl.
  - intros [= <-]. done.
  - destruct (MergePolygons _ _ _) as [m|] eqn:Em; [|done]. simpl.
    intros [= <-]. simpl. apply MergePolygons_settings in Em. congruence.
Qed.

Lemma MergeRegion_settings node : forall st r,
  MergeRegion area property_merge BuildNode ClearNode
    ConnectivityExtraction connected_components node st = Some r ->
  m_mergeSettings r.2 = m_mergeSettings st.
Proof.
  induction node as [b objs cs IH] using RectNode_nested_ind.
  intros st r. simpl.
  destruct (mergeChildren _ cs st) as [rc|] eqn:E; [|done]. simpl.
  intros Hown. apply mergeOwnRegion_settings in Hown. rewrite Hown.
  clear Hown r. revert st rc E.
  induction IH as [|c cs Hc _ IHcs]; intros st rc; simpl.
  - by intros [= <-].
  - destruct (MergeRegion _ _ _ _ _ _ c st) as [rc1|] eqn:E1; [|done]. simpl.
    destruct (mergeChildren _ cs rc1.2) as [rcs|] eqn:E2; [|done]. simpl.
    intros [= <-]. simpl. rewrite (IHcs _ _ E2). by apply Hc.
Qed.
End SettingsFrame.

(** ** The cleanup gates of the drivers *)

Section CleanupGates.
Context {property_type num : Type} `{Countable property_type}
        {NT : NumType num} {PM : Point2DIndexMap num}.
Variable area : Polygon2D num -> Q.
Variable simplify : Q -> Polygon2D num -> Polygon2D num.
Variable property_merge :
  list (list (Point2D num) * property_type * bool) ->
  list (list property_type * list (Polyline2D num)).
Variable Build :
  RectNode num (PolygonWithProp property_type num) ->
  list (PolygonWithProp property_type num) -> nat ->
  RectNode num (PolygonWithProp property_type num).
Variable BuildNode :
  RectNode num (PolygonWithProp property_type num) ->
  list (PolygonWithProp property_type num) ->
  RectNode num (PolygonWithProp property_type num).
Variable ClearNode :
  RectNode num (PolygonWithProp property_type num) ->
  RectNode num (PolygonWithProp property_type num).
Variable ConnectivityExtraction : list (Box2D num) -> list (list nat).
Variable connected_components : list (list nat) -> list nat * nat.

(** C10.  [PreProcess] cleans the points only when [cleanPolyonPoints] is set
    and [cleanPointDist] is positive; [PostProcess] cleans them whenever
    [cleanPointDist] is positive, whatever the flag says.  Hence a [Merge]
    with the flag off and a positive distance builds the tree from the
    polygons as they are, merges, and cleans the merged polygons. *)
Theorem cleanup_gates (st : PolygonMerger) :
  let s := m_mergeSettings st in
  let d := cleanPointDist s in
  let filterTiny := fun st1 : PolygonMerger =>
    if ignoreTinySolid s && math.isPositive (NT := float_t) (tinySolidArea s)
    then FilterOutTinyArea area Build st1 else st1 in
  (cleanPolyonPoints s = true -> (0 < d)%Q ->
     PreProcess simplify Build st
     = st1 ← CleanPolygons simplify st; Some (BuildTaskTree Build st1))
  /\ (cleanPolyonPoints s = false \/ (d <= 0)%Q ->
        PreProcess simplify Build st = Some (BuildTaskTree Build st))
  /\ ((0 < d)%Q ->
        PostProcess area simplify Build st
        = st1 ← CleanPolygons simplify st; Some (filterTiny st1))
  /\ ((d <= 0)%Q -> PostProcess area simplify Build st = Some (filterTiny st))
  /\ (cleanPolyonPoints s = false -> (0 < d)%Q ->
        Merge area simplify property_merge Build BuildNode ClearNode
          ConnectivityExtraction connected_components st
        = r ← MergeRegion area property_merge BuildNode ClearNode
                ConnectivityExtraction connected_components
                (m_mergeTaskTree (BuildTaskTree Build st)) (BuildTaskTree Build st);
          st2 ← CleanPolygons simplify (with_mergeTaskTree r.1 r.2);
          Some (filterTiny st2)).
Proof.
  intros s d filterTiny.
  assert (Hpos : (0 < d)%Q -> math.isPositive (NT := float_t) d = true)
    by apply float_isPositive_iff.
  assert (Hneg : (d <= 0)%Q -> math.isPositive (NT := float_t) d = false).
  { intros Hd. destruct (math.isPositive (NT := float_t) d) eqn:E; [|done].
    apply float_isPositive_iff in E. lra. }
  assert (Hnz : (0 < d)%Q -> Qeq_bool d 0 = false).
  { intros Hd. destruct (Qeq_bool d 0) eqn:E; [|done].
    apply Qeq_bool_iff in E. lra. }
  assert (Hpre : cleanPolyonPoints s = false \/ (d <= 0)%Q ->
                 PreProcess simplify Build st = Some (BuildTaskTree Build st)).
  { intros Hoff. unfold PreProcess. fold s. fold d.
    destruct Hoff as [-> | Hd]; [done|].
    rewrite (Hneg Hd). by rewrite andb_false_r. }
  assert (Hpost : forall st' : PolygonMerger,
            m_mergeSettings st' = s -> (0 < d)%Q ->
            PostProcess area simplify Build st'
            = st1 ← CleanPolygons simplify st'; Some (filterTiny st1)).
  { intros st' Hs Hd. unfold PostProcess. rewrite Hs. fold d.
    by rewrite (Hnz Hd), (Hpos Hd). }
  split; [|split; [exact Hpre|split; [|split]]].
  - intros Hflag Hd. unfold PreProcess. fold s. fold d.
    by rewrite Hflag, (Hpos Hd).
  - by apply Hpost.
  - intros Hd. unfold PostProcess. fold s. fold d.
    rewrite (Hneg Hd). by rewrite andb_false_r.
  - intros Hflag Hd. unfold Merge. rewrite Hpre by (by left). simpl.
    destruct (MergeRegion _ _ _ _ _ _ _ _) as [r|] eqn:E; [|done]. simpl.
    apply Hpost; [|exact Hd]. simpl.
    by apply MergeRegion_settings in E.
Qed.
End CleanupGates.

Lemma cleanup_gates_witness :
  let build := fun n objs (_ : nat) => oneBucket n objs in
  PreProcess (NT := Examples.NTZ) radialSimplify build Examples.pendingSquare
    = Some (BuildTaskTree build Examples.pendingSquare)
  /\ PostProcess (NT := Examples.NTZ) (shoelaceArea (NT := Examples.NTZ))
       radialSimplify build Examples.pendingSquare
     = (st1 ← CleanPolygons (NT := Examples.NTZ) radialSimplify
                Examples.pendingSquare;
        Some st1)
  /\ Merge (NT := Examples.NTZ) (PM := IntegralPointIndexMap)
       (shoelaceArea (NT := Examples.NTZ)) radialSimplify Examples.noRegions
       build oneBucket emptiedNode noConnection ownComponents
       Examples.pendingSquare
     = (r ← MergeRegion (NT := Examples.NTZ) (PM := IntegralPointIndexMap)
              (shoelaceArea (NT := Examples.NTZ)) Examples.noRegions
              oneBucket emptiedNode noConnection ownComponents
              (m_mergeTaskTree (BuildTaskTree build Examples.pendingSquare))
              (BuildTaskTree build Examples.pendingSquare);
        st2 ← CleanPolygons (NT := Examples.NTZ) radialSimplify
                (with_mergeTaskTree r.1 r.2);
        Some st2).
Proof.
  intros build.
  pose proof (cleanup_gates (NT := Examples.NTZ) (PM := IntegralPointIndexMap)
                (shoelaceArea (NT := Examples.NTZ)) radialSimplify
                Examples.noRegions build oneBucket emptiedNode
                noConnection ownComponents Examples.pendingSquare)
    as (_ & Hpre & Hpost & _ & Hmerge).
  split; [|split].
  - apply Hpre. left. reflexivity.
  - apply Hpost. vm_compute. reflexivity.
  - apply Hmerge; [reflexivity | vm_compute; reflexivity].
Defined.

(** ** Point cleanup *)

Section CleanPolygonClaims.
Context {num : Type} {NT : NumType num}.
Variable simplify : Q -> Polygon2D num -> Polygon2D num.

(** What the cleanup relies on from the Douglas-Peucker primitive: it selects
    points of its input, so it never returns more points than it was given,
    and it keeps at least one point of a polygon that has one. *)
Hypothesis simplify_length :
  forall dist p, length (simplify dist p) <= length p.
Hypothesis simplify_nonempty :
  forall dist p, p <> [] -> simplify dist p <> [].




End CleanPolygonClaims.





(** ** Children before parents *)

Section ScheduleOrder.
Context {num A : Type}.

Lemma tf_extends_refl tf : tf_extends tf tf.
Proof. by split. Qed.

Lemma tf_extends_trans tf1 tf2 tf3 :
  tf_extends tf1 tf2 -> tf_extends tf2 tf3 -> tf_extends tf1 tf3.
Proof. intros [? ?] [? ?]. split; by etrans. Qed.

Lemma tf_extends_task tf tf' t work :
  tf_extends tf tf' -> tf_tasks tf !! t = Some work -> tf_tasks tf' !! t = Some work.
Proof. intros [Ht _] Hl. by eapply prefix_lookup_Some. Qed.

Lemma tf_extends_edge tf tf' e :
  tf_extends tf tf' -> e ∈ tf_edges tf -> e ∈ tf_edges tf'.
Proof. intros [_ [k ->]] He. apply elem_of_app. by left. Qed.

Lemma Emplace_Precede_extends tf work successor :
  tf_extends tf (Precede (Emplace work tf).1 successor (Emplace work tf).2).
Proof. split; simpl; by apply prefix_app_r. Qed.

Lemma ScheduleSubTasks_extends (n : RectNode num A) :
  forall path successor tf,
    tf_extends tf (ScheduleSubTasks n path successor tf).
Proof.
  induction n as [b objs cs IH] using RectNode_nested_ind.
  intros path successor tf. simpl. generalize 0 as i. revert tf.
  induction IH as [|c cs Hc _ IHcs]; intros tf i; simpl.
  - apply tf_extends_refl.
  - eapply tf_extends_trans; [|apply IHcs].
    eapply tf_extends_trans; [|apply Hc].
    apply Emplace_Precede_extends.
Qed.

Lemma scheduleChildren_extends (cs : list (RectNode num A)) :
  forall path i successor tf,
    tf_extends tf (scheduleChildren ScheduleSubTasks path i successor cs tf).
Proof.
  induction cs as [|c cs IH]; intros path i successor tf; simpl.
  - apply tf_extends_refl.
  - eapply tf_extends_trans; [|apply IH].
    eapply tf_extends_trans; [|apply ScheduleSubTasks_extends].
    apply Emplace_Precede_extends.
Qed.

Lemma edgesBelow_extends (n : RectNode num A) path tf tf' :
  tf_extends tf tf' -> edgesBelow n path tf -> edgesBelow n path tf'.
Proof.
  intros Hext Hbelow q i c Hc.
  destruct (Hbelow q i c Hc) as (tc & tp & Htc & Htp & He).
  exists tc, tp. split; [|split].
  - by eapply tf_extends_task.
  - by eapply tf_extends_task.
  - by eapply tf_extends_edge.
Qed.

Lemma ScheduleSubTasks_edges (n : RectNode num A) :
  forall path successor tf,
    tf_tasks tf !! successor = Some path ->
    edgesBelow n path (ScheduleSubTasks n path successor tf).
Proof.
  induction n as [b objs cs IH] using RectNode_nested_ind.
  intros path successor tf Hsucc q i c. simpl.
  (* the loop over the children [cs], whose first index is [i0] *)
  assert (Hloop : forall i0 tf0,
            tf_tasks tf0 !! successor = Some path ->
            forall q i c,
              (match q with
               | [] => j ← (if bool_decide (i0 <= i) then Some (i - i0) else None);
                       cs !! j
               | k :: q' =>
                   j ← (if bool_decide (i0 <= k) then Some (k - i0) else None);
                   ck ← cs !! j; nodeAt ck (q' ++ [i])
               end) = Some c ->
              exists tc tp,
                tf_tasks (scheduleChildren ScheduleSubTasks path i0 successor cs tf0)
                  !! tc = Some (path ++ q ++ [i])
                /\ tf_tasks (scheduleChildren ScheduleSubTasks path i0 successor cs tf0)
                     !! tp = Some (path ++ q)
                /\ (tc, tp) ∈ tf_edges
                     (scheduleChildren ScheduleSubTasks path i0 successor cs tf0)).
  { clear q i c tf Hsucc.
    induction IH as [|c0 cs Hc0 _ IHcs]; intros i0 tf0 Hsucc q i c Hq.
    - destruct q as [|k q']; simpl in Hq;
        case_bool_decide; simpl in Hq; try done.
    - cbn [scheduleChildren].
      set (task := (Emplace (path ++ [i0]) tf0).1).
      set (tf1 := (Emplace (path ++ [i0]) tf0).2).
      set (tf2 := Precede task successor tf1).
      set (tf3 := ScheduleSubTasks c0 (path ++ [i0]) task tf2).
      change (let '(task, tf1) := Emplace (path ++ [i0]) tf0 in
              let tf2 := Precede task successor tf1 in
              let tf3 := ScheduleSubTasks c0 (path ++ [i0]) task tf2 in
              scheduleChildren ScheduleSubTasks path (S i0) successor cs tf3)
        with (scheduleChildren ScheduleSubTasks path (S i0) successor cs tf3).
      assert (Htask : tf_tasks tf2 !! task = Some (path ++ [i0])).
      { unfold tf2, task, tf1. simpl.
        rewrite lookup_app_r by lia. by rewrite Nat.sub_diag. }
      assert (Hsucc2 : tf_tasks tf2 !! successor = Some path).
      { eapply tf_extends_task; [apply Emplace_Precede_extends | exact Hsucc]. }
      assert (Hedge : (task, successor) ∈ tf_edges tf2).
      { unfold tf2. simpl. apply elem_of_app. right. by apply list_elem_of_singleton. }
      assert (Hext3 : tf_extends tf2 tf3) by apply ScheduleSubTasks_extends.
      assert (Hrest : tf_extends tf3
                (scheduleChildren ScheduleSubTasks path (S i0) successor cs tf3))
        by apply scheduleChildren_extends.
      assert (Hsucc3 : tf_tasks tf3 !! successor = Some path)
        by eauto using tf_extends_task.
      (* is the node in the subtree of the first child, or further on? *)
      destruct q as [|k q']; simpl in Hq.
      + case_bool_decide as Hle; simpl in Hq; [|done].
        destruct (decide (i = i0)) as [->|Hne].
        * exists task, successor. simpl.
          pose proof (tf_extends_trans _ _ _ Hext3 Hrest) as Hext.
          split; [|split].
          -- by eapply tf_extends_task.
          -- rewrite app_nil_r. by eapply tf_extends_task.
          -- by eapply tf_extends_edge.
        * apply (IHcs (S i0) tf3 Hsucc3 [] i c). simpl.
          rewrite bool_decide_eq_true_2 by lia. simpl.
          replace (i - i0) with (S (i - S i0)) in Hq by lia. exact Hq.
      + case_bool_decide as Hle; simpl in Hq; [|done].
        destruct (decide (k = i0)) as [->|Hne].
        * rewrite Nat.sub_diag in Hq. simpl in Hq.
          destruct (Hc0 (path ++ [i0]) task tf2 Htask q' i c Hq)
            as (tc & tp & Htc & Htp & He).
          exists tc, tp. rewrite <- !app_assoc in Htc, Htp. simpl in Htc, Htp.
          split; [|split].
          -- by eapply tf_extends_task.
          -- by eapply tf_extends_task.
          -- by eapply tf_extends_edge.
        * apply (IHcs (S i0) tf3 Hsucc3 (k :: q') i c). simpl.
          rewrite bool_decide_eq_true_2 by lia. simpl.
          replace (k - i0) with (S (k - S i0)) in Hq by lia. exact Hq. }
  intros Hq. apply (Hloop 0 tf Hsucc q i c).
  destruct q as [|k q']; simpl in *; rewrite Nat.sub_0_r; [|exact Hq].
  by destruct (cs !! i).
Qed.
End ScheduleOrder.

Section SequentialOrder.
Context {property_type num : Type} `{Countable property_type}
        {NT : NumType num} {PM : Point2DIndexMap num}.
Variable area : Polygon2D num -> Q.
Variable property_merge :
  list (list (Point2D num) * property_type * bool) ->
  list (list property_type * list (Polyline2D num)).
Variable BuildNode :
  RectNode num (PolygonWithProp property_type num) ->
  list (PolygonWithProp property_type num) ->
  RectNode num (PolygonWithProp property_type num).
Variable ClearNode :
  RectNode num (PolygonWithProp property_type num) ->
  RectNode num (PolygonWithProp property_type num).
Variable ConnectivityExtraction : list (Box2D num) -> list (list nat).
Variable connected_components : list (list nat) -> list nat * nat.

Abbreviation MergeRegion' :=
  (MergeRegion area property_merge BuildNode ClearNode
     ConnectivityExtraction connected_components).
Abbreviation mergeOwnRegion' :=
  (mergeOwnRegion area property_merge BuildNode ClearNode
     ConnectivityExtraction connected_components).
Abbreviation callAt' :=
  (callAt area property_merge BuildNode ClearNode
     ConnectivityExtraction connected_components).

(** A call is the loop over the children and then the own region, on what
    the loop returned. *)
Lemma MergeRegion_unfold (p : RectNode num (PolygonWithProp property_type num))
    (sp : PolygonMerger) :
  MergeRegion' p sp
  = r ← mergeChildren MergeRegion' (GetChildren p) sp;
    mergeOwnRegion' (SetChildren r.1 p) r.2.
Proof. by destruct p. Qed.

(** The loop over the children, cut at the child of index [i]: the call for
    that child is made on the merger the loop has reached, its node is the
    entry of index [i] of what the loop returns, and the loop goes on from
    the merger the call left. *)
Lemma mergeChildren_split
    (f : RectNode num (PolygonWithProp property_type num) -> PolygonMerger ->
         option (RectNode num (PolygonWithProp property_type num) * PolygonMerger))
    (cs : list (RectNode num (PolygonWithProp property_type num))) :
  forall st cs' st' i c,
    mergeChildren f cs st = Some (cs', st') ->
    cs !! i = Some c ->
    exists pre sc rc rest,
      mergeChildren f (take i cs) st = Some (pre, sc)
      /\ f c sc = Some rc
      /\ mergeChildren f (drop (S i) cs) rc.2 = Some (rest, st')
      /\ cs' !! i = Some rc.1.
Proof.
  induction cs as [|c0 cs IH]; intros st cs' st' i c Hrun Hc; [done|].
  cbn [mergeChildren] in Hrun.
  destruct (f c0 st) as [r0|] eqn:E0; [|done]. cbn [mbind option_bind] in Hrun.
  destruct (mergeChildren f cs r0.2) as [[rs ss]|] eqn:Es; [|done].
  cbn [mbind option_bind fst snd] in Hrun. injection Hrun as <- <-.
  destruct i as [|i].
  - injection Hc as <-. exists [], st, r0, rs. by cbn [take drop mergeChildren].
  - destruct (IH _ _ _ i c Es Hc) as (pre & sc & rc & rest & Hpre & Hf & Hrest & Hi).
    exists (r0.1 :: pre), sc, rc, rest. repeat split; try done.
    cbn [take mergeChildren]. rewrite E0. cbn [mbind option_bind].
    by rewrite Hpre.
Qed.

Lemma callAt_app (q q' : list nat) :
  forall (tree : RectNode num (PolygonWithProp property_type num)) st,
    callAt' tree (q ++ q') st = c ← callAt' tree q st; callAt' c.1 q' c.2.
Proof.
  induction q as [|i q IH]; intros tree st; [done|].
  cbn [app callAt].
  destruct (mergeChildren _ _ _) as [r|]; [|done]. cbn [mbind option_bind].
  destruct (GetChildren tree !! i) as [child|]; [|done]. apply IH.
Qed.

(** A call that returns has made the call for every node below, and that call
    has returned. *)
Lemma MergeRegion_callAt (q : list nat) :
  forall (tree p : RectNode num (PolygonWithProp property_type num)) st r,
    MergeRegion' tree st = Some r ->
    nodeAt tree q = Some p ->
    exists sp rp, callAt' tree q st = Some (p, sp) /\ MergeRegion' p sp = Some rp.
Proof.
  induction q as [|i q IH]; intros tree p st r Hrun Hp.
  - injection Hp as <-. by exists st, r.
  - cbn [nodeAt] in Hp.
    destruct (GetChildren tree !! i) as [c|] eqn:Ec; [|done].
    cbn [mbind option_bind] in Hp.
    rewrite MergeRegion_unfold in Hrun.
    destruct (mergeChildren _ _ _) as [[cs' st']|] eqn:Ecs; [|done].
    destruct (mergeChildren_split _ _ _ _ _ _ _ Ecs Ec)
      as (pre & sc & rc & rest & Hpre & Hc & _).
    destruct (IH c p sc rc Hc Hp) as (sp & rp & Hcall & Hret).
    exists sp, rp. split; [|done].
    cbn [callAt]. rewrite Hpre, Ec. done.
Qed.

Lemma nodeAt_snoc {A : Type} (q : list nat) (i : nat) :
  forall (tree c : RectNode num A),
    nodeAt tree (q ++ [i]) = Some c ->
    exists p, nodeAt tree q = Some p /\ GetChildren p !! i = Some c.
Proof.
  induction q as [|k q IH]; intros tree c Hc.
  - cbn [app nodeAt] in Hc. exists tree. split; [done|].
    by destruct (GetChildren tree !! i).
  - cbn [app nodeAt] in *.
    destruct (GetChildren tree !! k) as [ck|]; [|done]. by apply IH.
Qed.

(** The own region of a node is run on what the calls for its children
    returned. *)
Lemma MergeRegion_children_first
    (tree c : RectNode num (PolygonWithProp property_type num))
    (q : list nat) (i : nat) (st : PolygonMerger) r :
  nodeAt tree (q ++ [i]) = Some c ->
  MergeRegion' tree st = Some r ->
  exists p sp sc rc children' st' rp,
    callAt' tree q st = Some (p, sp)
    /\ callAt' tree (q ++ [i]) st = Some (c, sc)
    /\ MergeRegion' c sc = Some rc
    /\ mergeChildren MergeRegion' (GetChildren p) sp = Some (children', st')
    /\ children' !! i = Some rc.1
    /\ (exists rest,
          mergeChildren MergeRegion' (drop (S i) (GetChildren p)) rc.2
          = Some (rest, st'))
    /\ mergeOwnRegion' (SetChildren children' p) st' = Some rp
    /\ MergeRegion' p sp = Some rp.
Proof.
  intros Hc Hrun.
  destruct (nodeAt_snoc q i tree c Hc) as (p & Hp & Hpc).
  destruct (MergeRegion_callAt q tree p st r Hrun Hp) as (sp & rp & Hcall & Hret).
  pose proof Hret as Hown. rewrite MergeRegion_unfold in Hown.
  destruct (mergeChildren _ _ _) as [[cs' st']|] eqn:Ecs; [|done].
  cbn [mbind option_bind fst snd] in Hown.
  destruct (mergeChildren_split _ _ _ _ _ _ _ Ecs Hpc)
    as (pre & sc & rc & rest & Hpre & Hcret & Hrest & Hi).
  exists p, sp, sc, rc, cs', st', rp. repeat split; try done.
  - rewrite callAt_app, Hcall. cbn [mbind option_bind fst snd callAt].
    by rewrite Hpre, Hpc.
  - by exists rest.
Qed.
End SequentialOrder.

Section ChildrenBeforeParent.
Context {property_type num : Type} `{Countable property_type}
        {NT : NumType num} {PM : Point2DIndexMap num}.
Variable area : Polygon2D num -> Q.
Variable property_merge :
  list (list (Point2D num) * property_type * bool) ->
  list (list property_type * list (Polyline2D num)).
Variable BuildNode :
  RectNode num (PolygonWithProp property_type num) ->
  list (PolygonWithProp property_type num) ->
  RectNode num (PolygonWithProp property_type num).
Variable ClearNode :
  RectNode num (PolygonWithProp property_type num) ->
  RectNode num (PolygonWithProp property_type num).
Variable ConnectivityExtraction : list (Box2D num) -> list (list nat).
Variable connected_components : list (list nat) -> list nat * nat.

Abbreviation MergeRegion'' :=
  (MergeRegion area property_merge BuildNode ClearNode
     ConnectivityExtraction connected_components).
Abbreviation mergeOwnRegion'' :=
  (mergeOwnRegion area property_merge BuildNode ClearNode
     ConnectivityExtraction connected_components).
Abbreviation callAt'' :=
  (callAt area property_merge BuildNode ClearNode
     ConnectivityExtraction connected_components).

(** C7.  Let [c] be the child of index [i] of the node at [q] in the task
    tree.  In every sequential [MergeRegion] of the tree that returns, the
    call for the node at [q] is made, on a node [p] and a merger [sp], and
    within it the call for [c], which returns [rc]; the own region of the
    node is then run on the children that the loop over the children
    returned, of which the one of index [i] is the node that the call for
    [c] returned, and on the merger [st'] that the loop reached from the
    merger the call for [c] left.  So the merge of the node's own region
    takes the result of the call for [c] as its input and cannot begin
    before that call has returned.  And [ScheduleTasks] gives both nodes a
    task with an edge from the task of the child to the task of the parent,
    so that in every run that respects the edges the child has completed
    before the parent starts. *)
Theorem children_before_parent
    (tree c : RectNode num (PolygonWithProp property_type num))
    (q : list nat) (i : nat) :
  nodeAt tree (q ++ [i]) = Some c ->
  (forall st r,
     MergeRegion'' tree st = Some r ->
     exists p sp sc rc children' st' rp,
       callAt'' tree q st = Some (p, sp)
       /\ callAt'' tree (q ++ [i]) st = Some (c, sc)
       /\ MergeRegion'' c sc = Some rc
       /\ mergeChildren MergeRegion'' (GetChildren p) sp = Some (children', st')
       /\ children' !! i = Some rc.1
       /\ (exists rest,
             mergeChildren MergeRegion'' (drop (S i) (GetChildren p)) rc.2
             = Some (rest, st'))
       /\ mergeOwnRegion'' (SetChildren children' p) st' = Some rp
       /\ MergeRegion'' p sp = Some rp)
  /\ (exists tc tp,
        tf_tasks (ScheduleTasks tree) !! tc = Some (q ++ [i])
        /\ tf_tasks (ScheduleTasks tree) !! tp = Some q
        /\ (tc, tp) ∈ tf_edges (ScheduleTasks tree)
        /\ forall start finish,
             respectsEdges (ScheduleTasks tree) start finish ->
             finish tc < start tp).
Proof.
  intros Hc. split.
  - intros st r Hrun. by eapply MergeRegion_children_first.
  - unfold ScheduleTasks. simpl.
    destruct (ScheduleSubTasks_edges tree [] 0 (mkTaskFlow [[]] []) eq_refl q i c Hc)
      as (tc & tp & Htc & Htp & He).
    exists tc, tp. repeat split; try done.
    intros start finish Hrun. by apply Hrun.
Qed.
End ChildrenBeforeParent.

Lemma children_before_parent_witness :
  (exists p sp sc rc children' st' rp,
     let run := MergeRegion (NT := Examples.NTZ) (PM := IntegralPointIndexMap)
                  (shoelaceArea (NT := Examples.NTZ)) Examples.noRegions
                  oneBucket emptiedNode noConnection ownComponents in
     let call := callAt (NT := Examples.NTZ) (PM := IntegralPointIndexMap)
                   (shoelaceArea (NT := Examples.NTZ)) Examples.noRegions
                   oneBucket emptiedNode noConnection ownComponents in
     call Examples.twoLeaves [] (Examples.emptyMerger defaultMergeSettings)
     = Some (p, sp)
     /\ call Examples.twoLeaves ([] ++ [1])
          (Examples.emptyMerger defaultMergeSettings)
        = Some (mkRectNode None
                  [mkPolygonWithProp 2%nat Examples.unitSquare []] [], sc)
     /\ run (mkRectNode None
               [mkPolygonWithProp 2%nat Examples.unitSquare []] []) sc
        = Some rc
     /\ mergeChildren run (GetChildren p) sp = Some (children', st')
     /\ children' !! 1 = Some rc.1
     /\ (exists rest,
           mergeChildren run (drop 2 (GetChildren p)) rc.2 = Some (rest, st'))
     /\ mergeOwnRegion (NT := Examples.NTZ) (PM := IntegralPointIndexMap)
          (shoelaceArea (NT := Examples.NTZ)) Examples.noRegions
          oneBucket emptiedNode noConnection ownComponents
          (SetChildren children' p) st' = Some rp
     /\ run p sp = Some rp)
  /\ exists tc tp,
       tf_tasks (ScheduleTasks Examples.twoLeaves) !! tc = Some [1]
       /\ tf_tasks (ScheduleTasks Examples.twoLeaves) !! tp = Some []
       /\ (tc, tp) ∈ tf_edges (ScheduleTasks Examples.twoLeaves).
Proof.
  destruct (children_before_parent (NT := Examples.NTZ)
              (PM := IntegralPointIndexMap) (shoelaceArea (NT := Examples.NTZ))
              Examples.noRegions oneBucket emptiedNode noConnection ownComponents
              Examples.twoLeaves
              (mkRectNode None [mkPolygonWithProp 2%nat Examples.unitSquare []] [])
              [] 1 eq_refl) as (Hseq & tc & tp & Htc & Htp & He & _).
  split.
  - eapply (Hseq (Examples.emptyMerger defaultMergeSettings)).
    vm_compute. reflexivity.
  - exists tc, tp. by repeat split.
Defined.

(** ** The hole reconstructor *)
Section Reconstruction.
Context {property_type num : Type} {NT : NumType num}
        {PM : Point2DIndexMap num} {PML : Point2DIndexMapLaws num}.

Lemma set_next_Some (i v : nat) (nl : list PtNode) (nd : PtNode) :
  nl !! i = Some nd ->
  set_next i v nl = Some (<[i := mkPtNode (prev nd) v]> nl).
Proof. intros Hnd. unfold set_next. by rewrite Hnd. Qed.

Lemma set_prev_Some (i v : nat) (nl : list PtNode) (nd : PtNode) :
  nl !! i = Some nd ->
  set_prev i v nl = Some (<[i := mkPtNode v (next nd)]> nl).
Proof. intros Hnd. unfold set_prev. by rewrite Hnd. Qed.

(** The walk over a ring whose links go upwards to [curr] and from [curr]
    back to [start] ends at [curr]. *)
Lemma walkRing_up (inp : Polyline2D num) (nl : list PtNode) (start curr : nat) :
  curr < length inp ->
  (exists ndc, nl !! curr = Some ndc /\ next ndc = start) ->
  (forall k, start <= k -> k < curr ->
     exists nd, nl !! k = Some nd /\ k < next nd <= curr) ->
  forall fuel index acc,
    start <= index -> index <= curr -> curr - index <= fuel ->
    exists poly,
      walkRing fuel inp nl start index acc = Some (poly, curr)
      /\ length acc + (if decide (index = curr) then 0 else 1) <= length poly.
Proof.
  intros Hcurr (ndc & Hndc & Hback) Hup.
  assert (Hstop : forall fuel acc,
            walkRing fuel inp nl start curr acc = Some (acc, curr)).
  { intros fuel acc. destruct fuel; simpl; rewrite Hndc; simpl;
      by rewrite decide_True. }
  induction fuel as [|fuel IH]; intros index acc Hlo Hhi Hfuel.
  - assert (index = curr) as -> by lia. exists acc.
    rewrite Hstop, decide_True by done. split; [done | lia].
  - destruct (decide (index = curr)) as [->|Hne].
    + exists acc. rewrite Hstop. split; [done | lia].
    + destruct (Hup index Hlo ltac:(lia)) as (nd & Hnd & Hnext).
      destruct (lookup_lt_is_Some_2 inp index ltac:(lia)) as [p Hp].
      destruct (IH (next nd) (acc ++ [p]) ltac:(lia) ltac:(lia) ltac:(lia))
        as (poly & Hwalk & Hlen).
      exists poly. cbn [walkRing]. rewrite Hnd. simpl.
      rewrite decide_False by lia. rewrite Hp. simpl.
      split; [exact Hwalk|]. rewrite length_app in Hlen. simpl in Hlen. lia.
Qed.

(** The links after a splice at [i]: node [i] gets the predecessor [prev1]
    of the node it touches and keeps its successor, and [prev1] is linked to
    [i]. *)
Lemma splice_links (nl : list PtNode) (i prev0 : nat) (ndc ndp : PtNode) :
  nl !! i = Some ndc -> nl !! prev0 = Some ndp -> prev0 <> i ->
  prev ndp < length nl ->
  exists nl1 nl2 nl3 nl4,
    set_next i prev0 nl = Some nl1
    /\ nl1 !! prev0 = Some ndp
    /\ set_next (prev ndp) i nl1 = Some nl2
    /\ set_prev i (prev ndp) nl2 = Some nl3
    /\ set_next i (next ndc) nl3 = Some nl4
    /\ length nl4 = length nl
    /\ nl4 !! i = Some (mkPtNode (prev ndp) (next ndc))
    /\ (forall k, k <> i -> k = prev ndp ->
          exists ndo, nl !! k = Some ndo /\ nl4 !! k = Some (mkPtNode (prev ndo) i))
    /\ (forall k, k <> i -> k <> prev ndp -> nl4 !! k = nl !! k).
Proof.
  intros Hndc Hndp Hne Hprev1.
  pose proof (lookup_lt_Some _ _ _ Hndc) as Hi.
  set (prev1 := prev ndp) in *.
  set (nl1 := <[i := mkPtNode (prev ndc) prev0]> nl).
  assert (Hlen1 : length nl1 = length nl) by apply length_insert.
  assert (Hp1 : nl1 !! prev0 = Some ndp)
    by (unfold nl1; by rewrite list_lookup_insert_ne).
  destruct (lookup_lt_is_Some_2 nl1 prev1 ltac:(lia)) as [nd1 Hnd1].
  set (nl2 := <[prev1 := mkPtNode (prev nd1) i]> nl1).
  assert (Hlen2 : length nl2 = length nl) by (unfold nl2; by rewrite length_insert).
  destruct (lookup_lt_is_Some_2 nl2 i ltac:(lia)) as [nd2 Hnd2].
  set (nl3 := <[i := mkPtNode prev1 (next nd2)]> nl2).
  assert (Hlen3 : length nl3 = length nl) by (unfold nl3; by rewrite length_insert).
  assert (Hnd3 : nl3 !! i = Some (mkPtNode prev1 (next nd2)))
    by (unfold nl3; apply list_lookup_insert_eq; lia).
  set (nl4 := <[i := mkPtNode prev1 (next ndc)]> nl3).
  exists nl1, nl2, nl3, nl4.
  split; [by rewrite (set_next_Some _ _ _ _ Hndc)|].
  split; [exact Hp1|].
  split; [by rewrite (set_next_Some _ _ _ _ Hnd1)|].
  split; [by rewrite (set_prev_Some _ _ _ _ Hnd2)|].
  split; [by rewrite (set_next_Some _ _ _ _ Hnd3)|].
  split; [unfold nl4; by rewrite length_insert|].
  split; [unfold nl4; apply list_lookup_insert_eq; lia|]. split.
  - intros k Hki Hk. subst k.
    assert (Hold : nl1 !! prev1 = nl !! prev1)
      by (unfold nl1; by rewrite list_lookup_insert_ne).
    exists nd1. split; [by rewrite <- Hold|].
    unfold nl4, nl3. rewrite !list_lookup_insert_ne by done.
    unfold nl2. apply list_lookup_insert_eq. lia.
  - intros k Hki Hk. unfold nl4, nl3, nl2, nl1.
    by rewrite !list_lookup_insert_ne.
Qed.

Lemma spliceAt_inv (inp : Polyline2D num) (i prev0 : nat) (p : Point2D num)
    (st : ReconState) :
  i < length inp ->
  ReconInv (length inp) i st ->
  inp !! i = Some p ->
  pm_At p (rs_ptMap st) = Some prev0 ->
  exists polygon nl4,
    candidateRing inp (rs_nodeList st) prev0 i = Some polygon
    /\ polygon <> []
    /\ spliceAt inp i st
       = Some (mkReconState nl4
                 (if keepHole (Extent polygon) then rs_holes st ++ [polygon]
                  else rs_holes st)
                 (rs_ptMap st))
    /\ forall hs m,
         (forall q j, pm_At q m = Some j -> j < S i) ->
         ReconInv (length inp) (S i) (mkReconState nl4 hs m).
Proof.
  intros Hi (Hlen & Hrange & Hprev & Hdone & Htodo & Hlast & Hmap) Hp Hat.
  set (n := length inp) in *. set (nl := rs_nodeList st) in *.
  pose proof (Hmap _ _ Hat) as Hprev0.
  destruct (lookup_lt_is_Some_2 nl i ltac:(lia)) as [ndc Hndc].
  destruct (lookup_lt_is_Some_2 nl prev0 ltac:(lia)) as [ndp Hndp].
  destruct (Hrange _ _ Hndp) as [Hprev1 _].
  destruct (splice_links nl i prev0 ndc ndp Hndc Hndp ltac:(lia) ltac:(lia))
    as (nl1 & nl2 & nl3 & nl4 & H1 & Hp1 & H2 & H3 & H4 & Hlen4 & Hi4 & Hp4 & Ho4).
  (* the candidate ring *)
  assert (Hnl1 : nl1 = <[i := mkPtNode (prev ndc) prev0]> nl).
  { rewrite (set_next_Some _ _ _ _ Hndc) in H1. by injection H1. }
  destruct (walkRing_up inp nl1 prev0 i Hi) with (fuel := length inp)
    (index := prev0) (acc := @nil (Point2D num)) as (polygon & Hwalk & Hpoly);
    [| |lia|lia|fold n; lia|].
  { exists (mkPtNode (prev ndc) prev0). split; [|done].
    rewrite Hnl1. apply list_lookup_insert_eq. lia. }
  { intros k Hlo Hhi.
    destruct (lookup_lt_is_Some_2 nl k ltac:(lia)) as [nd Hnd].
    exists nd. split; [rewrite Hnl1; by rewrite list_lookup_insert_ne by lia|].
    apply (Hdone k nd Hnd); lia. }
  rewrite decide_False in Hpoly by lia. simpl in Hpoly.
  exists polygon, nl4.
  assert (Hcand : candidateRing inp nl prev0 i = Some polygon).
  { unfold candidateRing. rewrite H1. simpl. by rewrite Hwalk. }
  split; [exact Hcand|]. split; [by destruct polygon; simpl in *; [lia|]|].
  split.
  { unfold spliceAt. rewrite Hp. simpl. rewrite Hat. simpl.
    fold nl. rewrite Hndc. simpl. rewrite H1. simpl. rewrite Hcand. simpl.
    rewrite Hp1. simpl. rewrite H2. simpl. rewrite H3. simpl. by rewrite H4. }
  (* the invariant *)
  intros hs m Hm. unfold ReconInv. simpl.
  assert (Hcases : forall k nd, nl4 !! k = Some nd ->
            (k = i /\ nd = mkPtNode (prev ndp) (next ndc))
            \/ (k <> i /\ k = prev ndp
                /\ exists ndo, nl !! k = Some ndo /\ nd = mkPtNode (prev ndo) i)
            \/ (k <> i /\ k <> prev ndp /\ nl !! k = Some nd)).
  { intros k nd Hk. destruct (decide (k = i)) as [->|Hki].
    - left. rewrite Hi4 in Hk. by injection Hk as <-.
    - right. destruct (decide (k = prev ndp)) as [Hkp|Hkp].
      + left. destruct (Hp4 k Hki Hkp) as (ndo & Hndo & Hk4).
        rewrite Hk4 in Hk. injection Hk as <-. eauto.
      + right. by rewrite (Ho4 k Hki Hkp) in Hk. }
  assert (Hpp : prev ndp < prev0 \/ prev ndp = n - 1) by (by eapply Hprev).
  split; [lia|]. split; [|split; [|split; [|split; [|split]]]].
  - intros k nd Hk.
    destruct (Hcases k nd Hk) as [[-> ->] | [(_ & _ & ndo & Hndo & ->) | (_ & _ & Hold)]];
      simpl.
    + split; [lia | by eapply Hrange].
    + split; [by eapply Hrange | lia].
    + by eapply Hrange.
  - intros k nd Hk.
    destruct (Hcases k nd Hk) as [[-> ->] | [(_ & _ & ndo & Hndo & ->) | (_ & _ & Hold)]];
      simpl.
    + lia.
    + by eapply Hprev.
    + by eapply Hprev.
  - intros k nd Hk Hki Hkn.
    destruct (Hcases k nd Hk) as [[-> ->] | [(_ & Hkp & ndo & Hndo & ->) | (Hne & _ & Hold)]];
      simpl.
    + rewrite (Htodo i ndc Hndc) by lia. lia.
    + lia.
    + assert (k < i) by lia. pose proof (Hdone k nd Hold). lia.
  - intros k nd Hk Hki Hkn.
    destruct (Hcases k nd Hk) as [[-> ->] | [(_ & Hkp & ndo & Hndo & ->) | (Hne & _ & Hold)]];
      simpl.
    + lia.
    + lia.
    + apply (Htodo k nd Hold); lia.
  - intros Hn nd Hk.
    destruct (Hcases _ nd Hk) as [[Hni ->] | [(Hni & Hkp & ndo & Hndo & ->) | (_ & _ & Hold)]];
      simpl.
    + rewrite <- Hni in Hndc. by apply Hlast.
    + lia.
    + by apply Hlast.
  - exact Hm.
Qed.

Lemma reconStep_inv (inp : Polyline2D num) (i : nat) (st : ReconState) :
  i < length inp ->
  ReconInv (length inp) i st ->
  exists st', reconStep inp st i = Some st' /\ ReconInv (length inp) (S i) st'.
Proof.
  intros Hi Hinv.
  destruct (lookup_lt_is_Some_2 inp i Hi) as [p Hp].
  assert (Hm : forall q j,
            pm_At q (pm_Insert p i (rs_ptMap st)) = Some j -> j < S i).
  { intros q j Hat. destruct Hinv as (_ & _ & _ & _ & _ & _ & Hmap).
    destruct (pm_At_Insert _ _ _ _ _ Hat) as [-> | Hold]; [lia|].
    pose proof (Hmap _ _ Hold). lia. }
  unfold reconStep. rewrite Hp. simpl.
  destruct (pm_Count p (rs_ptMap st)) eqn:Hcount.
  - destruct (pm_Count_At _ _ Hcount) as [prev0 Hat].
    destruct (spliceAt_inv inp i prev0 p st Hi Hinv Hp Hat)
      as (polygon & nl4 & _ & _ & Hsplice & Hnext).
    rewrite Hsplice. simpl. eexists. split; [done|]. by apply Hnext.
  - simpl. eexists. split; [done|].
    destruct Hinv as (Hlen & Hrange & Hprev & Hdone & Htodo & Hlast & Hmap).
    unfold ReconInv. simpl.
    split; [exact Hlen|]. split; [exact Hrange|]. split; [exact Hprev|].
    split; [|split; [|split; [exact Hlast | exact Hm]]].
    + intros k nd Hk Hki Hkn. destruct (decide (k = i)) as [->|Hne].
      * rewrite (Htodo i nd Hk) by lia. lia.
      * pose proof (Hdone k nd Hk ltac:(lia) Hkn). lia.
    + intros k nd Hk Hki Hkn. apply (Htodo k nd Hk); lia.
Qed.

Lemma initNodeList_lookup (n k : nat) :
  k < n ->
  initNodeList n !! k = Some (mkPtNode ((k + n - 1) mod n) ((k + 1) mod n)).
Proof.
  intros Hk. unfold initNodeList.
  change (map ?f ?l) with (f <$> l).
  by rewrite list_lookup_fmap, lookup_seq_lt.
Qed.

Lemma ReconInv_init (n : nat) (hs : list (Polygon2D num)) :
  ReconInv n 0 (mkReconState (initNodeList n) hs pm_Clear).
Proof.
  assert (Hlen : length (initNodeList n) = n)
    by (unfold initNodeList; by rewrite length_map, length_seq).
  assert (Hlook : forall k nd, initNodeList n !! k = Some nd ->
            k < n /\ nd = mkPtNode ((k + n - 1) mod n) ((k + 1) mod n)).
  { intros k nd Hk. pose proof (lookup_lt_Some _ _ _ Hk) as Hlt.
    rewrite Hlen in Hlt. rewrite (initNodeList_lookup n k Hlt) in Hk.
    split; [done | by injection Hk]. }
  unfold ReconInv. simpl. split; [exact Hlen|].
  split; [|split; [|split; [|split; [|split]]]].
  - intros k nd Hk. destruct (Hlook k nd Hk) as [Hlt ->]. simpl.
    split; apply Nat.mod_upper_bound; lia.
  - intros k nd Hk. destruct (Hlook k nd Hk) as [Hlt ->]. simpl.
    destruct k as [|k].
    + right. apply Nat.mod_small. lia.
    + left. replace (S k + n - 1) with (k + 1 * n) by lia.
      rewrite Nat.Div0.mod_add, Nat.mod_small; lia.
  - intros k nd _ Hk. lia.
  - intros k nd Hk _ Hkn. destruct (Hlook k nd Hk) as [Hlt ->]. simpl.
    rewrite Nat.mod_small; lia.
  - intros Hn nd Hk. destruct (Hlook _ nd Hk) as [Hlt ->]. simpl.
    replace (n - 1 + 1) with n by lia. rewrite Nat.Div0.mod_same. lia.
  - intros q j. by rewrite pm_At_Clear.
Qed.

Lemma forLoop_seq_inv {S : Type} (body : S -> nat -> option S)
    (P : nat -> S -> Prop) (len : nat) :
  forall a s,
    (forall i s0, a <= i < a + len -> P i s0 ->
       exists s', body s0 i = Some s' /\ P (Datatypes.S i) s') ->
    P a s ->
    exists s', forLoop body (seq a len) s = Some s' /\ P (a + len) s'.
Proof.
  induction len as [|len IH]; intros a s Hbody Hs; simpl.
  - exists s. by rewrite Nat.add_0_r.
  - destruct (Hbody a s ltac:(lia) Hs) as (s1 & Hs1 & HP1).
    rewrite Hs1. simpl.
    destruct (IH (Datatypes.S a) s1) as (s' & Hs' & HP'); [|done|].
    + intros i s0 Hi. apply Hbody. lia.
    + exists s'. split; [done|]. by replace (a + Datatypes.S len) with (Datatypes.S a + len) by lia.
Qed.

Lemma reconState_inv (inp : Polyline2D num) (k : nat) :
  k <= length inp ->
  exists st, reconState inp k = Some st /\ ReconInv (length inp) k st.
Proof.
  intros Hk.
  apply (forLoop_seq_inv (reconStep inp) (ReconInv (length inp)) k 0).
  - intros i s0 Hi Hinv. apply reconStep_inv; [lia | done].
  - apply ReconInv_init.
Qed.

Lemma reconState_S (inp : Polyline2D num) (k : nat) :
  reconState inp (S k) = st ← reconState inp k; reconStep inp st k.
Proof.
  unfold reconState. rewrite seq_S, forLoop_app. simpl.
  destruct (forLoop _ _ _) as [st|]; [|done]. simpl.
  by destruct (reconStep inp st k).
Qed.

(** The walk that collects the outer ring ends. *)
Lemma walkRing_final (inp : Polyline2D num) (st : ReconState) :
  1 <= length inp ->
  ReconInv (length inp) (length inp) st ->
  exists poly index,
    walkRing (length inp) inp (rs_nodeList st) (length inp - 1)
      (length inp - 1) [] = Some (poly, index)
    /\ index < length inp.
Proof.
  intros Hn (Hlen & Hrange & Hprev & Hdone & Htodo & Hlast & Hmap).
  set (n := length inp) in *. set (nl := rs_nodeList st) in *.
  assert (Hclimb : forall fuel index acc,
            index < n - 1 -> n - 1 - index <= fuel ->
            exists poly idx,
              walkRing fuel inp nl (n - 1) index acc = Some (poly, idx)
              /\ idx < n).
  { induction fuel as [|fuel IH]; intros index acc Hidx Hfuel; [lia|].
    destruct (lookup_lt_is_Some_2 nl index ltac:(lia)) as [nd Hnd].
    destruct (lookup_lt_is_Some_2 inp index ltac:(fold n; lia)) as [p Hp].
    pose proof (Hdone index nd Hnd ltac:(lia) Hidx) as Hup.
    destruct (Hrange index nd Hnd) as [_ Hnext].
    cbn [walkRing]. rewrite Hnd. simpl.
    destruct (decide (n - 1 = next nd)) as [Heq|Hne].
    - exists acc, index. split; [done | lia].
    - rewrite Hp. simpl. apply IH; lia. }
  destruct (lookup_lt_is_Some_2 nl (n - 1) ltac:(lia)) as [ndl Hndl].
  destruct (lookup_lt_is_Some_2 inp (n - 1) ltac:(fold n; lia)) as [pl Hpl].
  destruct (Hrange _ _ Hndl) as [_ Hnext].
  destruct n as [|n'] eqn:En; [lia|].
  replace (S n' - 1) with n' in * by lia.
  cbn [walkRing]. rewrite Hndl. simpl.
  destruct (decide (n' = next ndl)) as [Heq|Hne].
  - exists [], n'. split; [done | lia].
  - rewrite Hpl. simpl. apply Hclimb.
    + destruct (decide (2 <= S n')) as [H2|H2]; [|lia].
      pose proof (Hlast H2 ndl Hndl). lia.
    + lia.
Qed.

Lemma dropClosingPoint_Some (inp0 : Polyline2D num) :
  2 <= length inp0 ->
  exists inp, dropClosingPoint inp0 = Some inp /\ 1 <= length inp.
Proof.
  intros Hlen. unfold dropClosingPoint.
  destruct inp0 as [|front inp1] eqn:E; [simpl in Hlen; lia|]. simpl head. simpl.
  destruct (last (front :: inp1)) as [back|] eqn:Hlast;
    [|by apply last_None in Hlast].
  simpl. eexists. split; [done|].
  destruct (Point_eqb front back); [|simpl; lia].
  destruct inp1 as [|second inp2]; simpl in *; lia.
Qed.

(** The reconstructor returns a record on every polyline of two points or
    more, tagged with the property it was given. *)
Lemma makePolygonData_total (inp0 : Polyline2D num) (prop : property_type) :
  2 <= length inp0 ->
  exists pd, makePolygonData inp0 prop = Some pd /\ property pd = prop.
Proof.
  intros Hlen.
  destruct (dropClosingPoint_Some inp0 Hlen) as (inp & Hdrop & Hn).
  destruct (reconState_inv inp (length inp) ltac:(lia)) as (st & Hloop & Hinv).
  destruct (walkRing_final inp st Hn Hinv) as (poly & index & Hwalk & Hidx).
  destruct (lookup_lt_is_Some_2 inp index Hidx) as [p Hp].
  unfold makePolygonData. rewrite Hdrop. simpl. rewrite Hloop. simpl.
  rewrite decide_False by lia. rewrite Hwalk. simpl. rewrite Hp. simpl.
  by eexists.
Qed.

(** What one iteration does to the holes and to the map. *)
Lemma reconStep_effect (inp : Polyline2D num) (st st' : ReconState) (i : nat) :
  reconStep inp st i = Some st' ->
  exists p,
    inp !! i = Some p
    /\ rs_ptMap st' = pm_Insert p i (rs_ptMap st)
    /\ ((pm_Count p (rs_ptMap st) = false
         /\ rs_holes st' = rs_holes st /\ rs_nodeList st' = rs_nodeList st)
        \/ (pm_Count p (rs_ptMap st) = true
            /\ exists prev0 polygon,
                 pm_At p (rs_ptMap st) = Some prev0
                 /\ candidateRing inp (rs_nodeList st) prev0 i = Some polygon
                 /\ rs_holes st'
                    = if keepHole (Extent polygon)
                      then rs_holes st ++ [polygon] else rs_holes st)).
Proof.
  unfold reconStep. destruct (inp !! i) as [p|] eqn:Hp; [|done]. simpl.
  destruct (pm_Count p (rs_ptMap st)) eqn:Hcount.
  - destruct (spliceAt inp i st) as [st1|] eqn:Hsplice; [|done]. simpl.
    intros [= <-]. exists p. simpl. split; [done|].
    unfold spliceAt in Hsplice. rewrite Hp in Hsplice. simpl in Hsplice.
    destruct (pm_At p (rs_ptMap st)) as [prev0|] eqn:Hat; [|done].
    simpl in Hsplice.
    destruct (rs_nodeList st !! i) as [ndc|]; [|done]. simpl in Hsplice.
    destruct (set_next i prev0 (rs_nodeList st)) as [nl1|]; [|done].
    simpl in Hsplice.
    destruct (candidateRing inp (rs_nodeList st) prev0 i) as [polygon|] eqn:Hcand;
      [|done].
    simpl in Hsplice.
    destruct (nl1 !! prev0) as [ndp|]; [|done]. simpl in Hsplice.
    destruct (set_next (prev ndp) i nl1) as [nl2|]; [|done]. simpl in Hsplice.
    destruct (set_prev i (prev ndp) nl2) as [nl3|]; [|done]. simpl in Hsplice.
    destruct (set_next i (next ndc) nl3) as [nl4|]; [|done]. simpl in Hsplice.
    injection Hsplice as <-. simpl. split; [done|]. right. split; [done|].
    by exists prev0, polygon.
  - simpl. intros [= <-]. exists p. simpl. split; [done|]. split; [done|].
    by left.
Qed.

(** No hole of the record fails the degeneracy test. *)
Lemma reconState_holes_kept (inp : Polyline2D num) (k : nat) :
  forall st, reconState inp k = Some st ->
    Forall (fun h => keepHole (Extent h) = true) (rs_holes st).
Proof.
  induction k as [|k IH]; intros st Hst.
  - injection Hst as <-. constructor.
  - rewrite reconState_S in Hst.
    destruct (reconState inp k) as [st0|] eqn:Hst0; [|done]. simpl in Hst.
    specialize (IH st0 eq_refl).
    destruct (reconStep_effect inp st0 st k Hst) as (p & _ & _ & Hcase).
    destruct Hcase as [(_ & -> & _) | (_ & prev0 & polygon & _ & _ & ->)];
      [done|].
    destruct (keepHole (Extent polygon)) eqn:Hkeep; [|done].
    apply Forall_app. split; [done|]. by constructor.
Qed.

Lemma makePolygonData_holes_kept (inp0 : Polyline2D num) (prop : property_type)
    (pd : PolygonWithProp property_type num) :
  makePolygonData inp0 prop = Some pd ->
  Forall (fun h => keepHole (Extent h) = true) (holes pd).
Proof.
  unfold makePolygonData.
  destruct (dropClosingPoint inp0) as [inp|]; [|done]. simpl.
  destruct (reconState inp (length inp)) as [st|] eqn:Hst; [|done]. simpl.
  destruct (decide (length inp = 0)); [done|].
  destruct (walkRing _ _ _ _ _ _) as [r|]; [|done]. simpl.
  destruct (inp !! r.2); [|done]. simpl. intros [= <-]. simpl.
  by eapply reconState_holes_kept.
Qed.
End Reconstruction.

(** ** The integral point-index map is lawful *)

Lemma Point_eqb_integral (feps : Q) (p q : Point2D Z) :
  Point_eqb (NT := integral feps) p q = bool_decide (p = q).
Proof.
  destruct p as [px py], q as [qx qy]. unfold Point_eqb. simpl.
  destruct (Z.eqb_spec px qx) as [->|Hx], (Z.eqb_spec py qy) as [->|Hy]; simpl;
    symmetry; (apply bool_decide_eq_true_2 || apply bool_decide_eq_false_2);
    congruence.
Qed.

Lemma umap_insert_lookup {K V : Type} `{Countable K} (k q : K) (v : V)
    (m : gmap K V) :
  umap_insert k v m !! q
  = match m !! k with
    | Some _ => m !! q
    | None => if decide (k = q) then Some v else m !! q
    end.
Proof.
  unfold umap_insert. destruct (m !! k) eqn:Hk; [done|].
  destruct (decide (k = q)) as [->|Hne].
  - apply lookup_insert_eq.
  - by apply lookup_insert_ne.
Qed.

Lemma IntegralPointIndexMap_lawful (feps : Q) :
  @Point2DIndexMapLaws Z (integral feps) IntegralPointIndexMap.
Proof.
  constructor; simpl.
  - intros p m Hc. by apply bool_decide_eq_true_1 in Hc.
  - intros p. apply lookup_empty.
  - intros p i m q j. rewrite umap_insert_lookup.
    repeat case_match; naive_solver.
  - intros p. apply bool_decide_eq_false_2. rewrite lookup_empty.
    by intros [? ?].
  - intros p i m q. rewrite Point_eqb_integral, umap_insert_lookup.
    repeat case_match; subst;
      repeat match goal with
             | |- context [bool_decide ?P] =>
                 destruct (bool_decide_reflect P)
             end; simpl; try done; naive_solver.
  - intros p i m q Hc Heq. rewrite Point_eqb_integral in Heq.
    apply bool_decide_eq_true_1 in Heq as ->.
    apply bool_decide_eq_false_1 in Hc.
    rewrite umap_insert_lookup.
    repeat case_match; naive_solver.
Qed.

(** ** The results of the single-level merge *)

Section MergeResults.
Context {property_type num : Type} `{Countable property_type}
        {NT : NumType num} {PM : Point2DIndexMap num}
        {PML : Point2DIndexMapLaws num}.

(** One record per polyline, tagged with the property. *)
Lemma emit_records (prop : property_type) (outs : list (Polyline2D num)) :
  Forall (fun out => 2 <= length out) outs ->
  exists pds : list (PolygonWithProp property_type num),
    mapM (fun out => makePolygonData out prop) outs = Some pds
    /\ length pds = length outs
    /\ Forall (fun pd => property pd = prop) pds
    /\ Forall2 (fun out pd => makePolygonData out prop = Some pd) outs pds.
Proof.
  induction 1 as [|out outs Hout _ (pds & Hpds & Hlen & Hprop & Hall)].
  - exists []. repeat split; constructor.
  - destruct (makePolygonData_total out prop Hout) as (pd & Hpd & Hp).
    exists (pd :: pds). simpl. rewrite Hpd. simpl. rewrite Hpds. simpl.
    repeat split; [by rewrite Hlen | by constructor | by constructor].
Qed.

Lemma redirectProperties_lookup (prop : property_type)
    (others : list property_type) :
  forall (m : gmap property_type property_type) (k : property_type),
    redirectProperties prop others m !! k
    = match m !! k with
      | Some v => Some v
      | None => if bool_decide (k ∈ others) then Some prop else None
      end.
Proof.
  unfold redirectProperties.
  induction others as [|pi others IH]; intros m k; simpl.
  - by destruct (m !! k).
  - rewrite IH, umap_insert_lookup.
    destruct (m !! pi) eqn:Hpi.
    + destruct (m !! k) eqn:Hk; [done|].
      assert (k <> pi) by congruence.
      destruct (bool_decide_reflect (k ∈ others)) as [Hin|Hnin].
      * rewrite bool_decide_eq_true_2; [done | by right].
      * rewrite bool_decide_eq_false_2; [done|].
        by intros [?|?]%elem_of_cons.
    + destruct (decide (pi = k)) as [->|Hne].
      * rewrite Hpi. rewrite bool_decide_eq_true_2; [done | by left].
      * destruct (m !! k) eqn:Hk; [done|].
        destruct (bool_decide_reflect (k ∈ others)) as [Hin|Hnin].
        -- rewrite bool_decide_eq_true_2; [done | by right].
        -- rewrite bool_decide_eq_false_2; [done|].
           intros [?|?]%elem_of_cons; congruence.
Qed.

(** C1 (amended).  For a merge result whose property set has more than one
    member, with [checkPropertyDiff] off: the first property [p0] of the set
    is chosen; every other property of the set that has no entry in the
    property map yet gets the entry [pi -> p0], an entry that exists is kept
    as it is, and no other entry changes; and one record per closed polyline
    of the result is emitted, tagged with [p0].  For two overlapping squares
    with the properties 1 and 2 and an empty map, the overlap is emitted with
    property 1 next to the two remainders, which keep their properties, and
    the map then holds [2 -> 1]. *)
Theorem canonical_property (polygons : list (PolygonWithProp property_type num))
    (st : PolygonMerger) (properties : list property_type)
    (outs : list (Polyline2D num)) (p0 : property_type) :
  checkPropertyDiff (m_mergeSettings st) = false ->
  1 < length properties ->
  head properties = Some p0 ->
  Forall (fun out => 2 <= length out) outs ->
  exists pds,
    processResult (polygons, st) (properties, outs)
    = Some (polygons ++ pds,
            with_propertyMap
              (redirectProperties p0 (tail properties) (m_propertyMap st)) st)
    /\ length pds = length outs
    /\ Forall (fun pd => property pd = p0) pds
    /\ Forall2 (fun out pd => makePolygonData out p0 = Some pd) outs pds
    /\ (forall pi, pi ∈ tail properties ->
          redirectProperties p0 (tail properties) (m_propertyMap st) !! pi
          = Some (default p0 (m_propertyMap st !! pi)))
    /\ (forall k, k ∉ tail properties ->
          redirectProperties p0 (tail properties) (m_propertyMap st) !! k
          = m_propertyMap st !! k)
    /\ (forall property_merge,
          property_merge
            (mergerInputs ∅ [Examples.squareA; Examples.squareB])
          = Examples.twoSquaresRegions ->
          exists r,
            MergePolygons (NT := Examples.NTZ) (PM := IntegralPointIndexMap)
              property_merge (Examples.emptyMerger defaultMergeSettings)
              [Examples.squareA; Examples.squareB] = Some r
            /\ map property r.1 = [1; 1; 2]
            /\ m_propertyMap r.2 = {[ 2 := 1 ]}
            /\ m_propDiffAreas r.2 = []).
Proof.
  intros Hcheck Hlen Hhead Houts.
  destruct (emit_records p0 outs Houts) as (pds & Hpds & Hl & Hp & Hall).
  exists pds. split; [|split; [|split; [|split; [|split; [|split]]]]];
    try done.
  - unfold processResult. rewrite Hhead. simpl.
    rewrite bool_decide_eq_true_2 by done. rewrite Hcheck. by rewrite Hpds.
  - intros pi Hpi. rewrite redirectProperties_lookup.
    destruct (m_propertyMap st !! pi); [done|].
    by rewrite bool_decide_eq_true_2.
  - intros k Hk. rewrite redirectProperties_lookup.
    destruct (m_propertyMap st !! k); [done|].
    by rewrite bool_decide_eq_false_2.
  - intros property_merge Hregions. unfold MergePolygons.
    rewrite bool_decide_eq_false_2 by (simpl; lia).
    change (m_propertyMap (Examples.emptyMerger defaultMergeSettings))
      with (∅ : gmap nat nat).
    rewrite Hregions. eexists. split; [vm_compute; reflexivity|].
    split; [reflexivity|]. split; [|reflexivity].
    apply map_eq. intros k. vm_compute. reflexivity.
Qed.

(** C2.  With [checkPropertyDiff] on, a merge result whose property set has
    more than one member is appended, with its polylines, to the conflict
    records and no record is emitted for it; a result with a single property
    is emitted as one record per polyline.  For two overlapping squares with
    the properties 1 and 2 the output is the two remainders with their
    properties, and one conflict record for [{1,2}] with the outline of the
    overlap. *)
Theorem conflict_recorded (polygons : list (PolygonWithProp property_type num))
    (st : PolygonMerger) (properties : list property_type)
    (outs : list (Polyline2D num)) :
  checkPropertyDiff (m_mergeSettings st) = true ->
  (1 < length properties ->
     processResult (polygons, st) (properties, outs)
     = Some (polygons,
             with_propDiffAreas (m_propDiffAreas st ++ [(properties, outs)]) st))
  /\ (forall p, properties = [p] ->
        Forall (fun out => 2 <= length out) outs ->
        exists pds,
          processResult (polygons, st) (properties, outs)
          = Some (polygons ++ pds, st)
          /\ length pds = length outs
          /\ Forall (fun pd => property pd = p) pds
          /\ Forall2 (fun out pd => makePolygonData out p = Some pd) outs pds)
  /\ (forall property_merge,
        property_merge
          (mergerInputs ∅ [Examples.squareA; Examples.squareB])
        = Examples.twoSquaresRegions ->
        exists r,
          MergePolygons (NT := Examples.NTZ) (PM := IntegralPointIndexMap)
            property_merge (Examples.emptyMerger Examples.diffSettings)
            [Examples.squareA; Examples.squareB] = Some r
          /\ map property r.1 = [1; 2]
          /\ map solid r.1
             = [[(0, 2); (0, 0); (2, 0); (2, 1); (1, 1); (1, 2)];
                [(2, 2); (2, 1); (3, 1); (3, 3); (1, 3); (1, 2)]]%Z
          /\ m_propDiffAreas r.2 = [([1; 2], [Examples.overlapAB])]
          /\ m_propertyMap r.2 = ∅).
Proof.
  intros Hcheck. split; [|split].
  - intros Hlen.
    assert (exists p0, head properties = Some p0) as [p0 Hhead].
    { destruct properties; [simpl in Hlen; lia | by eexists]. }
    unfold processResult. rewrite Hhead. simpl.
    rewrite bool_decide_eq_true_2 by done. rewrite Hcheck. simpl.
    by rewrite app_nil_r.
  - intros p -> Houts.
    destruct (emit_records p outs Houts) as (pds & Hpds & Hl & Hp & Hall).
    exists pds. split; [|done].
    unfold processResult. simpl. by rewrite Hpds.
  - intros property_merge Hregions. unfold MergePolygons.
    rewrite bool_decide_eq_false_2 by (simpl; lia).
    change (m_propertyMap (Examples.emptyMerger Examples.diffSettings))
      with (∅ : gmap nat nat).
    rewrite Hregions. eexists. split; [vm_compute; reflexivity|].
    repeat split.
Qed.
End MergeResults.

Lemma canonical_property_witness :
  exists pds,
    processResult (NT := Examples.NTZ) (PM := IntegralPointIndexMap)
      ([], Examples.emptyMerger defaultMergeSettings)
      ([1; 2], [Examples.overlapAB])
    = Some ([] ++ pds,
            with_propertyMap (redirectProperties 1 [2] ∅)
              (Examples.emptyMerger defaultMergeSettings))
    /\ length pds = 1
    /\ Forall (fun pd => property pd = 1) pds.
Proof.
  destruct (canonical_property (NT := Examples.NTZ) (PM := IntegralPointIndexMap)
              (PML := IntegralPointIndexMap_lawful double_epsilon)
              [] (Examples.emptyMerger defaultMergeSettings) [1; 2]
              [Examples.overlapAB] 1)
    as (pds & Hrun & Hlen & Hprop & _).
  - reflexivity.
  - simpl. lia.
  - reflexivity.
  - repeat constructor.
  - exists pds. split; [exact Hrun|]. split; [exact Hlen | exact Hprop].
Defined.

(** C1 as stated fails.  Of three rectangles in a row, the one across the
    gap overlaps both others; the result for [{1,3}] redirects [3] to [1],
    and the result for [{2,3}], whose first property is [2], leaves that
    entry as it is: the map holds [3 -> 1], not [3 -> 2].  And two
    overlapping squares come out as three records, not one. *)
Lemma redirect_keeps_existing_entry :
  (exists r,
     MergePolygons (NT := Examples.NTZ) (PM := IntegralPointIndexMap)
       Examples.threeRectsMerge (Examples.emptyMerger defaultMergeSettings)
       [Examples.rectLeft; Examples.rectRight; Examples.rectAcross] = Some r
     /\ In ([2; 3], [Examples.strip 4 5]) Examples.threeRectsRegions
     /\ m_propertyMap r.2 !! 3 = Some 1
     /\ m_propertyMap r.2 !! 3 <> Some 2)
  /\ (exists r,
        MergePolygons (NT := Examples.NTZ) (PM := IntegralPointIndexMap)
          (fun _ => Examples.twoSquaresRegions)
          (Examples.emptyMerger defaultMergeSettings)
          [Examples.squareA; Examples.squareB] = Some r
        /\ length r.1 = 3).
Proof.
  split.
  - eexists. split; [vm_compute; reflexivity|].
    split; [simpl; tauto|]. split; [reflexivity | discriminate].
  - eexists. split; [vm_compute; reflexivity | reflexivity].
Qed.

Lemma conflict_recorded_witness :
  processResult (NT := Examples.NTZ) (PM := IntegralPointIndexMap)
    ([], Examples.emptyMerger Examples.diffSettings)
    ([1; 2], [Examples.overlapAB])
  = Some ([], with_propDiffAreas ([] ++ [([1; 2], [Examples.overlapAB])])
                (Examples.emptyMerger Examples.diffSettings)).
Proof.
  destruct (conflict_recorded (NT := Examples.NTZ) (PM := IntegralPointIndexMap)
              (PML := IntegralPointIndexMap_lawful double_epsilon)
              [] (Examples.emptyMerger Examples.diffSettings) [1; 2]
              [Examples.overlapAB] eq_refl) as (Hrec & _ & _).
  apply Hrec. simpl. lia.
Defined.

(** ** Candidate holes *)

Section CandidateHoles.
Context {property_type num : Type} {NT : NumType num}
        {PM : Point2DIndexMap num} {PML : Point2DIndexMapLaws num}.

(** A point counts in the map only when an equal point came before. *)
Lemma reconState_seen (inp : Polyline2D num) (k : nat) :
  forall st, reconState inp k = Some st ->
    forall q, pm_Count q (rs_ptMap st) = true ->
      exists j r, j < k /\ inp !! j = Some r /\ Point_eqb r q = true.
Proof.
  induction k as [|k IH]; intros st Hst q Hq.
  - injection Hst as <-. simpl in Hq. by rewrite pm_Count_Clear in Hq.
  - rewrite reconState_S in Hst.
    destruct (reconState inp k) as [st0|] eqn:Hst0; [|done]. simpl in Hst.
    destruct (reconStep_effect inp st0 st k Hst) as (p & Hp & Hmap & _).
    rewrite Hmap, pm_Count_Insert in Hq.
    apply orb_true_iff in Hq as [Heq|Hold].
    + exists k, p. split; [lia | done].
    + destruct (IH st0 eq_refl q Hold) as (j & r & Hj & Hr & Heq).
      exists j, r. split; [lia | done].
Qed.

(** Two equal points in a row, the first of which is new: the ring spliced
    out at the second is the first point alone. *)
Lemma duplicate_ring (inp : Polyline2D num) (i : nat) (p : Point2D num) :
  S i < length inp ->
  inp !! i = Some p -> inp !! S i = Some p ->
  Point_eqb p p = true ->
  (forall j q, j < i -> inp !! j = Some q -> Point_eqb q p = false) ->
  exists st1 st2,
    reconState inp (S i) = Some st1
    /\ pm_Count p (rs_ptMap st1) = true
    /\ pm_At p (rs_ptMap st1) = Some i
    /\ candidateRing inp (rs_nodeList st1) i (S i) = Some [p]
    /\ reconStep inp st1 (S i) = Some st2
    /\ rs_holes st2
       = if keepHole (Extent [p]) then rs_holes st1 ++ [[p]] else rs_holes st1.
Proof.
  intros Hlen Hi HSi Hrefl Hnew.
  destruct (reconState_inv inp i ltac:(lia)) as (st0 & Hst0 & Hinv0).
  assert (Hcount0 : pm_Count p (rs_ptMap st0) = false).
  { destruct (pm_Count p (rs_ptMap st0)) eqn:E; [|done].
    destruct (reconState_seen inp i st0 Hst0 p E) as (j & q & Hj & Hq & Heq).
    by rewrite (Hnew j q Hj Hq) in Heq. }
  destruct (reconStep_inv inp i st0 ltac:(lia) Hinv0) as (st1 & Hstep0 & Hinv1).
  destruct (reconStep_effect inp st0 st1 i Hstep0) as (p' & Hp' & Hmap1 & Hcase).
  rewrite Hi in Hp'. injection Hp' as <-.
  destruct Hcase as [(_ & Hholes1 & Hnl1) | (Hc & _)]; [|congruence].
  assert (Hst1 : reconState inp (S i) = Some st1)
    by (rewrite reconState_S, Hst0; exact Hstep0).
  assert (Hcount1 : pm_Count p (rs_ptMap st1) = true)
    by (by rewrite Hmap1, pm_Count_Insert, Hrefl).
  assert (Hat1 : pm_At p (rs_ptMap st1) = Some i)
    by (rewrite Hmap1; by apply pm_At_Insert_fresh).
  (* the walk from [i] stops at [S i] *)
  destruct Hinv0 as (Hlen0 & _ & _ & _ & Htodo & _ & _).
  destruct (lookup_lt_is_Some_2 (rs_nodeList st0) i ltac:(lia)) as [ndi Hndi].
  destruct (lookup_lt_is_Some_2 (rs_nodeList st0) (S i) ltac:(lia)) as [ndc Hndc].
  pose proof (Htodo i ndi Hndi ltac:(lia) ltac:(lia)) as Hnext.
  assert (Hcand : candidateRing inp (rs_nodeList st1) i (S i) = Some [p]).
  { unfold candidateRing. rewrite Hnl1, (set_next_Some _ _ _ _ Hndc). simpl.
    destruct (length inp) as [|fuel] eqn:Efuel; [lia|].
    cbn [walkRing]. rewrite list_lookup_insert_ne by lia. rewrite Hndi. simpl.
    rewrite decide_False by lia. rewrite Hi. simpl. rewrite Hnext.
    assert (Hstop : <[S i := mkPtNode (prev ndc) i]> (rs_nodeList st0) !! S i
                    = Some (mkPtNode (prev ndc) i))
      by (apply list_lookup_insert_eq; lia).
    destruct fuel; cbn [walkRing]; rewrite Hstop; simpl;
      by rewrite decide_True. }
  destruct (reconStep_inv inp (S i) st1 Hlen Hinv1) as (st2 & Hstep1 & _).
  destruct (reconStep_effect inp st1 st2 (S i) Hstep1) as (p' & Hp' & _ & Hcase).
  rewrite HSi in Hp'. injection Hp' as <-.
  destruct Hcase as [(Hc & _) | (_ & prev0 & polygon & Hat & Hring & Hholes)];
    [congruence|].
  rewrite Hat1 in Hat. injection Hat as <-.
  rewrite Hcand in Hring. injection Hring as <-.
  by exists st1, st2.
Qed.
End CandidateHoles.

Lemma Extent_single {num : Type} {NT : NumType num} (p : Point2D num) :
  Extent [p] = Some (p, p).
Proof. done. Qed.

Lemma keepHole_integral (feps : Q) (bbox : Box2D Z) :
  keepHole (NT := integral feps) bbox = false
  <-> (Length (NT := integral feps) bbox <= 1
       \/ Width (NT := integral feps) bbox <= 1)%Z.
Proof.
  unfold keepHole. simpl.
  rewrite andb_false_iff, !Z.ltb_ge. tauto.
Qed.

Lemma keepHole_floating (eps : Q) (bbox : Box2D Q) :
  (0 <= eps)%Q ->
  (keepHole (NT := floating eps) bbox = false
   <-> math.LE (NT := floating eps) (Area (NT := floating eps) bbox) 0%Q = true)
  /\ (keepHole (NT := floating eps) bbox = false
      <-> (Area (NT := floating eps) bbox <= eps)%Q).
Proof.
  intros Heps. set (a := Area (NT := floating eps) bbox).
  assert (Hkeep : keepHole (NT := floating eps) bbox = false <-> (a <= eps)%Q).
  { change (keepHole (NT := floating eps) bbox) with (Qlt_bool eps (a - 0)).
    rewrite Qlt_bool_false_iff. split; intros Ha; lra. }
  split; [|exact Hkeep]. rewrite Hkeep.
  change (math.LE (NT := floating eps) a 0%Q)
    with (Qlt_bool a 0 || negb (Qlt_bool eps (Qabs (a - 0)))).
  rewrite orb_true_iff, Qlt_bool_iff, negb_true_iff, Qlt_bool_false_iff.
  split.
  - intros Ha. destruct (Qlt_le_dec a 0) as [Hneg|Hpos]; [by left|].
    right. apply Qabs_case; intros; lra.
  - intros [Hneg|Habs]; [lra|].
    revert Habs. apply Qabs_case; intros; lra.
Qed.

Lemma keepHole_single_integral (feps : Q) (p : Point2D Z) :
  keepHole (NT := integral feps) (Extent (NT := integral feps) [p]) = false.
Proof. apply keepHole_integral. left. simpl. lia. Qed.

Lemma keepHole_single_floating (eps : Q) (p : Point2D Q) :
  (0 <= eps)%Q ->
  keepHole (NT := floating eps) (Extent (NT := floating eps) [p]) = false.
Proof.
  intros Heps. apply (keepHole_floating eps _ Heps).
  change (Area (NT := floating eps) (Extent (NT := floating eps) [p]))
    with ((p.1 - p.1) * (p.2 - p.2))%Q.
  lra.
Qed.

Lemma Point_eqb_floating_refl (eps : Q) (p : Point2D Q) :
  Point_eqb (NT := floating eps) p p = true.
Proof.
  unfold Point_eqb. simpl. apply andb_true_iff.
  split; apply Qeq_bool_iff; reflexivity.
Qed.

(** C3 (amended).  In [makePolygonData] every iteration of the walk is
    defined (for a lawful point-index map), and the ring spliced out at a
    self-touch is appended to the holes of the record exactly when its
    bounding box passes the degeneracy test and dropped otherwise, so that no
    hole of the record fails the test; the ring is dropped exactly when, for integral coordinates, the box has
    [Length <= 1] or [Width <= 1] and, for floating coordinates, its area is
    [<= 0] under the tolerance.  The ring of two equal points in a row is the
    first point alone and is dropped, provided the point does not occur
    earlier in the polyline. *)
Theorem hole_candidates :
  (forall (num : Type) (NT : NumType num) (PM : Point2DIndexMap num)
          (inp : Polyline2D num) (st st' : ReconState) (i : nat) (p : Point2D num),
     inp !! i = Some p ->
     pm_Count p (rs_ptMap st) = true ->
     reconStep inp st i = Some st' ->
     exists prev0 polygon,
       pm_At p (rs_ptMap st) = Some prev0
       /\ candidateRing inp (rs_nodeList st) prev0 i = Some polygon
       /\ rs_holes st'
          = if keepHole (Extent polygon) then rs_holes st ++ [polygon]
            else rs_holes st)
  /\ (forall (num : Type) (NT : NumType num) (PM : Point2DIndexMap num)
             (PML : Point2DIndexMapLaws num) (inp : Polyline2D num) (i : nat),
        i < length inp ->
        exists st st',
          reconState inp i = Some st /\ reconStep inp st i = Some st')
  /\ (forall (property_type num : Type) (NT : NumType num)
             (PM : Point2DIndexMap num) (inp0 : Polyline2D num)
             (prop : property_type) (pd : PolygonWithProp property_type num),
        makePolygonData inp0 prop = Some pd ->
        Forall (fun h => keepHole (Extent h) = true) (holes pd))
  /\ (forall (feps : Q) (bbox : Box2D Z),
        keepHole (NT := integral feps) bbox = false
        <-> (Length (NT := integral feps) bbox <= 1
             \/ Width (NT := integral feps) bbox <= 1)%Z)
  /\ (forall (eps : Q) (bbox : Box2D Q),
        (0 <= eps)%Q ->
        (keepHole (NT := floating eps) bbox = false
         <-> math.LE (NT := floating eps) (Area (NT := floating eps) bbox) 0%Q
             = true))
  /\ (forall (feps : Q) (PM : Point2DIndexMap Z)
             (PML : Point2DIndexMapLaws (NT := integral feps) Z)
             (inp : Polyline2D Z) (i : nat) (p : Point2D Z),
        S i < length inp ->
        inp !! i = Some p -> inp !! S i = Some p ->
        (forall j q, j < i -> inp !! j = Some q -> q <> p) ->
        exists st1 st2,
          reconState (NT := integral feps) inp (S i) = Some st1
          /\ pm_At p (rs_ptMap st1) = Some i
          /\ candidateRing inp (rs_nodeList st1) i (S i) = Some [p]
          /\ reconStep (NT := integral feps) inp st1 (S i) = Some st2
          /\ rs_holes st2 = rs_holes st1)
  /\ (forall (eps : Q) (PM : Point2DIndexMap Q)
             (PML : Point2DIndexMapLaws (NT := floating eps) Q)
             (inp : Polyline2D Q) (i : nat) (p : Point2D Q),
        (0 <= eps)%Q ->
        S i < length inp ->
        inp !! i = Some p -> inp !! S i = Some p ->
        (forall j q, j < i -> inp !! j = Some q ->
           Point_eqb (NT := floating eps) q p = false) ->
        exists st1 st2,
          reconState (NT := floating eps) inp (S i) = Some st1
          /\ pm_At p (rs_ptMap st1) = Some i
          /\ candidateRing inp (rs_nodeList st1) i (S i) = Some [p]
          /\ reconStep (NT := floating eps) inp st1 (S i) = Some st2
          /\ rs_holes st2 = rs_holes st1).
Proof.
  split; [|split; [|split; [|split; [|split; [|split]]]]].
  - intros num NT PM inp st st' i p Hp Hcount Hstep.
    destruct (reconStep_effect inp st st' i Hstep) as (p' & Hp' & _ & Hcase).
    rewrite Hp in Hp'. injection Hp' as <-.
    destruct Hcase as [(Hc & _) | (_ & Hsplice)]; [congruence | exact Hsplice].
  - intros num NT PM PML inp i Hi.
    destruct (reconState_inv inp i ltac:(lia)) as (st & Hst & Hinv).
    destruct (reconStep_inv inp i st Hi Hinv) as (st' & Hstep & _).
    by exists st, st'.
  - intros property_type num NT PM inp0 prop pd.
    apply makePolygonData_holes_kept.
  - apply keepHole_integral.
  - intros eps bbox Heps. apply (keepHole_floating eps bbox Heps).
  - intros feps PM PML inp i p Hlen Hi HSi Hnew.
    destruct (duplicate_ring (NT := integral feps) inp i p Hlen Hi HSi)
      as (st1 & st2 & Hst1 & _ & Hat & Hring & Hstep & Hholes).
    + rewrite Point_eqb_integral. by apply bool_decide_eq_true_2.
    + intros j q Hj Hq. rewrite Point_eqb_integral.
      apply bool_decide_eq_false_2. by eapply Hnew.
    + exists st1, st2. rewrite keepHole_single_integral in Hholes. done.
  - intros eps PM PML inp i p Heps Hlen Hi HSi Hnew.
    destruct (duplicate_ring (NT := floating eps) inp i p Hlen Hi HSi)
      as (st1 & st2 & Hst1 & _ & Hat & Hring & Hstep & Hholes).
    + apply Point_eqb_floating_refl.
    + exact Hnew.
    + exists st1, st2. rewrite keepHole_single_floating in Hholes by done. done.
Qed.

Lemma hole_candidates_witness :
  exists st1 st2,
    reconState (NT := Examples.NTZ) (PM := IntegralPointIndexMap)
      Examples.doubledPoint 2 = Some st1
    /\ pm_At (Point2DIndexMap := IntegralPointIndexMap) (0, 0)%Z (rs_ptMap st1)
       = Some 1
    /\ candidateRing Examples.doubledPoint (rs_nodeList st1) 1 2
       = Some [(0, 0)%Z]
    /\ reconStep (NT := Examples.NTZ) Examples.doubledPoint st1 2 = Some st2
    /\ rs_holes st2 = rs_holes st1.
Proof.
  destruct hole_candidates as (_ & _ & _ & _ & _ & Hdup & _).
  apply (Hdup double_epsilon IntegralPointIndexMap
           (IntegralPointIndexMap_lawful double_epsilon)
           Examples.doubledPoint 1 (0, 0)%Z).
  - simpl. lia.
  - reflexivity.
  - reflexivity.
  - intros [|j] q Hj Hq; [|lia]. injection Hq as <-. discriminate.
Defined.

(** C3 as stated fails in its last part.  In [q, p, a, b, p, p, c] the point
    [p] is there twice in a row, at the indices 4 and 5, after a first visit
    at index 1; the map keeps the first index of [p], so the ring spliced out
    at index 5 runs from index 1 and is appended to the holes. *)
Lemma duplicate_point_ring_accepted :
  Examples.pinchedTwice !! 4 = Examples.pinchedTwice !! 5
  /\ rs_holes <$> reconState (NT := Examples.NTZ) (PM := IntegralPointIndexMap)
                    Examples.pinchedTwice 5
     = Some [[(0, 0); (5, 0); (5, 5)]]%Z
  /\ rs_holes <$> reconState (NT := Examples.NTZ) (PM := IntegralPointIndexMap)
                    Examples.pinchedTwice 6
     = Some [[(0, 0); (5, 0); (5, 5)]; [(0, 0); (5, 0); (5, 5); (0, 0)]]%Z
  /\ holes <$> makePolygonData (NT := Examples.NTZ) (PM := IntegralPointIndexMap)
                 Examples.pinchedTwice 1
     = Some [[(0, 0); (5, 0); (5, 5)]; [(0, 0); (5, 0); (5, 5); (0, 0)]]%Z.
Proof. repeat split; vm_compute; reflexivity. Qed.

(** * Further properties of the code *)

(** ** Walks over the node list *)

Section Walks.
Context {num : Type}.
Implicit Types (inp : Polyline2D num) (nl : list PtNode).

Lemma walkRing_stop inp nl start index acc fuel nd :
  nl !! index = Some nd -> next nd = start ->
  walkRing fuel inp nl start index acc = Some (acc, index).
Proof.
  intros Hnd Hnext. destruct fuel; simpl; rewrite Hnd; simpl;
    by rewrite decide_True.
Qed.

Lemma walkRing_jump inp nl start index acc fuel nd p :
  nl !! index = Some nd -> next nd <> start -> inp !! index = Some p ->
  walkRing (S fuel) inp nl start index acc
  = walkRing fuel inp nl start (next nd) (acc ++ [p]).
Proof.
  intros Hnd Hnext Hp. cbn [walkRing]. rewrite Hnd. simpl.
  rewrite decide_False by done. by rewrite Hp.
Qed.

(** A run over consecutive nodes that are linked to their right neighbour. *)
Lemma walkRing_run inp nl start : forall len a acc fuel,
  a + len <= length inp ->
  (forall k, a <= k < a + len ->
     exists nd, nl !! k = Some nd /\ next nd = S k /\ S k <> start) ->
  walkRing (len + fuel) inp nl start a acc
  = walkRing fuel inp nl start (a + len) (acc ++ take len (drop a inp)).
Proof.
  induction len as [|len IH]; intros a acc fuel Hlen Hrun.
  - simpl. by rewrite Nat.add_0_r, app_nil_r.
  - destruct (Hrun a ltac:(lia)) as (nd & Hnd & Hnext & Hne).
    destruct (lookup_lt_is_Some_2 inp a ltac:(lia)) as [p Hp].
    change (S len + fuel) with (S (len + fuel)).
    rewrite (walkRing_jump inp nl start a acc _ nd p Hnd ltac:(congruence) Hp).
    rewrite Hnext, IH; [|lia|intros k Hk; apply Hrun; lia].
    replace (S a + len) with (a + S len) by lia. f_equal.
    rewrite <- app_assoc. f_equal.
    rewrite (drop_S inp p a Hp). simpl. done.
Qed.

Lemma walkRing_fuel_mono inp nl start : forall fuel fuel' index acc r,
  walkRing fuel inp nl start index acc = Some r -> fuel <= fuel' ->
  walkRing fuel' inp nl start index acc = Some r.
Proof.
  induction fuel as [|fuel IH]; intros fuel' index acc r Hwalk Hle.
  - simpl in Hwalk. destruct (nl !! index) as [nd|] eqn:Hnd; [|done].
    simpl in Hwalk. destruct (decide (start = next nd)) as [Heq|]; [|done].
    injection Hwalk as <-. by eapply walkRing_stop.
  - destruct fuel' as [|fuel']; [lia|]. cbn [walkRing] in *.
    destruct (nl !! index) as [nd|]; [|done]. simpl in *.
    destruct (decide (start = next nd)); [done|].
    destruct (inp !! index) as [p|]; [|done]. simpl in *.
    eapply IH; [done | lia].
Qed.

(** Every point a walk collects is a point of the polyline. *)
Lemma walkRing_points inp nl start : forall fuel index acc r,
  walkRing fuel inp nl start index acc = Some r ->
  forall p, p ∈ r.1 -> p ∈ acc \/ p ∈ inp.
Proof.
  induction fuel as [|fuel IH]; intros index acc r Hwalk p Hp.
  - simpl in Hwalk. destruct (nl !! index) as [nd|]; [|done]. simpl in Hwalk.
    destruct (decide (start = next nd)); [|done].
    injection Hwalk as <-. by left.
  - cbn [walkRing] in Hwalk. destruct (nl !! index) as [nd|]; [|done].
    simpl in Hwalk. destruct (decide (start = next nd)).
    + injection Hwalk as <-. by left.
    + destruct (inp !! index) as [q|] eqn:Hq; [|done]. simpl in Hwalk.
      destruct (IH _ _ _ Hwalk p Hp) as [Hin|Hin]; [|by right].
      apply elem_of_app in Hin as [Hin|Hin]; [by left|].
      apply list_elem_of_singleton in Hin as ->. right.
      by eapply list_elem_of_lookup_2.
Qed.
End Walks.

(** ** The hole reconstructor: what a record is made of *)

Section ReconstructorPoints.
Context {property_type num : Type} {NT : NumType num}
        {PM : Point2DIndexMap num} {PML : Point2DIndexMapLaws num}.

Lemma dropClosingPoint_sub (inp0 inp : Polyline2D num) :
  dropClosingPoint inp0 = Some inp ->
  length inp <= length inp0 /\ (forall p, p ∈ inp -> p ∈ inp0).
Proof.
  unfold dropClosingPoint.
  destruct (head inp0) as [front|]; [|done]. simpl.
  destruct (last inp0) as [back|]; [|done]. simpl.
  destruct (Point_eqb front back); intros [= <-]; [|done].
  rewrite removelast_firstn_len. split.
  - rewrite length_firstn. lia.
  - intros p Hp. change (firstn ?n ?l) with (take n l) in Hp.
    apply elem_of_take in Hp as (i & Hi & _). by eapply list_elem_of_lookup_2.
Qed.

Lemma reconState_holes_points (inp : Polyline2D num) (k : nat) :
  forall st, reconState inp k = Some st ->
    forall h p, h ∈ rs_holes st -> p ∈ h -> p ∈ inp.
Proof.
  induction k as [|k IH]; intros st Hst h p Hh Hp.
  - injection Hst as <-. simpl in Hh. by apply elem_of_nil in Hh.
  - rewrite reconState_S in Hst.
    destruct (reconState inp k) as [st0|] eqn:Hst0; [|done]. simpl in Hst.
    destruct (reconStep_effect inp st0 st k Hst) as (q & _ & _ & Hcase).
    destruct Hcase as [(_ & Heq & _) | (_ & prev0 & polygon & _ & Hcand & Heq)];
      rewrite Heq in Hh; [by eapply IH|].
    assert (Hpoly : forall x, x ∈ polygon -> x ∈ inp).
    { intros x Hx. unfold candidateRing in Hcand.
      destruct (set_next k prev0 (rs_nodeList st0)) as [nl1|]; [|done].
      simpl in Hcand.
      destruct (walkRing _ _ _ _ _ _) as [r|] eqn:Hwalk; [|done].
      injection Hcand as <-.
      destruct (walkRing_points _ _ _ _ _ _ _ Hwalk x Hx) as [Hin|Hin];
        [by apply elem_of_nil in Hin | done]. }
    destruct (keepHole (Extent polygon)); [|by eapply IH].
    apply elem_of_app in Hh as [Hh|Hh]; [by eapply IH|].
    apply list_elem_of_singleton in Hh as ->. by apply Hpoly.
Qed.

(** The walk over the outer ring collects fewer points than the polyline
    has. *)
Lemma walkRing_final_length (inp : Polyline2D num) (st : ReconState) poly index :
  1 <= length inp ->
  ReconInv (length inp) (length inp) st ->
  walkRing (length inp) inp (rs_nodeList st) (length inp - 1)
    (length inp - 1) [] = Some (poly, index) ->
  S (length poly) <= length inp.
Proof.
  intros Hn (Hlen & Hrange & Hprev & Hdone & Htodo & Hlast & Hmap).
  set (n := length inp) in *. set (nl := rs_nodeList st) in *.
  assert (Hclimb : forall fuel idx acc r,
            idx < n - 1 ->
            walkRing fuel inp nl (n - 1) idx acc = Some r ->
            length r.1 + idx + 2 <= length acc + n).
  { induction fuel as [|fuel IH]; intros idx acc r Hidx Hwalk.
    - simpl in Hwalk. destruct (nl !! idx) as [nd|]; [|done]. simpl in Hwalk.
      destruct (decide (n - 1 = next nd)); [|done].
      injection Hwalk as <-. simpl. lia.
    - cbn [walkRing] in Hwalk.
      destruct (nl !! idx) as [nd|] eqn:Hnd; [|done]. simpl in Hwalk.
      destruct (decide (n - 1 = next nd)) as [Heq|Hne].
      + injection Hwalk as <-. simpl. lia.
      + destruct (inp !! idx) as [p|]; [|done]. simpl in Hwalk.
        pose proof (Hdone idx nd Hnd ltac:(lia) Hidx) as Hup.
        destruct (Hrange idx nd Hnd) as [_ Hnext].
        apply IH in Hwalk; [|lia]. rewrite length_app in Hwalk.
        simpl in Hwalk. lia. }
  intros Hwalk.
  destruct n as [|n'] eqn:En; [lia|].
  replace (S n' - 1) with n' in * by lia.
  cbn [walkRing] in Hwalk.
  destruct (nl !! n') as [ndl|] eqn:Hndl; [|done]. simpl in Hwalk.
  destruct (decide (n' = next ndl)) as [Heq|Hne].
  - injection Hwalk as <- <-. simpl. lia.
  - destruct (inp !! n') as [pl|]; [|done]. simpl in Hwalk.
    destruct (decide (2 <= S n')) as [H2|H2].
    + pose proof (Hlast H2 ndl eq_refl) as Hlt.
      apply Hclimb in Hwalk; [|lia]. simpl in Hwalk. lia.
    + destruct (Hrange _ _ Hndl) as [_ Hnext]. lia.
Qed.

(** X1.  A record the reconstructor returns is made of the polyline: it
    carries the property it was given, its outline has a point and no more
    points than the polyline, and every point of the outline and of every
    hole is a point of the polyline. *)
Theorem makePolygonData_points (inp0 : Polyline2D num) (prop : property_type)
    (pd : PolygonWithProp property_type num) :
  makePolygonData inp0 prop = Some pd ->
  property pd = prop
  /\ 1 <= length (solid pd) <= length inp0
  /\ (forall p, p ∈ solid pd -> p ∈ inp0)
  /\ (forall h p, h ∈ holes pd -> p ∈ h -> p ∈ inp0).
Proof.
  unfold makePolygonData.
  destruct (dropClosingPoint inp0) as [inp|] eqn:Hdrop; [|done]. simpl.
  destruct (dropClosingPoint_sub _ _ Hdrop) as [Hlen Hsub].
  destruct (reconState inp (length inp)) as [st|] eqn:Hst; [|done]. simpl.
  destruct (decide (length inp = 0)) as [|Hn]; [done|].
  destruct (walkRing _ _ _ _ _ _) as [[poly index]|] eqn:Hwalk; [|done]. simpl.
  destruct (inp !! index) as [p|] eqn:Hp; [|done]. simpl. intros [= <-]. simpl.
  destruct (reconState_inv inp (length inp) ltac:(lia)) as (st' & Hst' & Hinv).
  rewrite Hst in Hst'. injection Hst' as <-.
  pose proof (walkRing_final_length inp st poly index ltac:(lia) Hinv Hwalk).
  split; [done|]. split; [rewrite length_app; simpl; lia|]. split.
  - intros q Hq. apply Hsub. apply elem_of_app in Hq as [Hq|Hq].
    + destruct (walkRing_points _ _ _ _ _ _ _ Hwalk q Hq) as [Hin|Hin];
        [by apply elem_of_nil in Hin | done].
    + apply list_elem_of_singleton in Hq as ->. by eapply list_elem_of_lookup_2.
  - intros h q Hh Hq. apply Hsub. by eapply reconState_holes_points.
Qed.
End ReconstructorPoints.

(** ** The hole reconstructor on a polyline that does not touch itself *)

Section ReconstructorSimple.
Context {property_type num : Type} {NT : NumType num}
        {PM : Point2DIndexMap num} {PML : Point2DIndexMapLaws num}.

Lemma existsb_take_S {A : Type} (f : A -> bool) (l : list A) (i : nat) (x : A) :
  l !! i = Some x ->
  existsb f (take (S i) l) = existsb f (take i l) || f x.
Proof.
  intros Hx. rewrite (take_S_r l i x Hx), existsb_app. simpl.
  by rewrite orb_false_r.
Qed.

Lemma existsb_take_false {A : Type} (f : A -> bool) (l : list A) (i : nat) :
  (forall j x, j < i -> l !! j = Some x -> f x = false) ->
  existsb f (take i l) = false.
Proof.
  intros Hall. destruct (existsb f (take i l)) eqn:E; [|done].
  apply existsb_exists in E as (x & Hin & Hfx).
  apply list_elem_of_In, elem_of_take in Hin as (j & Hj & Hlt).
  by rewrite (Hall j x Hlt Hj) in Hfx.
Qed.

(** While no point counts, an iteration only records the point. *)
Lemma reconStep_fresh (inp : Polyline2D num) (st : ReconState) (i : nat)
    (p : Point2D num) :
  inp !! i = Some p -> pm_Count p (rs_ptMap st) = false ->
  reconStep inp st i
  = Some (mkReconState (rs_nodeList st) (rs_holes st) (pm_Insert p i (rs_ptMap st))).
Proof. intros Hp Hc. unfold reconStep. rewrite Hp. simpl. by rewrite Hc. Qed.

(** At a point that counts, an iteration splices and records the point. *)
Lemma reconStep_touch (inp : Polyline2D num) (st st1 : ReconState) (i : nat)
    (p : Point2D num) :
  inp !! i = Some p -> pm_Count p (rs_ptMap st) = true ->
  spliceAt inp i st = Some st1 ->
  reconStep inp st i
  = Some (mkReconState (rs_nodeList st1) (rs_holes st1)
            (pm_Insert p i (rs_ptMap st1))).
Proof.
  intros Hp Hc Hs. unfold reconStep. rewrite Hp. simpl. by rewrite Hc, Hs.
Qed.

Lemma countsPrefix_Insert (inp : Polyline2D num) (k : nat) (m : ptmap)
    (p : Point2D num) :
  inp !! k = Some p -> countsPrefix inp k m ->
  countsPrefix inp (S k) (pm_Insert p k m).
Proof.
  intros Hp Hm q. rewrite pm_Count_Insert, (existsb_take_S _ _ _ _ Hp), Hm.
  apply orb_comm.
Qed.

Lemma reconState_fresh_run (inp : Polyline2D num) (len : nat) :
  forall a st,
    a + len <= length inp ->
    countsPrefix inp a (rs_ptMap st) ->
    (forall i j p q, i < j -> a <= j < a + len ->
       inp !! i = Some p -> inp !! j = Some q -> Point_eqb p q = false) ->
    exists m,
      forLoop (reconStep inp) (seq a len) st
      = Some (mkReconState (rs_nodeList st) (rs_holes st) m)
      /\ countsPrefix inp (a + len) m.
Proof.
  induction len as [|len IH]; intros a st Hlen Hm Hdist; simpl.
  - exists (rs_ptMap st). rewrite Nat.add_0_r. by destruct st.
  - destruct (lookup_lt_is_Some_2 inp a ltac:(lia)) as [p Hp].
    assert (Hc : pm_Count p (rs_ptMap st) = false).
    { rewrite Hm. apply existsb_take_false. intros j x Hj Hx.
      apply (Hdist j a x p); [lia | lia | done | done]. }
    rewrite (reconStep_fresh inp st a p Hp Hc). simpl.
    destruct (IH (S a) (mkReconState (rs_nodeList st) (rs_holes st)
                          (pm_Insert p a (rs_ptMap st))))
      as (m & Hrun & Hm'); [lia| by apply countsPrefix_Insert | |].
    + intros i j x y Hij Hj. apply Hdist; lia.
    + exists m. split; [exact Hrun|].
      by replace (a + S len) with (S a + len) by lia.
Qed.

Lemma countsPrefix_Clear (inp : Polyline2D num) : countsPrefix inp 0 pm_Clear.
Proof. intros q. by rewrite pm_Count_Clear. Qed.

(** The walk over the untouched links: from the last node round to the node
    before it. *)
Lemma walkRing_initial (inp : Polyline2D num) :
  inp <> [] ->
  exists poly index p,
    walkRing (length inp) inp (initNodeList (length inp)) (length inp - 1)
      (length inp - 1) [] = Some (poly, index)
    /\ inp !! index = Some p
    /\ poly ++ [p] = rotate (length inp - 1) inp.
Proof.
  intros Hne.
  assert (Hn : 1 <= length inp) by (destruct inp; [done | simpl; lia]).
  set (n := length inp) in *.
  assert (Hrot : rotate (n - 1) inp = drop (n - 1) inp ++ take (n - 1) inp).
  { unfold rotate. fold n. by rewrite Nat.mod_small by lia. }
  destruct (lookup_lt_is_Some_2 inp (n - 1) ltac:(fold n; lia)) as [pl Hpl].
  assert (Hdrop : drop (n - 1) inp = [pl]).
  { rewrite (drop_S inp pl (n - 1) Hpl).
    replace (S (n - 1)) with n by lia. unfold n. by rewrite drop_all. }
  destruct (decide (n = 1)) as [H1|H1].
  - exists [], 0, pl. rewrite H1 in *. simpl in *.
    split; [done|split; [done|]].
    rewrite Hrot, Hdrop. done.
  - destruct (lookup_lt_is_Some_2 inp (n - 2) ltac:(fold n; lia)) as [p Hp].
    exists ([pl] ++ take (n - 2) (drop 0 inp)), (n - 2), p.
    split; [|split; [done|]].
    + replace n with (S ((n - 2) + 1)) at 1 by lia.
      rewrite (walkRing_jump inp _ _ (n - 1) [] _ _ pl
                 (initNodeList_lookup n (n - 1) ltac:(lia))); [| |done].
      2:{ simpl. replace (n - 1 + 1) with n by lia.
          rewrite Nat.Div0.mod_same. lia. }
      simpl next. replace (n - 1 + 1) with n by lia.
      rewrite Nat.Div0.mod_same.
      rewrite walkRing_run; [|fold n; lia|].
      2:{ intros k Hk. eexists. split; [apply initNodeList_lookup; lia|].
          simpl. rewrite Nat.mod_small by lia. lia. }
      eapply walkRing_stop; [apply initNodeList_lookup; lia|].
      simpl. rewrite Nat.mod_small by lia. lia.
    + rewrite Hrot, Hdrop. rewrite drop_0. rewrite <- app_assoc. f_equal.
      replace (n - 1) with (S (n - 2)) by lia.
      by rewrite (take_S_r inp (n - 2) p Hp).
Qed.

(** X2.  On a polyline that, its closing point apart, passes no point twice,
    the reconstructor returns the polyline as the outline, begun at its last
    point, and no hole. *)
Theorem makePolygonData_simple (inp0 inp : Polyline2D num) (prop : property_type) :
  dropClosingPoint inp0 = Some inp ->
  inp <> [] ->
  (forall i j p q, i < j -> inp !! i = Some p -> inp !! j = Some q ->
     Point_eqb p q = false) ->
  makePolygonData inp0 prop
  = Some (mkPolygonWithProp prop (rotate (length inp - 1) inp) []).
Proof.
  intros Hdrop Hne Hdist.
  destruct (reconState_fresh_run inp (length inp) 0
              (mkReconState (initNodeList (length inp)) [] pm_Clear))
    as (m & Hrun & _); [lia | apply countsPrefix_Clear | |].
  { intros i j p q Hij _. by apply Hdist. }
  destruct (walkRing_initial inp Hne) as (poly & index & p & Hwalk & Hp & Hrot).
  unfold makePolygonData. rewrite Hdrop. simpl.
  unfold reconState. rewrite Hrun. simpl.
  rewrite decide_False by (by destruct inp).
  rewrite Hwalk. simpl. rewrite Hp. simpl. by rewrite Hrot.
Qed.
End ReconstructorSimple.

(** ** The hole reconstructor on a polyline that touches itself once *)

Section ReconstructorOneTouch.
Context {property_type num : Type} {NT : NumType num}
        {PM : Point2DIndexMap num} {PML : Point2DIndexMapLaws num}
        {PMF : Point2DIndexMapFrame num}.

Lemma reconState_fresh_run_At (inp : Polyline2D num) (len : nat) :
  forall a st,
    a + len <= length inp ->
    countsPrefix inp a (rs_ptMap st) ->
    (forall i j p q, i < j -> a <= j < a + len ->
       inp !! i = Some p -> inp !! j = Some q -> Point_eqb p q = false) ->
    exists m,
      forLoop (reconStep inp) (seq a len) st
      = Some (mkReconState (rs_nodeList st) (rs_holes st) m)
      /\ countsPrefix inp (a + len) m
      /\ forall q,
           (forall k x, a <= k < a + len -> inp !! k = Some x ->
              Point_eqb x q = false) ->
           pm_At q m = pm_At q (rs_ptMap st).
Proof.
  induction len as [|len IH]; intros a st Hlen Hm Hdist; simpl.
  - exists (rs_ptMap st). rewrite Nat.add_0_r. by destruct st.
  - destruct (lookup_lt_is_Some_2 inp a ltac:(lia)) as [p Hp].
    assert (Hc : pm_Count p (rs_ptMap st) = false).
    { rewrite Hm. apply existsb_take_false. intros j x Hj Hx.
      apply (Hdist j a x p); [lia | lia | done | done]. }
    rewrite (reconStep_fresh inp st a p Hp Hc). simpl.
    destruct (IH (S a) (mkReconState (rs_nodeList st) (rs_holes st)
                          (pm_Insert p a (rs_ptMap st))))
      as (m & Hrun & Hm' & Hat); [lia| by apply countsPrefix_Insert | |].
    + intros i j x y Hij Hj. apply Hdist; lia.
    + exists m. split; [exact Hrun|].
      split; [by replace (a + S len) with (S a + len) by lia|].
      intros q Hq. rewrite Hat by (intros k x Hk; apply Hq; lia). simpl.
      apply pm_At_Insert_other. apply (Hq a p); [lia | done].
Qed.

(** The ring between two visits of a point, on links as they started. *)
Lemma candidateRing_initial (inp : Polyline2D num) (j i : nat) :
  j < i < length inp ->
  candidateRing inp (initNodeList (length inp)) j i
  = Some (take (i - j) (drop j inp)).
Proof.
  intros Hji. set (n := length inp) in *.
  pose proof (initNodeList_lookup n i ltac:(lia)) as Hndc.
  unfold candidateRing. rewrite (set_next_Some _ _ _ _ Hndc). simpl.
  set (nl1 := <[i := _]> (initNodeList n)).
  assert (Hwalk : walkRing ((i - j) + 0) inp nl1 j j []
                  = Some (take (i - j) (drop j inp), i)).
  { rewrite walkRing_run; [|fold n; lia|].
    2:{ intros k Hk. eexists. split.
        - unfold nl1. rewrite list_lookup_insert_ne by lia.
          apply initNodeList_lookup. lia.
        - simpl. rewrite Nat.mod_small by lia. lia. }
    replace (j + (i - j)) with i by lia.
    eapply walkRing_stop;
      [unfold nl1; apply list_lookup_insert_eq;
       unfold initNodeList; rewrite length_map, length_seq; lia | done]. }
  fold n. rewrite (walkRing_fuel_mono _ _ _ _ n _ _ _ Hwalk) by lia. done.
Qed.

(** The splice at the second visit [i] of the point first seen at [j], on
    links as they started. *)
Lemma spliceAt_initial (inp : Polyline2D num) (j i : nat) (p' : Point2D num)
    (hs : list (Polygon2D num)) (m : ptmap) :
  j < i < length inp ->
  inp !! i = Some p' -> pm_At p' m = Some j ->
  let n := length inp in
  let pj := (j + n - 1) mod n in
  let ring := take (i - j) (drop j inp) in
  exists nl4,
    spliceAt inp i (mkReconState (initNodeList n) hs m)
    = Some (mkReconState nl4
              (if keepHole (Extent ring) then hs ++ [ring] else hs) m)
    /\ nl4 !! i = Some (mkPtNode pj ((i + 1) mod n))
    /\ (pj <> i -> exists pr, nl4 !! pj = Some (mkPtNode pr i))
    /\ (forall k, k <> i -> k <> pj -> nl4 !! k = initNodeList n !! k).
Proof.
  intros Hji Hp Hat n pj ring.
  pose proof (initNodeList_lookup n i ltac:(lia)) as Hndc.
  pose proof (initNodeList_lookup n j ltac:(lia)) as Hndp.
  assert (Hlen : length (initNodeList n) = n)
    by (unfold initNodeList; by rewrite length_map, length_seq).
  assert (Hpj : pj < n) by (apply Nat.mod_upper_bound; lia).
  destruct (splice_links (initNodeList n) i j _ _ Hndc Hndp ltac:(lia)
              ltac:(simpl; lia))
    as (nl1 & nl2 & nl3 & nl4 & H1 & Hp1 & H2 & H3 & H4 & Hlen4 & Hi4 & Hp4 & Ho4).
  simpl in H2, H3, H4, Hi4, Hp4, Ho4. fold pj in H2, H3, Hi4, Hp4, Ho4.
  exists nl4. split; [|split; [exact Hi4|split]].
  - unfold spliceAt. rewrite Hp. simpl. rewrite Hat. simpl.
    rewrite Hndc. simpl. rewrite H1. simpl.
    pose proof (candidateRing_initial inp j i Hji) as Hcand.
    fold n in Hcand. rewrite Hcand. simpl. fold ring.
    rewrite Hp1. simpl. fold pj. rewrite H2. simpl. rewrite H3. simpl.
    by rewrite H4.
  - intros Hne. destruct (Hp4 pj Hne eq_refl) as (ndo & _ & Hk4). eauto.
  - intros k Hki Hkp. by apply Ho4.
Qed.

(** The walk over the outer ring after the one splice. *)
Lemma walkRing_spliced (inp : Polyline2D num) (j i : nat) (nl4 : list PtNode) :
  let n := length inp in
  let pj := (j + n - 1) mod n in
  j < i < n -> 0 < j \/ i < n - 1 ->
  nl4 !! i = Some (mkPtNode pj ((i + 1) mod n)) ->
  (pj <> i -> exists pr, nl4 !! pj = Some (mkPtNode pr i)) ->
  (forall k, k <> i -> k <> pj -> nl4 !! k = initNodeList n !! k) ->
  exists poly index p,
    walkRing n inp nl4 (n - 1) (n - 1) [] = Some (poly, index)
    /\ inp !! index = Some p
    /\ poly ++ [p] = rotate (j + (n - i) - 1) (take j inp ++ drop i inp).
Proof.
  intros n pj Hji Hcase Hi4 Hp4 Ho4.
  assert (Hpj : pj = if decide (j = 0) then n - 1 else j - 1).
  { unfold pj. destruct (decide (j = 0)) as [->|Hj].
    - apply Nat.mod_small. lia.
    - replace (j + n - 1) with (j - 1 + 1 * n) by lia.
      rewrite Nat.Div0.mod_add. apply Nat.mod_small. lia. }
  assert (Hinit : forall k, k < n - 1 -> k <> i -> k <> pj ->
            exists nd, nl4 !! k = Some nd /\ next nd = S k).
  { intros k Hk Hki Hkp. eexists. split.
    - rewrite Ho4 by done. apply initNodeList_lookup. lia.
    - simpl. rewrite Nat.mod_small by lia. lia. }
  set (o := take j inp ++ drop i inp).
  assert (Holen : length o = j + (n - i)).
  { unfold o. rewrite length_app, length_take, length_drop. fold n. lia. }
  assert (Hrot : rotate (j + (n - i) - 1) o
                 = drop (j + (n - i) - 1) o ++ take (j + (n - i) - 1) o).
  { unfold rotate. rewrite Holen. by rewrite Nat.mod_small by lia. }
  destruct (lookup_lt_is_Some_2 inp (n - 1) ltac:(fold n; lia)) as [pl Hpl].
  assert (Hdropl : drop (n - 1) inp = [pl]).
  { rewrite (drop_S inp pl (n - 1) Hpl).
    replace (S (n - 1)) with n by lia. unfold n. by rewrite drop_all. }
  destruct (decide (i = n - 1)) as [Hin|Hin].
  - (* the second visit is the last point *)
    subst i. assert (Hj : 0 < j) by lia.
    rewrite decide_False in Hpj by lia.
    destruct (lookup_lt_is_Some_2 inp (j - 1) ltac:(fold n; lia)) as [q Hq].
    destruct (Hp4 ltac:(lia)) as (pr & Hpjn).
    exists ([pl] ++ take (j - 1) (drop 0 inp)), (j - 1), q.
    split; [|split; [done|]].
    + assert (Hw : walkRing (S ((j - 1) + 0)) inp nl4 (n - 1) (n - 1) []
                   = Some ([pl] ++ take (j - 1) (drop 0 inp), j - 1)).
      { rewrite (walkRing_jump inp nl4 (n - 1) (n - 1) [] _ _ pl Hi4); [| |done].
        2:{ simpl. replace (n - 1 + 1) with n by lia.
            rewrite Nat.Div0.mod_same. lia. }
        simpl next. replace (n - 1 + 1) with n by lia.
        rewrite Nat.Div0.mod_same.
        rewrite walkRing_run; [|fold n; lia|].
        2:{ intros k Hk. destruct (Hinit k) as (nd & Hnd & Hnext); [lia..|].
            exists nd. split; [done|]. split; [done|]. lia. }
        eapply walkRing_stop; [rewrite <- Hpj; exact Hpjn|]. simpl. lia. }
      apply (walkRing_fuel_mono _ _ _ _ n _ _ _ Hw). lia.
    + rewrite Hrot. unfold o. rewrite Hdropl.
      replace (j + (n - (n - 1)) - 1) with j by lia.
      rewrite drop_app_length', take_app_length' by (rewrite length_take; fold n; lia).
      rewrite drop_0, <- app_assoc. f_equal.
      replace j with (S (j - 1)) at 2 by lia.
      by rewrite (take_S_r inp (j - 1) q Hq).
  - (* points follow the second visit *)
    destruct (lookup_lt_is_Some_2 inp (n - 2) ltac:(fold n; lia)) as [q Hq].
    assert (HrunI : forall k, i <= k < n - 1 ->
              exists nd, nl4 !! k = Some nd /\ next nd = S k).
    { intros k Hk. destruct (decide (k = i)) as [->|Hki].
      - eexists. split; [exact Hi4|]. simpl. rewrite Nat.mod_small by lia. lia.
      - apply Hinit; [lia | done |]. rewrite Hpj. destruct (decide (j = 0)); lia. }
    assert (Htail : forall acc,
              walkRing ((n - 2 - i) + 0) inp nl4 (n - 1) i acc
              = Some (acc ++ take (n - 2 - i) (drop i inp), n - 2)).
    { intros acc. rewrite walkRing_run; [|fold n; lia|].
      2:{ intros k Hk. destruct (HrunI k) as (nd & Hnd & Hnext); [lia|].
          exists nd. split; [done|]. split; [done|]. lia. }
      replace (i + (n - 2 - i)) with (n - 2) by lia.
      destruct (HrunI (n - 2)) as (nd & Hnd & Hnext); [lia|].
      eapply walkRing_stop; [exact Hnd|]. lia. }
    assert (Htake : take (n - 2 - i) (drop i inp) ++ [q]
                    = take (n - 1 - i) (drop i inp)).
    { replace (n - 1 - i) with (S (n - 2 - i)) by lia.
      rewrite (take_S_r (drop i inp) (n - 2 - i) q); [done|].
      rewrite lookup_drop. by replace (i + (n - 2 - i)) with (n - 2) by lia. }
    assert (Hgoal : rotate (j + (n - i) - 1) o
                    = [pl] ++ take j inp ++ take (n - 1 - i) (drop i inp)).
    { rewrite Hrot. unfold o.
      rewrite drop_app_ge, take_app_ge by (rewrite length_take; fold n; lia).
      rewrite length_take. fold n.
      replace (j + (n - i) - 1 - j `min` n) with (n - 1 - i) by lia.
      rewrite drop_drop. replace (i + (n - 1 - i)) with (n - 1) by lia.
      by rewrite Hdropl. }
    destruct (decide (j = 0)) as [Hj0|Hj0].
    + (* the first visit is the first point *)
      subst j. destruct (Hp4 ltac:(lia)) as (pr & Hpjn). rewrite Hpj in Hpjn.
      exists ([pl] ++ take (n - 2 - i) (drop i inp)), (n - 2), q.
      split; [|split; [done|]].
      * assert (Hw : walkRing (S ((n - 2 - i) + 0)) inp nl4 (n - 1) (n - 1) []
                     = Some ([pl] ++ take (n - 2 - i) (drop i inp), n - 2)).
        { rewrite (walkRing_jump inp nl4 (n - 1) (n - 1) [] _ _ pl Hpjn);
            [|simpl; lia|done].
          simpl next. apply Htail. }
        apply (walkRing_fuel_mono _ _ _ _ n _ _ _ Hw). lia.
      * rewrite Hgoal, <- app_assoc, Htake. by rewrite take_0.
    + destruct (Hp4 ltac:(lia)) as (pr & Hpjn). rewrite Hpj in Hpjn.
      destruct (lookup_lt_is_Some_2 inp (j - 1) ltac:(fold n; lia)) as [q1 Hq1].
      exists ((([pl] ++ take (j - 1) (drop 0 inp)) ++ [q1])
                ++ take (n - 2 - i) (drop i inp)), (n - 2), q.
      split; [|split; [done|]].
      * assert (Hw : walkRing (S ((j - 1) + S ((n - 2 - i) + 0))) inp nl4
                       (n - 1) (n - 1) []
                     = Some ((([pl] ++ take (j - 1) (drop 0 inp)) ++ [q1])
                               ++ take (n - 2 - i) (drop i inp), n - 2)).
        { assert (Hndl : nl4 !! (n - 1)
                         = Some (mkPtNode ((n - 1 + n - 1) mod n) ((n - 1 + 1) mod n))).
          { rewrite Ho4 by lia. apply initNodeList_lookup. lia. }
          assert (Hz : (n - 1 + 1) mod n = 0).
          { replace (n - 1 + 1) with n by lia. apply Nat.Div0.mod_same. }
          rewrite (walkRing_jump inp nl4 (n - 1) (n - 1) [] _ _ pl Hndl);
            [|simpl; lia|done].
          simpl next. rewrite Hz.
          rewrite walkRing_run; [|fold n; lia|].
          2:{ intros k Hk. destruct (Hinit k) as (nd & Hnd & Hnext); [lia..|].
              exists nd. split; [done|]. split; [done|]. lia. }
          rewrite (walkRing_jump inp nl4 (n - 1) (0 + (j - 1)) _ _ _ q1 Hpjn);
            [|simpl; lia|done].
          simpl next. apply Htail. }
        apply (walkRing_fuel_mono _ _ _ _ n _ _ _ Hw). lia.
      * rewrite Hgoal, <- !app_assoc, Htake, drop_0. f_equal.
        replace j with (S (j - 1)) at 2 by lia.
        rewrite (take_S_r inp (j - 1) q1 Hq1). by rewrite <- app_assoc.
Qed.

(** X3.  On a polyline that passes one point twice, at the indices [j < i],
    and no other point twice, the reconstructor splits off the ring from the
    first visit up to the point before the second: it becomes a hole when
    its bounding box passes the degeneracy test and is dropped otherwise.
    The outline is what is left of the polyline, begun at its last point. *)
Theorem makePolygonData_one_touch (inp0 inp : Polyline2D num)
    (prop : property_type) (j i : nat) (p p' : Point2D num) :
  dropClosingPoint inp0 = Some inp ->
  j < i < length inp -> 0 < j \/ i < length inp - 1 ->
  inp !! j = Some p -> inp !! i = Some p' -> Point_eqb p p' = true ->
  (forall a b x y, a < b -> (a, b) <> (j, i) ->
     inp !! a = Some x -> inp !! b = Some y -> Point_eqb x y = false) ->
  let ring := take (i - j) (drop j inp) in
  let outline := take j inp ++ drop i inp in
  makePolygonData inp0 prop
  = Some (mkPolygonWithProp prop (rotate (length outline - 1) outline)
            (if keepHole (Extent ring) then [ring] else [])).
Proof.
  intros Hdrop Hji Hcase Hpj Hpi Heq Hdist ring outline.
  set (n := length inp) in *.
  assert (Hseq : seq 0 n = seq 0 j ++ [j] ++ seq (S j) (i - S j) ++ [i]
                             ++ seq (S i) (n - S i)).
  { replace n with (j + (1 + ((i - S j) + (1 + (n - S i))))) at 1 by lia.
    rewrite !seq_app. simpl.
    replace (j + 1) with (S j) by lia.
    replace (S j + (i - S j)) with i by lia.
    by replace (i + 1) with (S i) by lia. }
  (* up to the first visit *)
  destruct (reconState_fresh_run_At inp j 0
              (mkReconState (initNodeList n) [] pm_Clear))
    as (mj & Hrun1 & Hmj & _); [lia | apply countsPrefix_Clear | |].
  { intros a b x y Hab Hb. apply Hdist; [lia|]. intros [= -> ->]. lia. }
  cbn [rs_nodeList rs_holes rs_ptMap] in Hrun1, Hmj.
  replace (0 + j) with j in Hmj by lia.
  (* the first visit *)
  assert (Hcj : pm_Count p mj = false).
  { rewrite Hmj. apply existsb_take_false. intros a x Ha Hx.
    apply (Hdist a j x p); [lia | | done | done]. intros [= -> ->]. lia. }
  assert (Hcj' : pm_Count p' mj = false).
  { rewrite Hmj. apply existsb_take_false. intros a x Ha Hx.
    apply (Hdist a i x p'); [lia | | done | done]. intros [= ->]. lia. }
  pose proof (pm_At_Insert_fresh p j mj p' Hcj' Heq) as Hatj.
  pose proof (countsPrefix_Insert inp j mj p Hpj Hmj) as Hmj1.
  (* between the visits *)
  destruct (reconState_fresh_run_At inp (i - S j) (S j)
              (mkReconState (initNodeList n) [] (pm_Insert p j mj)))
    as (mi & Hrun2 & Hmi & Hati); [lia | done | |].
  { intros a b x y Hab Hb. apply Hdist; [lia|]. intros [= -> ->]. lia. }
  cbn [rs_nodeList rs_holes rs_ptMap] in Hrun2, Hmi, Hati.
  replace (S j + (i - S j)) with i in Hmi by lia.
  assert (Hat : pm_At p' mi = Some j).
  { rewrite Hati; [done|]. intros k x Hk Hx.
    apply (Hdist k i x p'); [lia | | done | done]. intros [= ->]. lia. }
  (* the second visit *)
  assert (Hci : pm_Count p' mi = true).
  { rewrite Hmi. apply existsb_exists. exists p. split; [|done].
    apply list_elem_of_In, elem_of_take. exists j. split; [done | lia]. }
  destruct (spliceAt_initial inp j i p' [] mi Hji Hpi Hat)
    as (nl4 & Hsplice & Hi4 & Hp4 & Ho4).
  fold n in Hsplice, Hi4, Hp4, Ho4. fold ring in Hsplice. simpl in Hsplice.
  pose proof (countsPrefix_Insert inp i mi p' Hpi Hmi) as Hmi1.
  (* after the second visit *)
  set (hs := if keepHole (Extent ring) then [ring] else []) in *.
  destruct (reconState_fresh_run inp (n - S i) (S i)
              (mkReconState nl4 hs (pm_Insert p' i mi)))
    as (mn & Hrun3 & _); [lia | done | |].
  { intros a b x y Hab Hb. apply Hdist; [lia|]. intros [= -> ->]. lia. }
  cbn [rs_nodeList rs_holes rs_ptMap] in Hrun3.
  assert (Hloop : reconState inp n = Some (mkReconState nl4 hs mn)).
  { unfold reconState. fold n. rewrite Hseq.
    rewrite forLoop_app, Hrun1. simpl.
    rewrite (reconStep_fresh inp (mkReconState (initNodeList n) [] mj) j p Hpj Hcj).
    simpl.
    rewrite forLoop_app, Hrun2. simpl.
    rewrite (reconStep_touch inp (mkReconState (initNodeList n) [] mi) _ i p'
               Hpi Hci Hsplice). simpl.
    exact Hrun3. }
  destruct (walkRing_spliced inp j i nl4 Hji Hcase Hi4 Hp4 Ho4)
    as (poly & index & q & Hwalk & Hq & Hrot).
  fold n in Hwalk, Hrot.
  assert (Holen : length outline = j + (n - i)).
  { unfold outline. rewrite length_app, length_take, length_drop. fold n. lia. }
  unfold makePolygonData. rewrite Hdrop. simpl. fold n. rewrite Hloop. simpl.
  rewrite decide_False by lia. rewrite Hwalk. simpl. rewrite Hq. simpl.
  rewrite Hrot. by rewrite Holen.
Qed.
End ReconstructorOneTouch.

(** The integral point-index map looks a point up by the point alone. *)
Lemma IntegralPointIndexMap_frame (feps : Q) :
  @Point2DIndexMapFrame Z (integral feps) IntegralPointIndexMap.
Proof.
  constructor. intros p i m q Hne. simpl.
  rewrite Point_eqb_integral in Hne. apply bool_decide_eq_false_1 in Hne.
  rewrite umap_insert_lookup. case_match; [done|].
  by rewrite decide_False.
Qed.

Lemma makePolygonData_points_witness :
  property (mkPolygonWithProp 1%nat [(0, 2); (0, 0); (2, 0); (2, 2)]%Z []) = 1%nat
  /\ 1 <= 4 <= 5
  /\ (forall p : Point2D Z, p ∈ [(0, 2); (0, 0); (2, 0); (2, 2)]%Z ->
        p ∈ [(0, 0); (2, 0); (2, 2); (0, 2); (0, 0)]%Z)
  /\ (forall (h : Polygon2D Z) (p : Point2D Z), h ∈ @nil (Polygon2D Z) -> p ∈ h ->
        p ∈ [(0, 0); (2, 0); (2, 2); (0, 2); (0, 0)]%Z).
Proof.
  apply (makePolygonData_points (NT := Examples.NTZ)
           (PML := IntegralPointIndexMap_lawful double_epsilon)
           [(0, 0); (2, 0); (2, 2); (0, 2); (0, 0)]%Z 1%nat
           (mkPolygonWithProp 1%nat [(0, 2); (0, 0); (2, 0); (2, 2)]%Z [])).
  reflexivity.
Defined.

Lemma makePolygonData_simple_witness :
  makePolygonData (NT := Examples.NTZ) (PM := IntegralPointIndexMap)
    [(0, 0); (2, 0); (2, 2); (0, 2); (0, 0)]%Z 1%nat
  = Some (mkPolygonWithProp 1%nat [(0, 2); (0, 0); (2, 0); (2, 2)]%Z []).
Proof.
  apply (makePolygonData_simple (NT := Examples.NTZ)
           (PML := IntegralPointIndexMap_lawful double_epsilon)
           [(0, 0); (2, 0); (2, 2); (0, 2); (0, 0)]%Z
           [(0, 0); (2, 0); (2, 2); (0, 2)]%Z 1%nat).
  - reflexivity.
  - discriminate.
  - intros i j p q Hij Hp Hq.
    destruct i as [|[|[|[|i]]]]; destruct j as [|[|[|[|j]]]];
      try lia; try discriminate;
      injection Hp as <-; injection Hq as <-; reflexivity.
Defined.

Lemma makePolygonData_one_touch_witness :
  makePolygonData (NT := Examples.NTZ) (PM := IntegralPointIndexMap)
    [(0, 0); (4, 0); (6, 2); (6, -2); (4, 0); (0, -4)]%Z 1%nat
  = Some (mkPolygonWithProp 1%nat [(0, -4); (0, 0); (4, 0)]%Z
            [[(4, 0); (6, 2); (6, -2)]%Z]).
Proof.
  apply (makePolygonData_one_touch (NT := Examples.NTZ)
           (PML := IntegralPointIndexMap_lawful double_epsilon)
           (PMF := IntegralPointIndexMap_frame double_epsilon)
           [(0, 0); (4, 0); (6, 2); (6, -2); (4, 0); (0, -4)]%Z
           [(0, 0); (4, 0); (6, 2); (6, -2); (4, 0); (0, -4)]%Z
           1%nat 1 4 (4, 0)%Z (4, 0)%Z).
  - reflexivity.
  - simpl. lia.
  - left. lia.
  - reflexivity.
  - reflexivity.
  - reflexivity.
  - intros a b x y Hab Hne Hx Hy.
    destruct a as [|[|[|[|[|[|a]]]]]]; destruct b as [|[|[|[|[|[|b]]]]]];
      try lia; try discriminate; try (by destruct Hne);
      injection Hx as <-; injection Hy as <-; reflexivity.
Defined.

(** ** Where the reconstructor is defined *)

Section ReconstructorDomain.
Context {property_type num : Type} {NT : NumType num}
        {PM : Point2DIndexMap num} {PML : Point2DIndexMapLaws num}.

(** X4.  The reconstructor returns a record exactly on the polylines of two
    points or more.  On the empty polyline [in.front()] is undefined; on a
    polyline of one point the point is its own closing point, it is popped,
    and [nodeList[size - 1]] is read from an empty vector. *)
Theorem makePolygonData_defined (inp0 : Polyline2D num) (prop : property_type) :
  (forall x : num, num_eqb x x = true) ->
  is_Some (makePolygonData inp0 prop) <-> 2 <= length inp0.
Proof.
  intros Hrefl. split.
  - intros [pd Hpd]. destruct inp0 as [|p [|q inp1]]; [done| |simpl; lia].
    exfalso. unfold makePolygonData, dropClosingPoint in Hpd. simpl in Hpd.
    unfold Point_eqb in Hpd. rewrite !Hrefl in Hpd. simpl in Hpd.
    unfold reconState in Hpd. simpl in Hpd. done.
  - intros Hlen. destruct (makePolygonData_total inp0 prop Hlen) as (pd & Hpd & _).
    by exists pd.
Qed.
End ReconstructorDomain.

Lemma makePolygonData_defined_witness :
  is_Some (makePolygonData (NT := Examples.NTZ) (PM := IntegralPointIndexMap)
             [(3, 4)%Z] 1%nat)
  <-> 2 <= length [(3, 4)%Z].
Proof.
  apply (makePolygonData_defined (NT := Examples.NTZ)
           (PML := IntegralPointIndexMap_lawful double_epsilon)).
  intros x. apply Z.eqb_refl.
Defined.

(** ** What a merge leaves of the merger *)

Section MergeFrame.
Context {property_type num : Type} `{Countable property_type}
        {NT : NumType num} {PM : Point2DIndexMap num}.
Variable area : Polygon2D num -> Q.
Variable simplify : Q -> Polygon2D num -> Polygon2D num.
Variable property_merge :
  list (list (Point2D num) * property_type * bool) ->
  list (list property_type * list (Polyline2D num)).
Variable Build :
  RectNode num (PolygonWithProp property_type num) ->
  list (PolygonWithProp property_type num) -> nat ->
  RectNode num (PolygonWithProp property_type num).
Variable BuildNode :
  RectNode num (PolygonWithProp property_type num) ->
  list (PolygonWithProp property_type num) ->
  RectNode num (PolygonWithProp property_type num).
Variable ClearNode :
  RectNode num (PolygonWithProp property_type num) ->
  RectNode num (PolygonWithProp property_type num).
Variable ConnectivityExtraction : list (Box2D num) -> list (list nat).
Variable connected_components : list (list nat) -> list nat * nat.

Implicit Types st : PolygonMerger (property_type := property_type) (num := num).

Lemma mergeFrame_refl st : mergeFrame st st.
Proof. by repeat split. Qed.

Lemma mergeFrame_trans st1 st2 st3 :
  mergeFrame st1 st2 -> mergeFrame st2 st3 -> mergeFrame st1 st3.
Proof.
  intros (Hs & Hb & Hd & Hm & Hp & Hon & Hoff)
         (Hs' & Hb' & Hd' & Hm' & Hp' & Hon' & Hoff').
  split; [congruence|]. split; [congruence|]. split; [congruence|].
  split; [by etrans|]. split; [by etrans|]. split.
  - intros Hc. rewrite Hon' by congruence. by apply Hon.
  - intros Hc. rewrite Hoff' by congruence. by apply Hoff.
Qed.

Lemma redirectProperties_subseteq (prop : property_type)
    (others : list property_type) (m : gmap property_type property_type) :
  m ⊆ redirectProperties prop others m.
Proof.
  unfold redirectProperties. revert m.
  induction others as [|pi others IH]; intros m; simpl; [done|].
  etrans; [|apply IH]. unfold umap_insert.
  destruct (m !! pi) eqn:Hpi; [done|]. by apply insert_subseteq.
Qed.

Lemma processResult_frame
    (acc : list (PolygonWithProp property_type num) * PolygonMerger) result acc' :
  processResult acc result = Some acc' -> mergeFrame acc.2 acc'.2.
Proof.
  destruct acc as [polygons st], result as [properties outs0].
  unfold processResult.
  destruct (head properties) as [prop|]; [|done]. simpl.
  case_bool_decide.
  - destruct (checkPropertyDiff (m_mergeSettings st)) eqn:Hc; simpl.
    + try case_bind. intros [= <-]. simpl. repeat split; try done.
      * by apply prefix_app_r.
      * rewrite Hc. done.
    + case_bind. intros [= <-]. simpl. repeat split; try done.
      * apply redirectProperties_subseteq.
      * rewrite Hc. done.
  - case_bind. intros [= <-]. apply mergeFrame_refl.
Qed.

Lemma MergePolygons_frame st polygons r :
  MergePolygons property_merge st polygons = Some r -> mergeFrame st r.2.
Proof.
  unfold MergePolygons. case_bool_decide; [intros [= <-]; apply mergeFrame_refl|].
  intros Hloop.
  apply (forLoop_invariant _ (fun acc => mergeFrame st acc.2) _
           (fun s i s' _ Hb Hs =>
              mergeFrame_trans _ _ _ Hs (processResult_frame s i s' Hb))
           _ _ Hloop).
  apply mergeFrame_refl.
Qed.

Lemma mergeSubNodeGroup_frame acc group acc' :
  mergeSubNodeGroup property_merge ClearNode acc group = Some acc' ->
  mergeFrame acc.2 acc'.2.
Proof.
  destruct acc as [[children mergedObjs] st]. unfold mergeSubNodeGroup.
  destruct (forLoop _ _ _) as [r|]; [|done]. simpl.
  destruct (MergePolygons property_merge st r.2) as [m|] eqn:E; [|done].
  simpl. intros [= <-]. simpl. by apply MergePolygons_frame in E.
Qed.

Lemma mergeOwnRegion_frame node st r :
  mergeOwnRegion area property_merge BuildNode ClearNode
    ConnectivityExtraction connected_components node st = Some r ->
  mergeFrame st r.2.
Proof.
  unfold mergeOwnRegion.
  destruct (GetOverlappedSubTaskNodes _ _ _) as [groups|]; [|done]. simpl.
  destruct (forLoop _ groups _) as [[[children mergedObjs] st1]|] eqn:E; [|done].
  simpl.
  assert (Hst1 : mergeFrame st st1).
  { apply (forLoop_invariant _ (fun acc => mergeFrame st acc.2) _
             (fun s i s' _ Hb Hs =>
                mergeFrame_trans _ _ _ Hs (mergeSubNodeGroup_frame s i s' Hb))
             _ _ E). apply mergeFrame_refl. }
  destruct (GetObjs _) as [|o objs]; simpl.
  - intros [= <-]. done.
  - destruct (MergePolygons _ _ _) as [m|] eqn:Em; [|done]. simpl.
    intros [= <-]. simpl. apply MergePolygons_frame in Em.
    by eapply mergeFrame_trans.
Qed.

Lemma MergeRegion_frame node : forall st r,
  MergeRegion area property_merge BuildNode ClearNode
    ConnectivityExtraction connected_components node st = Some r ->
  mergeFrame st r.2.
Proof.
  induction node as [b objs cs IH] using RectNode_nested_ind.
  intros st r. simpl.
  destruct (mergeChildren _ cs st) as [rc|] eqn:E; [|done]. simpl.
  intros Hown. apply mergeOwnRegion_frame in Hown.
  eapply mergeFrame_trans; [|exact Hown].
  clear Hown r. revert st rc E.
  induction IH as [|c cs Hc _ IHcs]; intros st rc; simpl.
  - intros [= <-]. apply mergeFrame_refl.
  - destruct (MergeRegion _ _ _ _ _ _ c st) as [rc1|] eqn:E1; [|done]. simpl.
    destruct (mergeChildren _ cs rc1.2) as [rcs|] eqn:E2; [|done]. simpl.
    intros [= <-]. simpl.
    eapply mergeFrame_trans; [by apply Hc | by eapply IHcs].
Qed.

Lemma CleanPolygons_fields st st' :
  CleanPolygons simplify st = Some st' ->
  m_mergeSettings st' = m_mergeSettings st /\ m_bbox st' = m_bbox st
  /\ m_propertyMap st' = m_propertyMap st
  /\ m_propDiffAreas st' = m_propDiffAreas st
  /\ (m_datas st = [] -> m_datas st' = []).
Proof.
  unfold CleanPolygons. destruct (GetAllObjects (m_mergeTaskTree st)).
  - destruct (mapM _ (m_datas st)) as [ds|] eqn:E; [|done]. simpl.
    intros [= <-]. simpl. repeat split. intros Hd. rewrite Hd in E.
    by injection E as <-.
  - destruct (updateObjects _ _) as [t|]; [|done]. simpl.
    intros [= <-]. simpl. by repeat split.
Qed.

Lemma PreProcess_fields st st' :
  PreProcess simplify Build st = Some st' ->
  m_mergeSettings st' = m_mergeSettings st /\ m_bbox st' = m_bbox st
  /\ m_propertyMap st' = m_propertyMap st
  /\ m_propDiffAreas st' = m_propDiffAreas st
  /\ m_datas st' = [].
Proof.
  unfold PreProcess.
  destruct (_ && _).
  - destruct (CleanPolygons simplify st) as [st1|] eqn:E; [|done]. simpl.
    intros [= <-]. simpl.
    destruct (CleanPolygons_fields _ _ E) as (-> & -> & -> & -> & _).
    by repeat split.
  - simpl. intros [= <-]. simpl. by repeat split.
Qed.

Lemma PostProcess_fields st st' :
  PostProcess area simplify Build st = Some st' ->
  m_mergeSettings st' = m_mergeSettings st /\ m_bbox st' = m_bbox st
  /\ m_propertyMap st' = m_propertyMap st
  /\ m_propDiffAreas st' = m_propDiffAreas st
  /\ (m_datas st = [] -> m_datas st' = []).
Proof.
  unfold PostProcess.
  assert (Hclean : forall st1,
            (if negb (Qeq_bool (cleanPointDist (m_mergeSettings st)) 0)
                && math.isPositive (NT := float_t)
                     (cleanPointDist (m_mergeSettings st))
             then CleanPolygons simplify st else Some st) = Some st1 ->
            m_mergeSettings st1 = m_mergeSettings st /\ m_bbox st1 = m_bbox st
            /\ m_propertyMap st1 = m_propertyMap st
            /\ m_propDiffAreas st1 = m_propDiffAreas st
            /\ (m_datas st = [] -> m_datas st1 = [])).
  { intros st1. destruct (_ && _); [apply CleanPolygons_fields|].
    intros [= <-]. by repeat split. }
  destruct (if _ && _ then CleanPolygons simplify st else Some st)
    as [st1|]; [|done].
  destruct (Hclean st1 eq_refl) as (Hs & Hb & Hm & Hp & Hd). simpl.
  intros [= <-]. destruct (_ && _); simpl; by repeat split.
Qed.

(** What [Merge] leaves of the merger. *)
Lemma Merge_frame st st' :
  Merge area simplify property_merge Build BuildNode ClearNode
    ConnectivityExtraction connected_components st = Some st' ->
  m_mergeSettings st' = m_mergeSettings st
  /\ m_bbox st' = m_bbox st
  /\ m_datas st' = []
  /\ m_propertyMap st ⊆ m_propertyMap st'
  /\ m_propDiffAreas st `prefix_of` m_propDiffAreas st'
  /\ (checkPropertyDiff (m_mergeSettings st) = true ->
        m_propertyMap st' = m_propertyMap st)
  /\ (checkPropertyDiff (m_mergeSettings st) = false ->
        m_propDiffAreas st' = m_propDiffAreas st).
Proof.
  unfold Merge.
  destruct (PreProcess simplify Build st) as [st1|] eqn:Epre; [|done]. simpl.
  destruct (MergeRegion _ _ _ _ _ _ _ st1) as [r|] eqn:Ereg; [|done]. simpl.
  intros Epost.
  destruct (PreProcess_fields _ _ Epre) as (Hs1 & Hb1 & Hm1 & Hp1 & Hd1).
  destruct (MergeRegion_frame _ _ _ Ereg)
    as (Hs2 & Hb2 & Hd2 & Hm2 & Hp2 & Hon & Hoff).
  destruct (PostProcess_fields _ _ Epost) as (Hs3 & Hb3 & Hm3 & Hp3 & Hd3).
  simpl in *.
  split; [congruence|]. split; [congruence|].
  split; [apply Hd3; congruence|].
  split; [rewrite Hm3, <- Hm1; done|].
  split; [rewrite Hp3, <- Hp1; done|]. split.
  - intros Hc. rewrite Hm3, Hon by congruence. done.
  - intros Hc. rewrite Hp3, Hoff by congruence. done.
Qed.

(** X5.  A merge never takes an entry out of the property map and never
    changes one, and never drops a conflict record: the map after [Merge]
    holds every redirect of before, and the conflict records of before are
    the first of those after.  The settings and the bounding box are as they
    were, and no record is left pending. *)
Theorem Merge_keeps_redirects st st' :
  Merge area simplify property_merge Build BuildNode ClearNode
    ConnectivityExtraction connected_components st = Some st' ->
  (forall p q, m_propertyMap st !! p = Some q -> m_propertyMap st' !! p = Some q)
  /\ (exists more, m_propDiffAreas st' = m_propDiffAreas st ++ more)
  /\ m_mergeSettings st' = m_mergeSettings st
  /\ m_bbox st' = m_bbox st
  /\ m_datas st' = [].
Proof.
  intros Hmerge.
  destruct (Merge_frame _ _ Hmerge) as (Hs & Hb & Hd & Hm & Hp & _).
  split; [|by repeat split].
  intros p q Hpq. by eapply lookup_weaken.
Qed.

(** X6.  [checkPropertyDiff] selects which of the two a merge may extend: with
    the flag on no redirect is added to the property map, with the flag off
    no conflict record is added. *)
Theorem Merge_flag_exclusive st st' :
  Merge area simplify property_merge Build BuildNode ClearNode
    ConnectivityExtraction connected_components st = Some st' ->
  if checkPropertyDiff (m_mergeSettings st)
  then m_propertyMap st' = m_propertyMap st
  else m_propDiffAreas st' = m_propDiffAreas st.
Proof.
  intros Hmerge.
  destruct (Merge_frame _ _ Hmerge) as (_ & _ & _ & _ & _ & Hon & Hoff).
  destruct (checkPropertyDiff (m_mergeSettings st)); auto.
Qed.
End MergeFrame.

Lemma Merge_keeps_redirects_witness :
  exists st',
    Merge (NT := Examples.NTZ) (PM := IntegralPointIndexMap)
      (shoelaceArea (NT := Examples.NTZ)) radialSimplify
      (fun _ => Examples.twoSquaresRegions) Cases.bucketBuild oneBucket
      emptiedNode noConnection ownComponents
      (Cases.twoPending defaultMergeSettings) = Some st'
    /\ (forall p q : nat,
          m_propertyMap (Cases.twoPending defaultMergeSettings) !! p = Some q ->
          m_propertyMap st' !! p = Some q)
    /\ (exists more,
          m_propDiffAreas st'
          = m_propDiffAreas (Cases.twoPending defaultMergeSettings) ++ more)
    /\ m_mergeSettings st' = defaultMergeSettings
    /\ m_bbox st' = None
    /\ m_datas st' = [].
Proof.
  eexists. split; [vm_compute; reflexivity|].
  apply (Merge_keeps_redirects (NT := Examples.NTZ) (PM := IntegralPointIndexMap)
           (shoelaceArea (NT := Examples.NTZ)) radialSimplify
           (fun _ => Examples.twoSquaresRegions) Cases.bucketBuild oneBucket
           emptiedNode noConnection ownComponents
           (Cases.twoPending defaultMergeSettings)).
  vm_compute. reflexivity.
Defined.

Lemma Merge_flag_exclusive_witness :
  exists st',
    Merge (NT := Examples.NTZ) (PM := IntegralPointIndexMap)
      (shoelaceArea (NT := Examples.NTZ)) radialSimplify
      (fun _ => Examples.twoSquaresRegions) Cases.bucketBuild oneBucket
      emptiedNode noConnection ownComponents
      (Cases.twoPending Examples.diffSettings) = Some st'
    /\ m_propertyMap st' = Examples.chainedMap.
Proof.
  eexists. split; [vm_compute; reflexivity|].
  apply (Merge_flag_exclusive (NT := Examples.NTZ) (PM := IntegralPointIndexMap)
           (shoelaceArea (NT := Examples.NTZ)) radialSimplify
           (fun _ => Examples.twoSquaresRegions) Cases.bucketBuild oneBucket
           emptiedNode noConnection ownComponents
           (Cases.twoPending Examples.diffSettings)).
  vm_compute. reflexivity.
Defined.

(** ** What a single-level merge emits *)

Section MergeEmits.
Context {property_type num : Type} `{Countable property_type}
        {NT : NumType num} {PM : Point2DIndexMap num}.
Variable property_merge :
  list (list (Point2D num) * property_type * bool) ->
  list (list property_type * list (Polyline2D num)).

Lemma makePolygonData_property (inp0 : Polyline2D num) (prop : property_type)
    (pd : PolygonWithProp property_type num) :
  makePolygonData inp0 prop = Some pd -> property pd = prop.
Proof.
  unfold makePolygonData.
  destruct (dropClosingPoint inp0) as [inp|]; [|done]. simpl.
  destruct (reconState inp (length inp)) as [st|]; [|done]. simpl.
  destruct (decide (length inp = 0)); [done|].
  destruct (walkRing _ _ _ _ _ _) as [r|]; [|done]. simpl.
  destruct (inp !! r.2); [|done]. simpl. by intros [= <-].
Qed.

Lemma emitted_properties (prop : property_type) (outs : list (Polyline2D num))
    (pds : list (PolygonWithProp property_type num)) :
  mapM (fun out => makePolygonData out prop) outs = Some pds ->
  map property pds = replicate (length outs) prop.
Proof.
  intros Hm. apply mapM_Some in Hm.
  induction Hm as [|out pd outs pds Hpd _ IH]; [done|]. simpl.
  by rewrite IH, (makePolygonData_property _ _ _ Hpd).
Qed.

Lemma processResult_emits
    (polygons : list (PolygonWithProp property_type num)) (st : PolygonMerger)
    result polygons' st' :
  processResult (polygons, st) result = Some (polygons', st') ->
  let check := checkPropertyDiff (m_mergeSettings st) in
  map property polygons' = map property polygons ++ emittedTags check result
  /\ m_propDiffAreas st'
     = m_propDiffAreas st
       ++ (if check && bool_decide (1 < length result.1) then [result] else [])
  /\ m_propertyMap st'
     = (if check then m_propertyMap st else redirectsOf (m_propertyMap st) result).
Proof.
  destruct result as [properties outs0]. unfold processResult, emittedTags.
  destruct properties as [|prop others]; [done|]. simpl head. simpl.
  destruct others as [|p1 others]; simpl.
  - rewrite andb_false_r.
    destruct (mapM _ outs0) as [pds|] eqn:E; [|done]. simpl. intros [= <- <-].
    rewrite map_app, (emitted_properties _ _ _ E), app_nil_r.
    by destruct (checkPropertyDiff _).
  - rewrite andb_true_r.
    destruct (checkPropertyDiff (m_mergeSettings st)); simpl.
    + intros [= <- <-]. simpl. by rewrite !app_nil_r.
    + destruct (mapM _ outs0) as [pds|] eqn:E; [|done]. simpl. intros [= <- <-].
      simpl. by rewrite map_app, (emitted_properties _ _ _ E), app_nil_r.
Qed.

Lemma forLoop_processResult_emits
    (results : list (list property_type * list (Polyline2D num))) :
  forall (polygons : list (PolygonWithProp property_type num))
         (st : PolygonMerger) polygons' st',
    forLoop processResult results (polygons, st) = Some (polygons', st') ->
    let check := checkPropertyDiff (m_mergeSettings st) in
    map property polygons'
    = map property polygons ++ flat_map (emittedTags check) results
    /\ m_propDiffAreas st'
       = m_propDiffAreas st
         ++ (if check
             then List.filter (fun res => bool_decide (1 < length res.1)) results
             else [])
    /\ m_propertyMap st'
       = (if check then m_propertyMap st
          else fold_left redirectsOf results (m_propertyMap st)).
Proof.
  induction results as [|result results IH]; intros polygons st polygons' st'.
  - simpl. intros [= <- <-].
    destruct (checkPropertyDiff _); by rewrite !app_nil_r.
  - cbn [forLoop].
    destruct (processResult (polygons, st) result) as [[ps1 st1]|] eqn:E;
      [|done]. cbn [mbind option_bind]. intros Hloop.
    pose proof (processResult_settings _ _ _ E) as Hset. simpl in Hset.
    destruct (processResult_emits _ _ _ _ _ E) as (Hp1 & Hd1 & Hm1).
    destruct (IH _ _ _ _ Hloop) as (Hp & Hd & Hm).
    rewrite Hset in Hp, Hd, Hm. simpl.
    split; [by rewrite Hp, Hp1, <- app_assoc|].
    split.
    + rewrite Hd, Hd1, <- app_assoc. f_equal.
      destruct (checkPropertyDiff (m_mergeSettings st)); simpl; [|done].
      by destruct (bool_decide _).
    + rewrite Hm, Hm1. by destruct (checkPropertyDiff (m_mergeSettings st)).
Qed.

(** X7.  What [MergePolygons] emits for two records or more.  The records
    come in the order of the results of the boolean primitive, one per
    polyline, tagged with the first property of the result's set; with
    [checkPropertyDiff] on, the results with several properties emit nothing
    and are, in their order, what the conflict records gain, and the
    property map stays; with it off, the property map gains the redirects of
    the results in their order, and the conflict records stay. *)
Theorem MergePolygons_emits (st : PolygonMerger)
    (polygons : list (PolygonWithProp property_type num)) r :
  MergePolygons property_merge st polygons = Some r ->
  1 < length polygons ->
  let results := property_merge (mergerInputs (m_propertyMap st) polygons) in
  let check := checkPropertyDiff (m_mergeSettings st) in
  map property r.1 = flat_map (emittedTags check) results
  /\ m_propDiffAreas r.2
     = m_propDiffAreas st
       ++ (if check
           then List.filter (fun res => bool_decide (1 < length res.1)) results
           else [])
  /\ m_propertyMap r.2
     = (if check then m_propertyMap st
        else fold_left redirectsOf results (m_propertyMap st)).
Proof.
  intros Hrun Hlen. unfold MergePolygons in Hrun.
  rewrite bool_decide_eq_false_2 in Hrun by lia.
  destruct r as [polygons' st'].
  by destruct (forLoop_processResult_emits _ _ _ _ _ Hrun) as (Hp & Hd & Hm).
Qed.
End MergeEmits.

Lemma MergePolygons_emits_witness :
  exists r,
    MergePolygons (NT := Examples.NTZ) (PM := IntegralPointIndexMap)
      (fun _ => Examples.twoSquaresRegions)
      (Examples.emptyMerger Examples.diffSettings)
      [Examples.squareA; Examples.squareB] = Some r
    /\ map property r.1 = [1; 2]
    /\ m_propDiffAreas r.2 = [([1; 2], [Examples.overlapAB])]
    /\ m_propertyMap r.2 = ∅.
Proof.
  eexists. split; [vm_compute; reflexivity|].
  apply (MergePolygons_emits (NT := Examples.NTZ) (PM := IntegralPointIndexMap)
           (fun _ => Examples.twoSquaresRegions)
           (Examples.emptyMerger Examples.diffSettings)
           [Examples.squareA; Examples.squareB]).
  - vm_compute. reflexivity.
  - simpl. lia.
Defined.

(** ** The tiny-area and tiny-hole filters *)

Lemma filter_sublist {A : Type} (f : A -> bool) (l : list A) :
  List.filter f l `sublist_of` l.
Proof.
  induction l as [|x l IH]; simpl; [constructor|].
  destruct (f x); by constructor.
Qed.

Lemma filter_idemp {A : Type} (f : A -> bool) (l : list A) :
  List.filter f (List.filter f l) = List.filter f l.
Proof.
  induction l as [|x l IH]; [done|]. simpl.
  destruct (f x) eqn:E; [|done]. simpl. by rewrite E, IH.
Qed.

Lemma filter_filter {A : Type} (f g : A -> bool) (l : list A) :
  List.filter f (List.filter g l) = List.filter (fun x => g x && f x) l.
Proof.
  induction l as [|x l IH]; [done|]. simpl.
  destruct (g x); simpl; [|done]. destruct (f x); by rewrite IH.
Qed.

Section TinyFilters.
Context {property_type num : Type} `{Countable property_type}
        {NT : NumType num} {PM : Point2DIndexMap num}.
Variable area : Polygon2D num -> Q.

Lemma eraseTinyArea_filter (a : Q)
    (polygons : list (PolygonWithProp property_type num)) :
  eraseTinyArea area a polygons
  = List.filter
      (fun pd => negb (Qlt_bool float_epsilon (a - area (solid pd)))) polygons.
Proof.
  induction polygons as [|pd polygons IH]; [done|].
  simpl. unfold math.LT at 1. simpl. unfold CoveredArea at 1.
  destruct (Qlt_bool float_epsilon (a - area (solid pd))); simpl; by rewrite IH.
Qed.

(** X8.  [FilterOutTinyArea] on a list keeps the records in their order and
    as they are, and drops a record exactly when [ignoreTinySolid] is set,
    [tinySolidArea] is positive, and the area of the outline lies below
    [tinySolidArea] by more than the epsilon of [float_t]; filtering once
    more changes nothing. *)
Theorem FilterOutTinyArea_list_spec (st : PolygonMerger)
    (polygons : list (PolygonWithProp property_type num)) :
  let s := m_mergeSettings st in
  let kept := FilterOutTinyArea_list area st polygons in
  kept `sublist_of` polygons
  /\ (forall pd, In pd kept
        <-> In pd polygons
            /\ ~ (ignoreTinySolid s = true /\ (0 < tinySolidArea s)%Q
                  /\ (float_epsilon < tinySolidArea s - area (solid pd))%Q))
  /\ FilterOutTinyArea_list area st kept = kept.
Proof.
  intros s kept. unfold kept, FilterOutTinyArea_list. fold s.
  destruct (ignoreTinySolid s) eqn:Hig; cbn [andb].
  - destruct (math.isPositive (NT := float_t) (tinySolidArea s)) eqn:Hpos.
    + apply float_isPositive_iff in Hpos. rewrite !eraseTinyArea_filter.
      split; [apply filter_sublist|]. split; [|apply filter_idemp].
      intros pd. rewrite filter_In, negb_true_iff.
      rewrite <- (Qlt_bool_iff float_epsilon).
      destruct (Qlt_bool _ _); intuition congruence.
    + split; [done|]. split; [|done]. intros pd. split; [|tauto].
      intros Hin. split; [done|]. intros (_ & Hp & _).
      apply float_isPositive_iff in Hp. congruence.
  - split; [done|]. split; [|done]. intros pd. split; [|tauto].
    intros Hin. split; [done|]. by intros (? & _).
Qed.

(** X9.  [FilterOutTinyHoles] returns as many records as it is given, each
    with the property and the outline it had and with holes from among its
    holes, in their order; filtering once more changes nothing, and records
    without holes come back as they are. *)
Theorem FilterOutTinyHoles_frame (st : PolygonMerger)
    (polygons : list (PolygonWithProp property_type num)) :
  let out := FilterOutTinyHoles area st polygons in
  Forall2 (fun pd pd' => property pd' = property pd /\ solid pd' = solid pd
                         /\ holes pd' `sublist_of` holes pd) polygons out
  /\ FilterOutTinyHoles area st out = out
  /\ (Forall (fun pd => holes pd = []) polygons -> out = polygons).
Proof.
  intros out. unfold out, FilterOutTinyHoles.
  destruct (_ && _).
  - split; [|split].
    + induction polygons as [|pd polygons IH]; constructor; [|done].
      simpl. rewrite eraseTinyHoles_filter. repeat split. apply filter_sublist.
    + rewrite map_map. apply map_ext. intros pd. unfold RemoveTinyHoles. simpl.
      by rewrite !eraseTinyHoles_filter, filter_idemp.
    + induction 1 as [|pd polygons Hpd _ IH]; [done|]. simpl. rewrite IH.
      f_equal. destruct pd as [p s hs]. simpl in Hpd. subst hs. done.
  - split; [|done]. induction polygons; constructor; done.
Qed.

(** X10.  Removing tiny holes twice is removing them once with the larger of
    the two thresholds, whatever the order. *)
Theorem RemoveTinyHoles_compose (a b : Q)
    (pd : PolygonWithProp property_type num) :
  RemoveTinyHoles area a (RemoveTinyHoles area b pd)
  = RemoveTinyHoles area (if Qle_bool a b then b else a) pd
  /\ RemoveTinyHoles area a (RemoveTinyHoles area b pd)
     = RemoveTinyHoles area b (RemoveTinyHoles area a pd).
Proof.
  assert (Hmax : forall a b hs,
            eraseTinyHoles area a (eraseTinyHoles area b hs)
            = eraseTinyHoles area (if Qle_bool a b then b else a) hs).
  { clear a b. intros a b hs. rewrite !eraseTinyHoles_filter, filter_filter.
    apply filter_ext. intros h.
    destruct (Qlt_bool float_epsilon (a - area h)) eqn:Ea,
             (Qlt_bool float_epsilon (b - area h)) eqn:Eb,
             (Qle_bool a b) eqn:Eab; simpl; rewrite ?Ea, ?Eb; try done;
      exfalso;
      repeat match goal with
             | H : Qlt_bool _ _ = true |- _ => apply Qlt_bool_iff in H
             | H : Qlt_bool _ _ = false |- _ => apply Qlt_bool_false_iff in H
             | H : Qle_bool _ _ = true |- _ => apply Qle_bool_iff in H
             | H : Qle_bool ?x ?y = false |- _ =>
                 assert (y < x)%Q
                   by (apply Qnot_le_lt; intros Hle;
                       apply Qle_bool_iff in Hle; congruence);
                 clear H
             end; lra. }
  unfold RemoveTinyHoles. simpl. split.
  - by rewrite Hmax.
  - rewrite (Hmax a b), (Hmax b a). f_equal.
    assert (Heq : forall hs,
              eraseTinyHoles area (if Qle_bool a b then b else a) hs
              = eraseTinyHoles area (if Qle_bool b a then a else b) hs).
    { intros hs. rewrite !eraseTinyHoles_filter. apply filter_ext. intros h.
      destruct (Qle_bool a b) eqn:Eab, (Qle_bool b a) eqn:Eba; try done.
      - apply Qle_bool_iff in Eab, Eba.
        assert (Hab : (a == b)%Q) by lra.
        destruct (Qlt_bool float_epsilon (b - area h)) eqn:E1,
                 (Qlt_bool float_epsilon (a - area h)) eqn:E2; try done;
          exfalso;
          [apply Qlt_bool_iff in E1; apply Qlt_bool_false_iff in E2
          |apply Qlt_bool_iff in E2; apply Qlt_bool_false_iff in E1]; lra.
      - exfalso.
        assert (b < a)%Q
          by (apply Qnot_le_lt; intros Hle; apply Qle_bool_iff in Hle; congruence).
        assert (a < b)%Q
          by (apply Qnot_le_lt; intros Hle; apply Qle_bool_iff in Hle; congruence).
        lra. }
    apply Heq.
Qed.
End TinyFilters.

(** ** Connected components ([topology/IndexGraph.hpp]) *)

Lemma concat_insert_snoc {A : Type} (cc : list (list A)) (k : nat)
    (comp : list A) (x : A) :
  cc !! k = Some comp ->
  concat (<[k := comp ++ [x]]> cc) ≡ₚ x :: concat cc.
Proof.
  revert k. induction cc as [|c0 cc IH]; intros k Hk; [done|].
  destruct k as [|k]; simpl in *.
  - injection Hk as ->. rewrite <- app_assoc. simpl.
    by rewrite <- Permutation_middle.
  - rewrite (IH k Hk). by rewrite <- Permutation_middle.
Qed.

Lemma concat_filter_sublist {A : Type} (P : list A -> Prop)
    `{!forall l, Decision (P l)} (cc : list (list A)) :
  concat (filter P cc) `sublist_of` concat cc.
Proof.
  induction cc as [|c0 cc IH]; [done|]. rewrite filter_cons. simpl.
  destruct (decide (P c0)); simpl.
  - by apply sublist_app.
  - by apply sublist_inserts_l.
Qed.

Lemma concat_replicate_nil {A : Type} (n : nat) :
  concat (replicate n (@nil A)) = [].
Proof. induction n; simpl; done. Qed.

Section Components.
Variable connected_components : list (list nat) -> list nat * nat.

(** The state of the loop of [ConnectedComponents] before vertex [a]: one
    list per component, holding in increasing order the vertices below [a]
    that carry its label. *)
Lemma components_step (c : list nat) (numComp a : nat) (cc : list (list nat)) :
  length cc = numComp ->
  (forall k, k < numComp ->
     cc !! k = Some (filter (fun i => c !! i = Some k) (seq 0 a))) ->
  concat cc ≡ₚ seq 0 a ->
  forall ci, c !! a = Some ci -> ci < numComp ->
    exists comp,
      cc !! ci = Some comp
      /\ length (<[ci := comp ++ [a]]> cc) = numComp
      /\ (forall k, k < numComp ->
            <[ci := comp ++ [a]]> cc !! k
            = Some (filter (fun i => c !! i = Some k) (seq 0 (S a))))
      /\ concat (<[ci := comp ++ [a]]> cc) ≡ₚ seq 0 (S a).
Proof.
  intros Hlen Hcc Hperm ci Hci Hlt. eexists. split; [by apply Hcc|].
  split; [by rewrite length_insert|]. split.
  - intros k Hk. rewrite seq_S, filter_app, filter_cons, filter_nil.
    simpl. destruct (decide (k = ci)) as [->|Hne].
    + rewrite list_lookup_insert_eq by lia.
      by rewrite decide_True.
    + rewrite list_lookup_insert_ne by done. rewrite Hcc by done.
      rewrite decide_False by congruence. by rewrite app_nil_r.
  - rewrite concat_insert_snoc by (by apply Hcc).
    rewrite Hperm, seq_S. simpl. apply Permutation_cons_append.
Qed.

Lemma components_loop (c : list nat) (numComp : nat) (len : nat) :
  forall a cc,
    a + len <= length c ->
    length cc = numComp ->
    (forall k, k < numComp ->
       cc !! k = Some (filter (fun i => c !! i = Some k) (seq 0 a))) ->
    concat cc ≡ₚ seq 0 a ->
    let body := fun (cc : list (list nat)) i =>
      ci ← c !! i; comp ← cc !! ci; Some (<[ci := comp ++ [i]]> cc) in
    (Forall (fun l => l < numComp) (take len (drop a c)) ->
       exists cc',
         forLoop body (seq a len) cc = Some cc'
         /\ length cc' = numComp
         /\ (forall k, k < numComp ->
               cc' !! k = Some (filter (fun i => c !! i = Some k) (seq 0 (a + len))))
         /\ concat cc' ≡ₚ seq 0 (a + len))
    /\ (is_Some (forLoop body (seq a len) cc) ->
          Forall (fun l => l < numComp) (take len (drop a c))).
Proof.
  induction len as [|len IH]; intros a cc Ha Hlen Hcc Hperm body.
  - split; [|by constructor]. intros _. exists cc. rewrite Nat.add_0_r.
    by repeat split.
  - destruct (lookup_lt_is_Some_2 c a ltac:(lia)) as [ci Hci].
    rewrite (drop_S c ci a Hci).
    change (seq a (S len)) with (a :: seq (S a) len). cbn [take forLoop].
    assert (Hb : body cc a = comp ← cc !! ci; Some (<[ci := comp ++ [a]]> cc))
      by (unfold body; by rewrite Hci).
    rewrite Hb.
    destruct (decide (ci < numComp)) as [Hlt|Hge].
    + destruct (components_step c numComp a cc Hlen Hcc Hperm ci Hci Hlt)
        as (comp & Hcomp & Hlen' & Hcc' & Hperm').
      rewrite Hcomp. cbn [mbind option_bind].
      destruct (IH (S a) _ ltac:(lia) Hlen' Hcc' Hperm') as [Hfwd Hbwd].
      replace (a + S len) with (S a + len) by lia. split.
      * intros Hall. apply Forall_cons in Hall as [_ Hall]. by apply Hfwd.
      * intros Hsome. constructor; [done | by apply Hbwd].
    + assert (Hnone : cc !! ci = None) by (apply lookup_ge_None; lia).
      rewrite Hnone. cbn [mbind option_bind]. split.
      * intros Hall. apply Forall_cons in Hall as [? _]. lia.
      * by intros [? ?].
Qed.

Lemma ConnectedComponents_run (g : list (list nat)) (c : list nat)
    (numComp : nat) :
  connected_components g = (c, numComp) ->
  (is_Some (ConnectedComponents connected_components g)
   <-> Forall (fun l => l < numComp) c)
  /\ forall cc, ConnectedComponents connected_components g = Some cc ->
       length cc = numComp
       /\ (forall k, k < numComp ->
             cc !! k = Some (filter (fun i => c !! i = Some k) (seq 0 (length c))))
       /\ concat cc ≡ₚ seq 0 (length c).
Proof.
  intros Hg. unfold ConnectedComponents. rewrite Hg.
  destruct (components_loop c numComp (length c) 0 (replicate numComp []))
    as [Hfwd Hbwd].
  - lia.
  - apply length_replicate.
  - intros k Hk. by apply lookup_replicate_2.
  - simpl. by rewrite concat_replicate_nil.
  - rewrite drop_0, firstn_all in Hfwd, Hbwd. simpl in Hfwd, Hbwd. split.
    + split; [exact Hbwd|]. intros Hall.
      destruct (Hfwd Hall) as (cc' & Hrun & _). by exists cc'.
    + intros cc Hrun.
      destruct (Hfwd (Hbwd (ex_intro _ cc Hrun))) as (cc' & Hrun' & Hres).
      rewrite Hrun in Hrun'. by injection Hrun' as <-.
Qed.

(** X11.  [ConnectedComponents] is defined exactly when every label that
    [boost::connected_components] reports lies below the number of components
    (otherwise [cc[c[i]]] is out of range).  It then returns one list per
    component, the list of label [k] holding in increasing order the vertices
    labelled [k]; together the lists hold every vertex once. *)
Theorem ConnectedComponents_partition (g : list (list nat)) (c : list nat)
    (numComp : nat) :
  connected_components g = (c, numComp) ->
  (is_Some (ConnectedComponents connected_components g)
   <-> Forall (fun l => l < numComp) c)
  /\ forall cc, ConnectedComponents connected_components g = Some cc ->
       length cc = numComp
       /\ (forall k, k < numComp ->
             cc !! k = Some (filter (fun i => c !! i = Some k) (seq 0 (length c))))
       /\ concat cc ≡ₚ seq 0 (length c).
Proof. apply ConnectedComponents_run. Qed.

(** X12.  The groups of overlapping children that [GetOverlappedSubTaskNodes]
    returns: every group has two members or more; no child is in two groups
    or twice in one; every member is a vertex of the connection graph; the
    members of a group carry one label; and two vertices with one label are
    together in a group. *)
Theorem GetOverlappedSubTaskNodes_groups {property_type num : Type}
    (ConnectivityExtraction : list (Box2D num) -> list (list nat))
    (node : RectNode num (PolygonWithProp property_type num))
    (groups : list (list nat)) :
  GetOverlappedSubTaskNodes ConnectivityExtraction connected_components node
    = Some groups ->
  let c := (connected_components
              (ConnectivityExtraction (map GetBBox (GetChildren node)))).1 in
  Forall (fun group => 2 <= length group) groups
  /\ NoDup (concat groups)
  /\ (forall group i, group ∈ groups -> i ∈ group -> i < length c)
  /\ (forall group i j, group ∈ groups -> i ∈ group -> j ∈ group ->
        c !! i = c !! j)
  /\ (forall i j l, i <> j -> c !! i = Some l -> c !! j = Some l ->
        exists group, group ∈ groups /\ i ∈ group /\ j ∈ group).
Proof.
  intros Hrun c. unfold GetOverlappedSubTaskNodes in Hrun.
  set (g := ConnectivityExtraction (map GetBBox (GetChildren node))) in *.
  destruct (ConnectedComponents connected_components g) as [cc|] eqn:Hcc;
    [|done]. simpl in Hrun. injection Hrun as <-.
  destruct (connected_components g) as [c0 numComp] eqn:Hg. subst c. simpl.
  destruct (ConnectedComponents_run g c0 numComp Hg) as [_ Hspec].
  destruct (Hspec cc Hcc) as (Hlen & Hlook & Hperm).
  assert (Hin : forall group, group ∈ cc ->
            exists k, group = filter (fun i => c0 !! i = Some k) (seq 0 (length c0))).
  { intros group (k & Hk)%list_elem_of_lookup_1. exists k.
    pose proof (lookup_lt_Some _ _ _ Hk) as Hlt. rewrite Hlen in Hlt.
    rewrite (Hlook k Hlt) in Hk. by injection Hk. }
  split; [|split; [|split; [|split]]].
  - apply Forall_forall. intros group [Hg2 _]%list_elem_of_filter. lia.
  - eapply sublist_NoDup; [|apply concat_filter_sublist].
    rewrite Hperm. apply NoDup_seq.
  - intros group i [_ Hgroup]%list_elem_of_filter Hi.
    destruct (Hin group Hgroup) as (k & ->).
    apply list_elem_of_filter in Hi as [Hi _]. by eapply lookup_lt_Some.
  - intros group i j [_ Hgroup]%list_elem_of_filter Hi Hj.
    destruct (Hin group Hgroup) as (k & ->).
    apply list_elem_of_filter in Hi as [Hi _].
    apply list_elem_of_filter in Hj as [Hj _]. congruence.
  - intros i j l Hne Hi Hj.
    assert (Hl : l < numComp).
    { destruct (ConnectedComponents_run g c0 numComp Hg) as [[Hall _] _].
      specialize (Hall (ex_intro _ cc Hcc)).
      rewrite Forall_forall in Hall. apply Hall.
      by eapply list_elem_of_lookup_2. }
    set (group := filter (fun i => c0 !! i = Some l) (seq 0 (length c0))).
    assert (Hig : i ∈ group).
    { apply list_elem_of_filter. split; [done|]. apply elem_of_seq.
      pose proof (lookup_lt_Some _ _ _ Hi). lia. }
    assert (Hjg : j ∈ group).
    { apply list_elem_of_filter. split; [done|]. apply elem_of_seq.
      pose proof (lookup_lt_Some _ _ _ Hj). lia. }
    exists group. split; [|done]. apply list_elem_of_filter. split.
    + destruct group as [|x [|y group]]; simpl; [|exfalso|lia].
      * by apply elem_of_nil in Hig.
      * apply list_elem_of_singleton in Hig, Hjg. congruence.
    + eapply list_elem_of_lookup_2. by apply Hlook.
Qed.
End Components.

Lemma ConnectedComponents_partition_witness :
  (is_Some (ConnectedComponents Cases.outerTwoConnected [])
   <-> Forall (fun l => l < 2) [0; 1; 0])
  /\ forall cc, ConnectedComponents Cases.outerTwoConnected [] = Some cc ->
       length cc = 2
       /\ (forall k, k < 2 ->
             cc !! k = Some (filter (fun i => [0; 1; 0] !! i = Some k)
                               (seq 0 (length [0; 1; 0]))))
       /\ concat cc ≡ₚ seq 0 (length [0; 1; 0]).
Proof.
  apply (ConnectedComponents_partition Cases.outerTwoConnected [] [0; 1; 0] 2).
  reflexivity.
Defined.

Lemma GetOverlappedSubTaskNodes_groups_witness :
  Forall (fun group => 2 <= length group) [[0; 2]]
  /\ NoDup (concat [[0; 2]])
  /\ (forall group i, group ∈ [[0; 2]] -> i ∈ group -> i < 3)
  /\ (forall group i j, group ∈ [[0; 2]] -> i ∈ group -> j ∈ group ->
        [0; 1; 0] !! i = [0; 1; 0] !! j)
  /\ (forall i j l, i <> j -> [0; 1; 0] !! i = Some l ->
        [0; 1; 0] !! j = Some l ->
        exists group, group ∈ [[0; 2]] /\ i ∈ group /\ j ∈ group).
Proof.
  apply (GetOverlappedSubTaskNodes_groups Cases.outerTwoConnected noConnection
           Cases.threeLeaves [[0; 2]]).
  reflexivity.
Defined.

(** ** The shape of the scheduled task flow *)

Section ScheduleShape.
Context {num A : Type}.

Lemma childToParent_step (tf : TaskFlow) (path : list nat) (i successor : nat) :
  childToParent tf -> tf_tasks tf !! successor = Some path ->
  childToParent (Precede (Emplace (path ++ [i]) tf).1 successor
                   (Emplace (path ++ [i]) tf).2).
Proof.
  intros (Hlen & Hsrc & Hedges) Hsucc. unfold childToParent. simpl.
  pose proof (lookup_lt_Some _ _ _ Hsucc) as Hlt.
  rewrite length_app. simpl. split; [lia|]. split.
  - rewrite fmap_app, Hsrc. simpl.
    replace (length (tf_tasks tf) + 1 - 1)
      with (S (length (tf_tasks tf) - 1)) by lia.
    rewrite seq_S. do 2 f_equal. lia.
  - intros a b [Hab|Hab]%elem_of_app.
    + destruct (Hedges a b Hab) as (Hba & q & j & Ha & Hb).
      split; [done|]. exists q, j.
      split; by apply lookup_app_l_Some.
    + apply list_elem_of_singleton in Hab as [= -> ->].
      split; [done|]. exists path, i. split.
      * by rewrite lookup_app_r, Nat.sub_diag by lia.
      * by apply lookup_app_l_Some.
Qed.

Lemma ScheduleSubTasks_childToParent (n : RectNode num A) :
  forall path successor tf,
    tf_tasks tf !! successor = Some path -> childToParent tf ->
    childToParent (ScheduleSubTasks n path successor tf).
Proof.
  induction n as [b objs cs IH] using RectNode_nested_ind.
  intros path successor tf. simpl. generalize 0 as i. revert tf.
  induction IH as [|c cs Hc _ IHcs]; intros tf i Hsucc Hwf; simpl; [done|].
  apply IHcs.
  - eapply tf_extends_task; [|exact Hsucc].
    eapply tf_extends_trans; [|apply ScheduleSubTasks_extends].
    apply Emplace_Precede_extends.
  - apply Hc.
    + simpl. by rewrite lookup_app_r, Nat.sub_diag by lia.
    + by apply (childToParent_step tf path i successor).
Qed.

(** X13.  The task flow that [ScheduleTasks] builds is a tree that leads to the
    task of the root: the first task is the root's; every other task is the
    source of exactly one edge, and the edges come in the order of their
    sources; every edge leads from the task of a node to the task of its
    parent, which was emplaced before it, so no cycle is scheduled. *)
Theorem ScheduleTasks_childToParent (tree : RectNode num A) :
  let tf := ScheduleTasks tree in
  tf_tasks tf !! 0 = Some []
  /\ (tf_edges tf).*1 = seq 1 (length (tf_tasks tf) - 1)
  /\ S (length (tf_edges tf)) = length (tf_tasks tf)
  /\ forall a b, (a, b) ∈ tf_edges tf ->
       b < a
       /\ exists path i,
            tf_tasks tf !! a = Some (path ++ [i])
            /\ tf_tasks tf !! b = Some path.
Proof.
  intros tf. unfold tf, ScheduleTasks. simpl.
  set (tf0 := mkTaskFlow [[]] []).
  assert (Hwf0 : childToParent tf0).
  { split; [simpl; lia|]. split; [done|]. intros a b Hab.
    by apply elem_of_nil in Hab. }
  destruct (ScheduleSubTasks_childToParent tree [] 0 tf0 eq_refl Hwf0)
    as (Hlen & Hsrc & Hedges).
  split; [|split; [exact Hsrc|split; [|exact Hedges]]].
  - eapply tf_extends_task; [apply ScheduleSubTasks_extends | done].
  - apply (f_equal length) in Hsrc.
    rewrite length_fmap, length_seq in Hsrc. lia.
Qed.

Lemma scheduleChildren_tasks (cs : list (RectNode num A)) :
  Forall (fun c => forall path successor tf,
            exists d, tf_tasks (ScheduleSubTasks c path successor tf)
                      = tf_tasks tf ++ d
                      /\ pathsBelow c path d) cs ->
  forall i0 path successor tf,
    exists d,
      tf_tasks (scheduleChildren ScheduleSubTasks path i0 successor cs tf)
      = tf_tasks tf ++ d
      /\ NoDup d
      /\ forall q, q ∈ d <->
           exists k ck r, cs !! k = Some ck /\ q = path ++ [i0 + k] ++ r
                          /\ is_Some (nodeAt ck r).
Proof.
  induction 1 as [|c cs Hc _ IHcs]; intros i0 path successor tf; simpl.
  - exists []. rewrite app_nil_r. split; [done|]. split; [constructor|].
    intros q. split; [by intros ?%elem_of_nil|]. by intros (k & ck & r & ? & _).
  - set (tf2 := mkTaskFlow (tf_tasks tf ++ [path ++ [i0]])
                  (tf_edges tf ++ [(length (tf_tasks tf), successor)])).
    destruct (Hc (path ++ [i0]) (length (tf_tasks tf)) tf2)
      as (dc & Hdc & Hnd_c & Hin_c).
    destruct (IHcs (S i0) path successor
                (ScheduleSubTasks c (path ++ [i0]) (length (tf_tasks tf)) tf2))
      as (dr & Hdr & Hnd_r & Hin_r).
    exists ([path ++ [i0]] ++ dc ++ dr). split; [|split].
    + unfold Precede, Emplace. simpl. fold tf2. rewrite Hdr, Hdc. simpl.
      by rewrite <- !app_assoc.
    + simpl. constructor; [|apply NoDup_app; split; [done|split; [|done]]].
      * intros [Hq|Hq]%elem_of_app.
        -- apply Hin_c in Hq as (r & Hr & Hq & _).
           rewrite <- app_assoc in Hq. apply app_inv_head in Hq.
           simpl in Hq. injection Hq as Hq. by subst r.
        -- apply Hin_r in Hq as (k & ck & r & _ & Hq & _).
           apply app_inv_head in Hq. simpl in Hq. injection Hq as Hq _. lia.
      * intros q Hq1 Hq2.
        apply Hin_c in Hq1 as (r & _ & -> & _).
        apply Hin_r in Hq2 as (k & ck & r' & _ & Hq & _).
        rewrite <- app_assoc in Hq. apply app_inv_head in Hq.
        simpl in Hq. injection Hq as Hq _. lia.
    + intros q. simpl. rewrite elem_of_cons, elem_of_app, Hin_c, Hin_r. split.
      * intros [-> | [(r & Hr & -> & Hnode) | (k & ck & r & Hk & -> & Hnode)]].
        -- exists 0, c, []. rewrite Nat.add_0_r. by repeat split.
        -- exists 0, c, r. rewrite Nat.add_0_r, <- app_assoc. by repeat split.
        -- exists (S k), ck, r. split; [done|]. split; [|done].
           by replace (i0 + S k) with (S i0 + k) by lia.
      * intros (k & ck & r & Hk & -> & Hnode). destruct k as [|k].
        -- simpl in Hk. injection Hk as <-. rewrite Nat.add_0_r.
           destruct r as [|x r]; [by left|]. right. left.
           exists (x :: r). rewrite <- app_assoc. by repeat split.
        -- right. right. exists k, ck, r. split; [done|]. split; [|done].
           by replace (i0 + S k) with (S i0 + k) by lia.
Qed.

Lemma ScheduleSubTasks_tasks (n : RectNode num A) :
  forall path successor tf,
    exists d, tf_tasks (ScheduleSubTasks n path successor tf) = tf_tasks tf ++ d
              /\ pathsBelow n path d.
Proof.
  induction n as [b objs cs IH] using RectNode_nested_ind.
  intros path successor tf. simpl.
  destruct (scheduleChildren_tasks cs IH 0 path successor tf)
    as (d & Hd & Hnd & Hin).
  exists d. split; [done|]. split; [done|].
  intros q. rewrite Hin. split.
  - intros (k & ck & r & Hk & -> & Hnode). exists (k :: r).
    split; [done|]. split; [done|]. simpl. by rewrite Hk.
  - intros ([|k r] & Hr & -> & Hnode); [done|]. simpl in Hnode.
    destruct (cs !! k) as [ck|] eqn:Hk; [|by destruct Hnode].
    exists k, ck, r. by repeat split.
Qed.

(** X14.  [ScheduleTasks] emplaces one task per node of the tree: the tasks,
    each bound to the node its path addresses, are pairwise different, and a
    path is the path of a task exactly when it addresses a node of the
    tree. *)
Theorem ScheduleTasks_one_task_per_node (tree : RectNode num A) :
  NoDup (tf_tasks (ScheduleTasks tree))
  /\ forall path, path ∈ tf_tasks (ScheduleTasks tree)
                  <-> is_Some (nodeAt tree path).
Proof.
  unfold ScheduleTasks. simpl.
  destruct (ScheduleSubTasks_tasks tree [] 0 (mkTaskFlow [[]] []))
    as (d & -> & Hnd & Hin). simpl. split.
  - constructor; [|done]. intros (r & Hr & Hq & _)%Hin. simpl in Hq. by subst r.
  - intros path. rewrite elem_of_cons, Hin. split.
    + intros [-> | (r & _ & -> & Hnode)]; [by eexists | done].
    + intros Hnode. destruct path as [|k path]; [by left|]. right.
      by exists (k :: path).
Qed.
End ScheduleShape.

(** ** Point cleanup keeps polygons polygons *)

Section CleanBounds.
Context {property_type num : Type} `{Countable property_type}
        {NT : NumType num} {PM : Point2DIndexMap num}.
Variable simplify : Q -> Polygon2D num -> Polygon2D num.

(** The Douglas-Peucker primitive selects points of its input. *)
Hypothesis simplify_length :
  forall dist p, length (simplify dist p) <= length p.






End CleanBounds.



(** ** The integral point-index map *)

(** X17.  The integral point-index map keeps the first index it is given for a
    point: after [Insert(p, i)] the index of [p] is the one it had, or [i] if
    it had none, and the index of every other point is as it was.  A point
    counts exactly when [At] finds it, and on a cleared map no point counts
    and [At] throws. *)
Theorem IntegralPointIndexMap_first_wins (p q : Z * Z) (i : nat)
    (m : gmap (Z * Z) nat) :
  pm_At (Point2DIndexMap := IntegralPointIndexMap) q
    (pm_Insert (Point2DIndexMap := IntegralPointIndexMap) p i m)
  = (if decide (p = q)
     then Some (default i (pm_At (Point2DIndexMap := IntegralPointIndexMap) p m))
     else pm_At (Point2DIndexMap := IntegralPointIndexMap) q m)
  /\ (pm_Count (Point2DIndexMap := IntegralPointIndexMap) q m = true
      <-> is_Some (pm_At (Point2DIndexMap := IntegralPointIndexMap) q m))
  /\ pm_At (Point2DIndexMap := IntegralPointIndexMap) q pm_Clear = None
  /\ pm_Count (Point2DIndexMap := IntegralPointIndexMap) q pm_Clear = false.
Proof.
  simpl. split; [|split; [|split]].
  - rewrite umap_insert_lookup. unfold Point2D.
    destruct (decide (p = q)) as [->|Hne].
    + by destruct (m !! q).
    + by destruct (m !! p).
  - apply bool_decide_eq_true.
  - apply lookup_empty.
  - apply bool_decide_eq_false_2. rewrite lookup_empty. by intros [? ?].
Qed.

(** ** Pending records *)

Section Pending.
Context {property_type num : Type} `{Countable property_type}
        {NT : NumType num}.
Variable isCCW : Polygon2D num -> bool.

Lemma AddObjects_fields (objs : list (property_type * Polygon2D num)) :
  forall st : PolygonMerger (property_type := property_type) (num := num),
    m_datas (AddObjects isCCW objs st)
    = m_datas st
      ++ map (fun o => Normalize isCCW (mkPolygonWithProp o.1 o.2 [])) objs
    /\ m_mergeTaskTree (AddObjects isCCW objs st) = m_mergeTaskTree st
    /\ m_propertyMap (AddObjects isCCW objs st) = m_propertyMap st
    /\ m_mergeSettings (AddObjects isCCW objs st) = m_mergeSettings st
    /\ m_propDiffAreas (AddObjects isCCW objs st) = m_propDiffAreas st.
Proof.
  unfold AddObjects.
  induction objs as [|o objs IH]; intros st.
  - simpl. by rewrite app_nil_r.
  - cbn [fold_left map].
    destruct (IH (AddObject isCCW o.1 o.2 st).2) as (Hd & Ht & Hm & Hs & Hp).
    rewrite Hd, Ht, Hm, Hs, Hp. simpl. by rewrite <- app_assoc.
Qed.

(** X18.  Records that are added with [AddObject] are pending: while the tree
    holds no object, [GetAllPolygons] returns the pending records, normalized
    and in the order they were added; once the tree holds an object,
    [GetAllPolygons] returns the objects of the tree only, and a record that
    is added then is not returned. *)
Theorem GetAllPolygons_pending
    (objs : list (property_type * Polygon2D num))
    (st : PolygonMerger (property_type := property_type) (num := num)) :
  (GetAllObjects (m_mergeTaskTree st) = [] ->
     GetAllPolygons (AddObjects isCCW objs st)
     = m_datas st
       ++ map (fun o => Normalize isCCW (mkPolygonWithProp o.1 o.2 [])) objs)
  /\ (GetAllObjects (m_mergeTaskTree st) <> [] ->
        GetAllPolygons (AddObjects isCCW objs st)
        = GetAllObjects (m_mergeTaskTree st)).
Proof.
  destruct (AddObjects_fields objs st) as (Hd & Ht & _).
  unfold GetAllPolygons. rewrite Ht, Hd. split.
  - by intros ->.
  - intros Hne. by destruct (GetAllObjects (m_mergeTaskTree st)).
Qed.
End Pending.

(** ** Comparisons with a tolerance ([math/MathUtility.hpp]) *)

Lemma Qle_bool_false_iff (x y : Q) : Qle_bool x y = false <-> (y < x)%Q.
Proof.
  split.
  - intros Hf. apply Qnot_le_lt. intros Hle. apply Qle_bool_iff in Hle. congruence.
  - intros Hlt. destruct (Qle_bool x y) eqn:E; [|done].
    apply Qle_bool_iff in E. lra.
Qed.

(** Case analysis on every comparison of the goal and of the context. *)
Ltac Qcompare :=
  repeat match goal with
         | |- context [Qlt_bool ?x ?y] =>
             let E := fresh "E" in
             destruct (Qlt_bool x y) eqn:E;
             [apply Qlt_bool_iff in E | apply Qlt_bool_false_iff in E]
         | |- context [Qle_bool ?x ?y] =>
             let E := fresh "E" in
             destruct (Qle_bool x y) eqn:E;
             [apply Qle_bool_iff in E | apply Qle_bool_false_iff in E]
         end.

(** The default tolerance of the floating overloads is the epsilon of the
    type. *)
Lemma math_default_tolerance (eps a b : Q) :
  math.EQ (NT := floating eps) a b = math_tolerance.EQ a b eps
  /\ math.NE (NT := floating eps) a b = math_tolerance.NE a b eps
  /\ math.GE (NT := floating eps) a b = math_tolerance.GE a b eps
  /\ math.LE (NT := floating eps) a b = math_tolerance.LE a b eps
  /\ math.GT (NT := floating eps) a b = math_tolerance.GT a b eps
  /\ math.LT (NT := floating eps) a b = math_tolerance.LT a b eps.
Proof.
  unfold math.EQ, math.NE, math.GE, math.LE, math.GT, math.LT, math.EQ,
    math.num_leb, math_tolerance.EQ, math_tolerance.NE, math_tolerance.GE,
    math_tolerance.LE, math_tolerance.GT, math_tolerance.LT,
    math_tolerance.EQ. simpl. unfold Qlt_bool.
  rewrite !negb_involutive. done.
Qed.

(** X19.  Under a tolerance that is not negative, of two floating numbers
    exactly one of [LT], [EQ] and [GT] holds; [GE] holds exactly when [LT]
    does not, [LE] exactly when [GT] does not, and [NE] exactly when [LT] or
    [GT] does. *)
Theorem tolerance_trichotomy (a b tol : Q) :
  (0 <= tol)%Q ->
  ((math_tolerance.LT a b tol = true /\ math_tolerance.EQ a b tol = false
    /\ math_tolerance.GT a b tol = false)
   \/ (math_tolerance.LT a b tol = false /\ math_tolerance.EQ a b tol = true
       /\ math_tolerance.GT a b tol = false)
   \/ (math_tolerance.LT a b tol = false /\ math_tolerance.EQ a b tol = false
       /\ math_tolerance.GT a b tol = true))
  /\ math_tolerance.GE a b tol = negb (math_tolerance.LT a b tol)
  /\ math_tolerance.LE a b tol = negb (math_tolerance.GT a b tol)
  /\ math_tolerance.NE a b tol
     = math_tolerance.LT a b tol || math_tolerance.GT a b tol.
Proof.
  intros Htol.
  unfold math_tolerance.GE, math_tolerance.LE, math_tolerance.NE,
    math_tolerance.LT, math_tolerance.GT, math_tolerance.EQ.
  assert (Hcase : (0 <= a - b /\ Qabs (a - b) == a - b
                   \/ a - b <= 0 /\ Qabs (a - b) == - (a - b))%Q).
  { apply Qabs_case; intros Hs; [left | right]; split; lra. }
  Qcompare; simpl; repeat split; try tauto; try (exfalso; lra);
    destruct Hcase as [[? ?] | [? ?]]; try (exfalso; lra);
    auto 10.
Qed.

Lemma tolerance_trichotomy_witness :
  ((math_tolerance.LT 1 (3 # 2) (1 # 4) = true
    /\ math_tolerance.EQ 1 (3 # 2) (1 # 4) = false
    /\ math_tolerance.GT 1 (3 # 2) (1 # 4) = false)
   \/ (math_tolerance.LT 1 (3 # 2) (1 # 4) = false
       /\ math_tolerance.EQ 1 (3 # 2) (1 # 4) = true
       /\ math_tolerance.GT 1 (3 # 2) (1 # 4) = false)
   \/ (math_tolerance.LT 1 (3 # 2) (1 # 4) = false
       /\ math_tolerance.EQ 1 (3 # 2) (1 # 4) = false
       /\ math_tolerance.GT 1 (3 # 2) (1 # 4) = true))
  /\ math_tolerance.GE 1 (3 # 2) (1 # 4) = negb (math_tolerance.LT 1 (3 # 2) (1 # 4))
  /\ math_tolerance.LE 1 (3 # 2) (1 # 4) = negb (math_tolerance.GT 1 (3 # 2) (1 # 4))
  /\ math_tolerance.NE 1 (3 # 2) (1 # 4)
     = math_tolerance.LT 1 (3 # 2) (1 # 4) || math_tolerance.GT 1 (3 # 2) (1 # 4).
Proof. apply tolerance_trichotomy. lra. Defined.

(** X20.  [EQ] under a positive tolerance holds of every number with itself,
    and holds of two numbers whatever their order.  It is not transitive:
    zero and the tolerance are [EQ], the tolerance and its double are [EQ],
    zero and the double are not. *)
Theorem tolerance_EQ_not_transitive (tol : Q) :
  (0 < tol)%Q ->
  (forall a, math_tolerance.EQ a a tol = true)
  /\ (forall a b, math_tolerance.EQ a b tol = math_tolerance.EQ b a tol)
  /\ (math_tolerance.EQ 0 tol tol = true
      /\ math_tolerance.EQ tol (tol + tol) tol = true
      /\ math_tolerance.EQ 0 (tol + tol) tol = false).
Proof.
  intros Htol. unfold math_tolerance.EQ.
  assert (Habs : forall x, (0 <= x /\ Qabs x == x \/ x <= 0 /\ Qabs x == - x)%Q).
  { intros x. apply Qabs_case; intros Hs; [left | right]; split; lra. }
  split; [|split; [|split; [|split]]].
  - intros a. apply Qle_bool_iff. destruct (Habs (a - a)%Q) as [[? ->] | [? ->]]; lra.
  - intros a b.
    destruct (Habs (a - b)%Q) as [[? Hab] | [? Hab]],
             (Habs (b - a)%Q) as [[? Hba] | [? Hba]];
      Qcompare; try done; exfalso; lra.
  - apply Qle_bool_iff. destruct (Habs (0 - tol)%Q) as [[? ->] | [? ->]]; lra.
  - apply Qle_bool_iff.
    destruct (Habs (tol - (tol + tol))%Q) as [[? ->] | [? ->]]; lra.
  - apply Qle_bool_false_iff.
    destruct (Habs (0 - (tol + tol))%Q) as [[? ->] | [? ->]]; lra.
Qed.

Lemma tolerance_EQ_not_transitive_witness :
  (forall a, math_tolerance.EQ a a double_epsilon = true)
  /\ (forall a b, math_tolerance.EQ a b double_epsilon
                  = math_tolerance.EQ b a double_epsilon)
  /\ (math_tolerance.EQ 0 double_epsilon double_epsilon = true
      /\ math_tolerance.EQ double_epsilon (double_epsilon + double_epsilon)
           double_epsilon = true
      /\ math_tolerance.EQ 0 (double_epsilon + double_epsilon) double_epsilon
         = false).
Proof. apply tolerance_EQ_not_transitive. reflexivity. Defined.

(** X21.  Under a negative tolerance, which the code accepts, no two numbers
    are [EQ], not even a number and itself; every number is both [LT] and
    [GT] itself, and neither [GE] nor [LE] itself. *)
Theorem tolerance_negative (a b tol : Q) :
  (tol < 0)%Q ->
  math_tolerance.EQ a b tol = false
  /\ math_tolerance.NE a b tol = true
  /\ math_tolerance.LT a a tol = true /\ math_tolerance.GT a a tol = true
  /\ math_tolerance.GE a a tol = false /\ math_tolerance.LE a a tol = false.
Proof.
  intros Htol.
  assert (Hne : forall x y, math_tolerance.EQ x y tol = false).
  { intros x y. unfold math_tolerance.EQ. apply Qle_bool_false_iff.
    pose proof (Qabs_nonneg (x - y)). lra. }
  unfold math_tolerance.NE, math_tolerance.GE, math_tolerance.LE.
  rewrite !Hne. unfold math_tolerance.LT, math_tolerance.GT.
  Qcompare; simpl; repeat split; try done; exfalso; lra.
Qed.

Lemma tolerance_negative_witness :
  math_tolerance.EQ 1 1 (- (1)) = false
  /\ math_tolerance.NE 1 1 (- (1)) = true
  /\ math_tolerance.LT 1 1 (- (1)) = true /\ math_tolerance.GT 1 1 (- (1)) = true
  /\ math_tolerance.GE 1 1 (- (1)) = false /\ math_tolerance.LE 1 1 (- (1)) = false.
Proof. apply tolerance_negative. reflexivity. Defined.

(** ** The safe inverse ([math/MathUtility.hpp]) *)

Section SafeInverse.
(** [signbit] and [fl] are the sign bit of the scalar as a value of the float
    type and the rounding of a quotient to the float type.  What is used of
    the rounding: it is monotone, and it keeps zero and the inverse of
    epsilon, which are numbers of the type. *)
Variable eps : Q.
Variable fl : Q -> Q.
Hypothesis eps_pos : (0 < eps)%Q.
Hypothesis fl_mono : forall a b, (a <= b)%Q -> (fl a <= fl b)%Q.
Hypothesis fl_zero : (fl 0 == 0)%Q.
Hypothesis fl_inv_eps : (fl (1 / eps) == 1 / eps)%Q.
Hypothesis fl_inv_eps_opp : (fl (- (1 / eps)) == - (1 / eps))%Q.

Lemma fl_proper (a b : Q) : (a == b)%Q -> (fl a == fl b)%Q.
Proof.
  intros Hab. apply Qle_antisym; apply fl_mono; rewrite Hab; apply Qle_refl.
Qed.

Lemma Qinv_eps_pos : (0 < 1 / eps)%Q.
Proof.
  unfold Qdiv. rewrite Qmult_1_l. by apply Qinv_lt_0_compat.
Qed.

(** The inverse of a number beyond epsilon in magnitude lies within the
    inverse of epsilon and has the sign of the number. *)
Lemma Qinv_beyond_eps (d : Q) :
  (eps <= Qabs d)%Q ->
  (- (1 / eps) <= 1 / d <= 1 / eps)%Q
  /\ ((0 < d)%Q -> (0 <= 1 / d)%Q)
  /\ ((d < 0)%Q -> (1 / d <= 0)%Q).
Proof.
  intros Hd.
  assert (Hnz : ~ (d == 0)%Q).
  { intros Hz. assert (Ha : (Qabs d == 0)%Q) by (by rewrite Hz). lra. }
  pose proof Qinv_eps_pos as Hie.
  assert (He : (eps * (1 / eps) == 1)%Q) by (field; lra).
  assert (Hinv : (d * (1 / d) == 1)%Q) by (by field).
  assert (Hcase : (0 <= d /\ Qabs d == d \/ d <= 0 /\ Qabs d == - d)%Q).
  { apply Qabs_case; intros Hs; [left | right]; split; lra. }
  generalize dependent (1 / eps)%Q. generalize dependent (1 / d)%Q.
  intros id Hinv ie Hie He.
  destruct Hcase as [[Hs Ha] | [Hs Ha]]; rewrite Ha in Hd;
    (split; [split|split]); try (intros; nra); nra.
Qed.

Lemma fl_within (v : Q) :
  (- (1 / eps) <= v <= 1 / eps)%Q -> (Qabs (fl v) <= 1 / eps)%Q.
Proof.
  intros [Hlo Hhi]. apply Qabs_Qle_condition. split.
  - rewrite <- fl_inv_eps_opp. by apply fl_mono.
  - rewrite <- fl_inv_eps. by apply fl_mono.
Qed.

Section Floating.
Variable signbit : Q -> bool.
Hypothesis signbit_negative : forall x, (x < 0)%Q -> signbit x = true.
Hypothesis signbit_positive : forall x, (0 < x)%Q -> signbit x = false.

Lemma SafeInv_floating_unfold (x : Q) :
  SafeInv (NT := floating eps) signbit fl x
  = if Qlt_bool eps (Qabs (x - 0))
    then fl (1 / x)
    else fl (1 / (if signbit x then - Qabs eps else Qabs eps)).
Proof.
  unfold SafeInv, math.EQ, math.num_leb, copysign.
  cbn [is_integral num_ltb num_abs num_sub num_zero epsilon to_float
       float_epsilon floating].
  by destruct (Qlt_bool eps (Qabs (x - 0))).
Qed.

(** X22.  [SafeInv] on a floating scalar, for a positive epsilon and a
    rounding of the quotient that is monotone and keeps zero and the inverse
    of epsilon.  A scalar within epsilon of zero gets the inverse of epsilon
    with the sign bit of the scalar, so [1 / epsilon] when the scalar is
    positive, [- 1 / epsilon] when it is negative, and for a zero what the
    sign bit of that zero says.  Every result lies within the inverse of
    epsilon in magnitude, and it never has the sign opposite to the
    scalar's. *)
Theorem SafeInv_floating (x : Q) :
  let y := SafeInv (NT := floating eps) signbit fl x in
  ((Qabs x <= eps)%Q ->
     (y == if signbit x then - (1 / eps) else 1 / eps)%Q)
  /\ ((0 < x)%Q -> (x <= eps)%Q -> (y == 1 / eps)%Q)
  /\ ((x < 0)%Q -> (- eps <= x)%Q -> (y == - (1 / eps))%Q)
  /\ (Qabs y <= 1 / eps)%Q
  /\ ((0 < x)%Q -> (0 <= y)%Q)
  /\ ((x < 0)%Q -> (y <= 0)%Q).
Proof.
  intros y. unfold y. rewrite SafeInv_floating_unfold.
  assert (Hx0 : (x - 0 == x)%Q) by ring.
  assert (Habs0 : (Qabs (x - 0) == Qabs x)%Q) by (by rewrite Hx0).
  assert (Hae : (Qabs eps == eps)%Q) by (apply Qabs_pos; lra).
  assert (Hax : (0 <= x /\ Qabs x == x \/ x <= 0 /\ Qabs x == - x)%Q).
  { apply Qabs_case; intros Hs; [left | right]; split; lra. }
  pose proof Qinv_eps_pos as Hie.
  destruct (Qlt_bool eps (Qabs (x - 0))) eqn:Efar.
  - apply Qlt_bool_iff in Efar. rewrite Habs0 in Efar.
    destruct (Qinv_beyond_eps x ltac:(lra)) as (Hb & Hpos & Hneg).
    split; [intros; exfalso; lra|].
    split; [intros; exfalso; destruct Hax as [[? ?] | [? ?]]; lra|].
    split; [intros; exfalso; destruct Hax as [[? ?] | [? ?]]; lra|].
    split; [by apply fl_within|]. split; intros Hs.
    + rewrite <- fl_zero. apply fl_mono. by apply Hpos.
    + rewrite <- fl_zero. apply fl_mono. by apply Hneg.
  - apply Qlt_bool_false_iff in Efar. rewrite Habs0 in Efar.
    assert (Hval : (fl (1 / (if signbit x then - Qabs eps else Qabs eps))
                    == if signbit x then - (1 / eps) else 1 / eps)%Q).
    { destruct (signbit x).
      - rewrite <- fl_inv_eps_opp. apply fl_proper. rewrite Hae. field. lra.
      - rewrite <- fl_inv_eps. apply fl_proper. by rewrite Hae. }
    rewrite Hval.
    split; [done|].
    split; [intros Hs _; by rewrite (signbit_positive x Hs)|].
    split; [intros Hs _; by rewrite (signbit_negative x Hs)|].
    split; [destruct (signbit x); [rewrite Qabs_opp|]; rewrite Qabs_pos; lra|].
    split; intros Hs.
    + rewrite (signbit_positive x Hs). lra.
    + rewrite (signbit_negative x Hs). lra.
Qed.
End Floating.

Section Integral.
Variable signbit : Z -> bool.
Hypothesis signbit_zero : signbit 0%Z = false.
Hypothesis fl_one : (fl 1 == 1)%Q.
Hypothesis fl_one_opp : (fl (- (1)) == - (1))%Q.

(** X23.  [SafeInv] on an integral scalar, for a positive epsilon of the float
    type and a rounding of the quotient that is monotone and keeps zero, one
    and the inverse of epsilon: zero, which is converted to the positive zero
    of the float type, gets [1 / epsilon]; every other scalar gets a result
    of at most one in magnitude that never has the sign opposite to the
    scalar's. *)
Theorem SafeInv_integral (x : Z) :
  let y := SafeInv (NT := integral eps) signbit fl x in
  (x = 0%Z -> (y == 1 / eps)%Q)
  /\ (x <> 0%Z ->
        (Qabs y <= 1)%Q
        /\ ((0 < x)%Z -> (0 <= y)%Q)
        /\ ((x < 0)%Z -> (y <= 0)%Q)).
Proof.
  intros y. unfold y, SafeInv, math.EQ, copysign.
  cbn [is_integral num_eqb num_zero to_float float_epsilon integral]. split.
  - intros ->. rewrite Z.eqb_refl, signbit_zero.
    rewrite <- fl_inv_eps. apply fl_proper. rewrite Qabs_pos by lra. reflexivity.
  - intros Hx. rewrite (proj2 (Z.eqb_neq x 0) Hx).
    assert (Hcase : (1 <= inject_Z x \/ inject_Z x <= - (1))%Q).
    { destruct (Z.lt_trichotomy x 0) as [Hs | [Hs | Hs]]; [right|done|left];
        unfold Qle, inject_Z; simpl; lia. }
    assert (Hpos : (0 < x)%Z -> (0 < 1 / inject_Z x <= 1)%Q).
    { intros Hs. assert (H1 : (1 <= inject_Z x)%Q)
        by (unfold Qle, inject_Z; simpl; lia).
      assert (Hinv : (inject_Z x * (1 / inject_Z x) == 1)%Q) by (field; lra).
      generalize dependent (1 / inject_Z x)%Q. intros ix Hinv. nra. }
    assert (Hneg : (x < 0)%Z -> (- (1) <= 1 / inject_Z x < 0)%Q).
    { intros Hs. assert (H1 : (inject_Z x <= - (1))%Q)
        by (unfold Qle, inject_Z; simpl; lia).
      assert (Hinv : (inject_Z x * (1 / inject_Z x) == 1)%Q) by (field; lra).
      generalize dependent (1 / inject_Z x)%Q. intros ix Hinv. nra. }
    split; [|split].
    + apply Qabs_Qle_condition.
      destruct (Z.lt_trichotomy x 0) as [Hs | [Hs | Hs]]; [|done|].
      * destruct (Hneg Hs).
        pose proof (fl_mono (- (1)) (1 / inject_Z x) ltac:(lra)).
        pose proof (fl_mono (1 / inject_Z x) 0 ltac:(lra)). lra.
      * destruct (Hpos Hs).
        pose proof (fl_mono 0 (1 / inject_Z x) ltac:(lra)).
        pose proof (fl_mono (1 / inject_Z x) 1 ltac:(lra)). lra.
    + intros Hs. destruct (Hpos Hs).
      pose proof (fl_mono 0 (1 / inject_Z x) ltac:(lra)). lra.
    + intros Hs. destruct (Hneg Hs).
      pose proof (fl_mono (1 / inject_Z x) 0 ltac:(lra)). lra.
Qed.
End Integral.
End SafeInverse.

Lemma SafeInv_floating_witness :
  let y := SafeInv (NT := floating double_epsilon)
             (fun x => Qlt_bool x 0) (fun q => q) (- double_epsilon)%Q in
  ((Qabs (- double_epsilon) <= double_epsilon)%Q ->
     (y == if Qlt_bool (- double_epsilon) 0
           then - (1 / double_epsilon) else 1 / double_epsilon)%Q)
  /\ ((0 < - double_epsilon)%Q -> (- double_epsilon <= double_epsilon)%Q ->
      (y == 1 / double_epsilon)%Q)
  /\ ((- double_epsilon < 0)%Q -> (- double_epsilon <= - double_epsilon)%Q ->
      (y == - (1 / double_epsilon))%Q)
  /\ (Qabs y <= 1 / double_epsilon)%Q
  /\ ((0 < - double_epsilon)%Q -> (0 <= y)%Q)
  /\ ((- double_epsilon < 0)%Q -> (y <= 0)%Q).
Proof.
  refine (SafeInv_floating double_epsilon (fun q => q) _ _ _ _ _
            (fun x => Qlt_bool x 0) _ _ (- double_epsilon)).
  - reflexivity.
  - intros a b Hab. exact Hab.
  - reflexivity.
  - reflexivity.
  - reflexivity.
  - intros x Hx. by apply Qlt_bool_iff.
  - intros x Hx. apply Qlt_bool_false_iff. lra.
Defined.

Lemma SafeInv_integral_witness :
  let y := SafeInv (NT := integral double_epsilon)
             (fun x => Z.ltb x 0) (fun q => q) 3%Z in
  (3%Z = 0%Z -> (y == 1 / double_epsilon)%Q)
  /\ (3%Z <> 0%Z ->
        (Qabs y <= 1)%Q
        /\ ((0 < 3)%Z -> (0 <= y)%Q)
        /\ ((3 < 0)%Z -> (y <= 0)%Q)).
Proof.
  refine (SafeInv_integral double_epsilon (fun q => q) _ _ _ _
            (fun x => Z.ltb x 0) _ _ _ 3%Z).
  - reflexivity.
  - intros a b Hab. exact Hab.
  - reflexivity.
  - reflexivity.
  - reflexivity.
  - reflexivity.
  - reflexivity.
Defined.

(** ** Undirected index edges ([topology/IndexGraph.hpp]) *)

(** X24.  An undirected index edge does not depend on the order its vertices
    are given in: [v1] is the smaller and [v2] the larger of the two; two
    edges are equal exactly when they join the same vertices; and
    [hasVertex] holds of the two vertices and of no other. *)
Theorem UndirectedIndexEdge_unordered (i j : topology.index_t) :
  topology.v1 (topology.Edge i j) = N.min i j
  /\ topology.v2 (topology.Edge i j) = N.max i j
  /\ (topology.v1 (topology.Edge i j) <= topology.v2 (topology.Edge i j))%N
  /\ topology.Edge i j = topology.Edge j i
  /\ (forall i' j',
        topology.edge_eqb (topology.Edge i j) (topology.Edge i' j') = true
        <-> (i = i' /\ j = j') \/ (i = j' /\ j = i'))
  /\ (forall x, topology.hasVertex x (topology.Edge i j) = true
                <-> x = i \/ x = j).
Proof.
  unfold topology.v1, topology.v2, topology.Edge, topology.SetVertices,
    topology.edge_eqb, topology.hasVertex. simpl.
  split; [done|]. split; [done|]. split; [lia|]. split; [f_equal; f_equal; lia|].
  split.
  - intros i' j'. rewrite andb_true_iff, !N.eqb_eq. lia.
  - intros x. rewrite orb_true_iff, !N.eqb_eq. lia.
Qed.

Lemma EdgeSet_members (g : list (topology.index_t * topology.index_t)) :
  forall (s : gset (N * N)) (e : N * N),
    e ∈ fold_left (fun edgeSet '(u, v) =>
                     edgeSet ∪ {[ topology.m_vertices (topology.Edge u v) ]}) g s
    <-> e ∈ s
        \/ exists u v, (u, v) ∈ g /\ e = topology.m_vertices (topology.Edge u v).
Proof.
  induction g as [|[u v] g IH]; intros s e; simpl.
  - split; [by left|]. intros [?|(u & v & Hin & _)]; [done|].
    by apply elem_of_nil in Hin.
  - rewrite IH, elem_of_union, elem_of_singleton. split.
    + intros [[?| ->]|(u' & v' & Hin & ->)]; [by left| |].
      * right. exists u, v. split; [by left | done].
      * right. exists u', v'. split; [by right | done].
    + intros [?|(u' & v' & [[= -> ->]|Hin]%elem_of_cons & ->)].
      * by left; left.
      * by left; right.
      * right. by exists u', v'.
Qed.

(** X25.  [EdgeSet] holds the edge of two vertices exactly when the graph has
    an edge between them, in either direction. *)
Theorem EdgeSet_undirected (g : list (topology.index_t * topology.index_t))
    (u v : topology.index_t) :
  topology.m_vertices (topology.Edge u v) ∈ topology.EdgeSet g
  <-> (u, v) ∈ g \/ (v, u) ∈ g.
Proof.
  unfold topology.EdgeSet. rewrite EdgeSet_members. split.
  - intros [?|(u' & v' & Hin & Heq)]; [done|].
    unfold topology.Edge, topology.SetVertices in Heq. simpl in Heq.
    injection Heq as Hmin Hmax.
    assert ((u = u' /\ v = v') \/ (u = v' /\ v = u')) as [[-> ->]|[-> ->]] by lia;
      [by left | by right].
  - intros [Hin|Hin]; right.
    + by exists u, v.
    + exists v, u. split; [done|].
      unfold topology.Edge, topology.SetVertices. simpl. f_equal; lia.
Qed.

(** ** String helpers ([tools/StringHelper.hpp]) *)

Lemma equal_prefix (l1 : list Ascii.ascii) :
  forall l2, length l1 <= length l2 ->
    exists b, str.equal l1 l2 = Some b
              /\ (b = true <-> exists rest, l2 = l1 ++ rest).
Proof.
  induction l1 as [|x l1 IH]; intros l2 Hlen; simpl.
  - exists true. split; [done|]. split; [|done]. intros _. by exists l2.
  - destruct l2 as [|y l2]; [simpl in Hlen; lia|].
    destruct (Ascii.eqb_spec x y) as [->|Hne].
    + destruct (IH l2) as (b & Hb & Hspec); [simpl in Hlen; lia|].
      exists b. split; [done|]. rewrite Hspec. split.
      * intros (rest & ->). by exists rest.
      * intros (rest & [= ->]). by exists rest.
    + exists false. split; [done|]. split; [done|].
      intros (rest & [= ? _]). congruence.
Qed.

(** X26.  [EndsWith] is defined on every pair of strings (the length check
    keeps [std::equal] within the string), and it holds exactly when the
    string is some string followed by the suffix. *)
Theorem EndsWith_spec (s suffix : list Ascii.ascii) :
  exists b, str.EndsWith s suffix = Some b
            /\ (b = true <-> exists front, s = front ++ suffix).
Proof.
  unfold str.EndsWith. case_bool_decide as Hlen.
  - exists false. split; [done|]. split; [done|].
    intros (front & ->). rewrite length_app in Hlen. lia.
  - destruct (equal_prefix (rev suffix) (rev s)) as (b & Hb & Hspec).
    { rewrite !length_rev. lia. }
    exists b. split; [done|]. rewrite Hspec. split.
    + intros (rest & Hrev). exists (rev rest).
      apply (f_equal (@rev _)) in Hrev.
      by rewrite rev_involutive, rev_app_distr, rev_involutive in Hrev.
    + intros (front & ->). exists (rev front). by rewrite rev_app_distr.
Qed.

(** ** The region merge on a leaf *)

Section LeafRegion.
Context {property_type num : Type} `{Countable property_type}
        {NT : NumType num} {PM : Point2DIndexMap num}.
Variable area : Polygon2D num -> Q.
Variable property_merge :
  list (list (Point2D num) * property_type * bool) ->
  list (list property_type * list (Polyline2D num)).
Variable BuildNode :
  RectNode num (PolygonWithProp property_type num) ->
  list (PolygonWithProp property_type num) ->
  RectNode num (PolygonWithProp property_type num).
Variable ClearNode :
  RectNode num (PolygonWithProp property_type num) ->
  RectNode num (PolygonWithProp property_type num).
Variable ConnectivityExtraction : list (Box2D num) -> list (list nat).
Variable connected_components : list (list nat) -> list nat * nat.

(** The graph of no boxes has no vertex to label. *)
Hypothesis no_vertices :
  (connected_components (ConnectivityExtraction [])).1 = [].

Lemma filter_replicate_nil (n : nat) :
  filter (fun component : list nat => 1 < length component) (replicate n [])
  = [].
Proof.
  induction n as [|n IH]; [done|]. simpl. rewrite filter_cons_False; [done|].
  simpl. lia.
Qed.

Lemma GetOverlappedSubTaskNodes_leaf b
    (objs : list (PolygonWithProp property_type num)) :
  GetOverlappedSubTaskNodes ConnectivityExtraction connected_components
    (mkRectNode b objs []) = Some [].
Proof.
  unfold GetOverlappedSubTaskNodes, ConnectedComponents. simpl.
  destruct (connected_components (ConnectivityExtraction [])) as [c numComp].
  simpl in no_vertices. subst c. simpl. by rewrite filter_replicate_nil.
Qed.

(** X27.  [MergeRegion] on a node without children.  Without objects the node
    is rebuilt empty and the merger is left as it is.  With objects they are
    merged at one level, the tiny holes of the result are removed, and the
    node is rebuilt from it; so a node with a single polygon runs no boolean
    operation and leaves the merger as it is, yet the polygon loses its tiny
    holes. *)
Theorem MergeRegion_leaf b (objs : list (PolygonWithProp property_type num))
    (st : PolygonMerger) :
  let node := mkRectNode b objs [] in
  let run := MergeRegion area property_merge BuildNode ClearNode
               ConnectivityExtraction connected_components node st in
  (objs = [] -> run = Some (BuildNode node [], st))
  /\ (objs <> [] ->
        run = m ← MergePolygons property_merge st objs;
              Some (BuildNode node (FilterOutTinyHoles area m.2 m.1), m.2))
  /\ (forall pd, objs = [pd] ->
        run = Some (BuildNode node (FilterOutTinyHoles area st [pd]), st)).
Proof.
  intros node run.
  assert (Hrun : run = mergeOwnRegion area property_merge BuildNode ClearNode
                         ConnectivityExtraction connected_components node st).
  { done. }
  rewrite Hrun. unfold mergeOwnRegion, node.
  rewrite GetOverlappedSubTaskNodes_leaf. cbn [mbind option_bind forLoop].
  cbn [GetChildren GetObjs GetAllObjects SetChildren GetBBox flat_map].
  rewrite !app_nil_r. split; [|split].
  - by intros ->.
  - intros Hne. destruct objs as [|o objs']; [done|].
    by destruct (MergePolygons property_merge st (o :: objs')).
  - by intros pd ->.
Qed.
End LeafRegion.

Lemma MergeRegion_leaf_witness :
  let node := mkRectNode None [Examples.twoHolesRecord] [] in
  let run := MergeRegion (NT := Examples.NTZ) (PM := IntegralPointIndexMap)
               (shoelaceArea (NT := Examples.NTZ)) Examples.noRegions oneBucket
               emptiedNode noConnection ownComponents node
               (Examples.emptyMerger Examples.tinyHolesSettings) in
  ([Examples.twoHolesRecord] = [] ->
     run = Some (oneBucket node [], Examples.emptyMerger Examples.tinyHolesSettings))
  /\ ([Examples.twoHolesRecord] <> [] ->
        run = m ← MergePolygons (NT := Examples.NTZ)
                    (PM := IntegralPointIndexMap) Examples.noRegions
                    (Examples.emptyMerger Examples.tinyHolesSettings)
                    [Examples.twoHolesRecord];
              Some (oneBucket node
                      (FilterOutTinyHoles (NT := Examples.NTZ)
                         (shoelaceArea (NT := Examples.NTZ)) m.2 m.1),
                    m.2))
  /\ (forall pd, [Examples.twoHolesRecord] = [pd] ->
        run = Some (oneBucket node
                      (FilterOutTinyHoles (NT := Examples.NTZ)
                         (shoelaceArea (NT := Examples.NTZ))
                         (Examples.emptyMerger Examples.tinyHolesSettings) [pd]),
                    Examples.emptyMerger Examples.tinyHolesSettings)).
Proof.
  apply (MergeRegion_leaf (NT := Examples.NTZ) (PM := IntegralPointIndexMap)
           (shoelaceArea (NT := Examples.NTZ)) Examples.noRegions oneBucket
           emptiedNode noConnection ownComponents).
  reflexivity.
Defined.

(** ** Interpolation *)

Section InterpolationUndefined.
Import interpolation.
Context {num : Type} {NT : NumType num}.
Variable sqrt : Q -> Q.
Variable lu_solve :
  nat -> nat -> nat -> list (nat * nat * Q) -> list (nat * Q) -> list Q.

(** The first pass of [makeMonotonic] starts at [i = 0], where [i - 1] wraps
    around to the largest [size_t], and reads [m_y] there. *)
Lemma flattenStep_first (t : Interpolation) (s : bool * list Q) :
  (N.of_nat (length (m_y t)) < 2 ^ 64)%N ->
  flattenStep t s 0 = None.
Proof.
  intros Hfit. unfold flattenStep.
  replace (at_N (m_y t) (N.max (size_sub (N.of_nat 0) 1) 0)) with (@None num);
    [done|].
  unfold at_N, size_sub. simpl N.of_nat.
  replace (N.max _ 0)%N with (2 ^ 64 - 1)%N by (vm_compute; reflexivity).
  destruct (N.ltb_spec (2 ^ 64 - 1) (N.of_nat (length (m_y t)))); [lia|done].
Qed.

Lemma makeMonotonic_undefined (t : Interpolation) :
  (N.of_nat (length (m_y t)) < 2 ^ 64)%N ->
  makeMonotonic sqrt t = None.
Proof.
  intros Hfit. unfold makeMonotonic. case_bool_decide as Hsize; [|done].
  destruct (length (m_x t)) as [|n] eqn:Hn; [lia|].
  cbn [seq forLoop]. by rewrite flattenStep_first.
Qed.

(** X28.  [SetSamples] with three or more samples on an object whose
    [m_monotonic] is false, which is what the constructors set unless they
    are told otherwise, has no defined result with either method: it ends in
    [makeMonotonic], whose first step reads [m_y] at the index
    [size_t(0) - 1]. *)
Theorem SetSamples_not_monotonic_undefined (x y : list num) (t : Interpolation) :
  3 <= length x ->
  (N.of_nat (length x) < 2 ^ 64)%N ->
  m_monotonic t = false ->
  SetSamples sqrt lu_solve x y t = None.
Proof.
  intros Hsize Hfit Hmono. unfold SetSamples. cbv zeta.
  case_bool_decide as Hassert; [|done]. destruct Hassert as [_ Hlen].
  rewrite (bool_decide_eq_false_2 (length x < 2)) by lia.
  rewrite (bool_decide_eq_false_2 (length x < 3)) by lia.
  rewrite (bool_decide_eq_true_2 (2 < length x)) by lia.
  match goal with |- mbind _ ?e = _ => destruct e as [c|]; [|done] end.
  cbn [mbind option_bind].
  match goal with |- mbind _ ?e = _ => destruct e as [c0|]; [|done] end.
  cbn [mbind option_bind]. rewrite Hmono.
  cbn [negb andb]. rewrite makeMonotonic_undefined; [done|].
  cbn [m_y]. by rewrite <- Hlen.
Qed.

End InterpolationUndefined.

Section InterpolationLinear.
Import interpolation.
Variable eps : Q.
Variable sqrt : Q -> Q.
Variable lu_solve :
  nat -> nat -> nat -> list (nat * nat * Q) -> list (nat * Q) -> list Q.

Local Abbreviation increasing x :=
  (forall k a b, x !! k = Some a -> x !! (k + 1) = Some b -> (a < b)%Q).

Lemma increasing_lt (x : list Q) :
  increasing x ->
  forall i j a b, i < j -> x !! i = Some a -> x !! j = Some b -> (a < b)%Q.
Proof.
  intros Hinc i j. induction j as [|j IH]; intros a b Hij Ha Hb; [lia|].
  destruct (decide (i = j)) as [->|Hne].
  - eapply Hinc; [exact Ha|]. by replace (j + 1) with (S j) by lia.
  - destruct (lookup_lt_is_Some_2 x j) as [c Hc].
    { apply lookup_lt_Some in Hb. lia. }
    apply Qlt_trans with c.
    + apply IH; [lia|done..].
    + eapply Hinc; [exact Hc|]. by replace (j + 1) with (S j) by lia.
Qed.

Lemma notGreaterPrefix_le (x : list Q) (v : Q) :
  notGreaterPrefix (NT := floating eps) x v <= length x.
Proof.
  induction x as [|e x IH]; simpl; [lia|].
  destruct (Qlt_bool v e); simpl; lia.
Qed.

Lemma notGreaterPrefix_below (x : list Q) (v : Q) (j : nat) (e : Q) :
  j < notGreaterPrefix (NT := floating eps) x v -> x !! j = Some e -> (e <= v)%Q.
Proof.
  revert j. induction x as [|e0 x IH]; intros j; simpl; [lia|].
  destruct (Qlt_bool v e0) eqn:E; [lia|]. apply Qlt_bool_false_iff in E.
  destruct j as [|j]; simpl.
  - by intros _ [= <-].
  - intros Hj. apply IH. lia.
Qed.

Lemma notGreaterPrefix_at (x : list Q) (v e : Q) :
  x !! notGreaterPrefix (NT := floating eps) x v = Some e -> (v < e)%Q.
Proof.
  induction x as [|e0 x IH]; simpl; [done|].
  destruct (Qlt_bool v e0) eqn:E; simpl.
  - intros [= <-]. by apply Qlt_bool_iff.
  - exact IH.
Qed.

(** On increasing samples the binary search of [std::upper_bound] has its
    precondition, and it finds the one position that splits the samples into
    those not greater than [v] and those greater. *)
Lemma upper_bound_increasing (x : list Q) (v : Q) (k : nat) :
  increasing x ->
  k <= length x ->
  (forall j e, j < k -> x !! j = Some e -> (e <= v)%Q) ->
  (forall e, x !! k = Some e -> (v < e)%Q) ->
  upper_bound (NT := floating eps) x v = Some k.
Proof.
  intros Hinc Hk Hbelow Hat. unfold upper_bound.
  assert (notGreaterPrefix (NT := floating eps) x v = k) as ->.
  { pose proof (notGreaterPrefix_le x v) as Hle.
    destruct (Nat.lt_trichotomy (notGreaterPrefix (NT := floating eps) x v) k)
      as [Hlt|[Heq|Hgt]]; [|done|].
    - destruct (lookup_lt_is_Some_2 x (notGreaterPrefix (NT := floating eps) x v))
        as [e He]; [lia|].
      pose proof (notGreaterPrefix_at _ _ _ He).
      pose proof (Hbelow _ _ Hlt He). lra.
    - destruct (lookup_lt_is_Some_2 x k) as [e He]; [lia|].
      pose proof (Hat _ He).
      pose proof (notGreaterPrefix_below _ _ _ _ Hgt He). lra. }
  replace (forallb _ _) with true; [done|].
  symmetry. apply forallb_forall. intros e He. apply Qlt_bool_iff.
  apply list_elem_of_In, list_elem_of_lookup in He as [j Hj].
  rewrite lookup_drop in Hj.
  destruct j as [|j].
  - apply Hat. by rewrite Nat.add_0_r in Hj.
  - destruct (lookup_lt_is_Some_2 x k) as [e0 He0].
    { apply lookup_lt_Some in Hj. lia. }
    apply Qlt_trans with e0; [by apply Hat|].
    eapply (increasing_lt x Hinc k (k + S j)); [lia|done..].
Qed.

(** The linear method on two samples, or on more when the samples are
    declared monotonic: the slopes of the segments, the last one repeated. *)
Lemma SetSamples_linear (x y : list Q) (t : Interpolation) :
  length x = length y ->
  2 <= length x ->
  length x = 2 \/ (m_method t = Linear /\ m_monotonic t = true) ->
  exists c1,
    SetSamples (NT := floating eps) sqrt lu_solve x y t
    = Some (mkInterpolation Linear (m_monotonic t) (m_left t) (m_right t)
              (m_lVal t) (m_rVal t) x y 0 c1
              (replicate (length x) 0%Q) (replicate (length x) 0%Q))
    /\ length c1 = length x
    /\ (forall k a b c d,
          x !! k = Some a -> x !! (k + 1) = Some b ->
          y !! k = Some c -> y !! (k + 1) = Some d ->
          c1 !! k = Some ((d - c) / (b - a))%Q)
    /\ c1 !! (length x - 1) = c1 !! (length x - 2).
Proof.
  intros Hlen Hsize Hlin.
  set (n := length x) in *.
  pose (P := fun (k : nat) (c : list Q) =>
    length c = n /\
    forall j a b c' d, j < k ->
      x !! j = Some a -> x !! (j + 1) = Some b ->
      y !! j = Some c' -> y !! (j + 1) = Some d ->
      c !! j = Some ((d - c') / (b - a))%Q).
  destruct (forLoop_seq_inv
     (fun c i =>
        xi ← x !! i; xj ← x !! (i + 1); yi ← y !! i; yj ← y !! (i + 1);
        vset i (to_float (NumType := floating eps)
                  (num_sub (NumType := floating eps) yj yi)
                / to_float (NumType := floating eps)
                    (num_sub (NumType := floating eps) xj xi))%Q c)
     P (n - 1) 0 (replicate n 0%Q)) as (c1' & Hloop & Hlen1 & Hsl1).
  { intros i c Hi [Hc Hs].
    destruct (lookup_lt_is_Some_2 x i) as [xi Hxi]; [fold n; lia|].
    destruct (lookup_lt_is_Some_2 x (i + 1)) as [xj Hxj]; [fold n; lia|].
    destruct (lookup_lt_is_Some_2 y i) as [yi Hyi]; [rewrite <- Hlen; lia|].
    destruct (lookup_lt_is_Some_2 y (i + 1)) as [yj Hyj]; [rewrite <- Hlen; lia|].
    rewrite Hxi, Hxj, Hyi, Hyj. cbn [mbind option_bind].
    unfold vset. rewrite bool_decide_eq_true_2 by lia.
    eexists. split; [reflexivity|]. split; [by rewrite length_insert|].
    intros j a b c' d Hj Ha Hb Hc' Hd.
    destruct (decide (j = i)) as [->|Hne].
    - rewrite list_lookup_insert_eq by lia.
      rewrite Hxi in Ha. rewrite Hxj in Hb. rewrite Hyi in Hc'. rewrite Hyj in Hd.
      by simplify_eq.
    - rewrite list_lookup_insert_ne by done. eapply Hs; [lia|done..]. }
  { split; [apply length_replicate|]. intros; lia. }
  destruct (lookup_lt_is_Some_2 c1' (n - 2)) as [last Hlast]; [lia|].
  exists (<[n - 1 := last]> c1').
  split; [|split; [by rewrite length_insert|split]].
  - unfold SetSamples. fold n. cbv zeta.
    rewrite bool_decide_eq_true_2 by (split; [lia|done]).
    rewrite (bool_decide_eq_false_2 (n < 2)) by lia.
    assert ((if bool_decide (n < 3) then Linear else m_method t) = Linear) as ->.
    { case_bool_decide; [done|]. destruct Hlin as [?|[? _]]; [lia|done]. }
    unfold linearSlopes. rewrite Hloop. cbn [mbind option_bind].
    rewrite Hlast. cbn [mbind option_bind].
    unfold vset. rewrite (bool_decide_eq_true_2 (n - 1 < length c1')) by lia.
    cbn [mbind option_bind fst snd].
    assert ((if BCType_eqb (m_left t) FirstDeriv then Some 0%Q
             else replicate n 0%Q !! 0) = Some 0%Q) as ->.
    { destruct (BCType_eqb _ _); [done|]. apply lookup_replicate_2. lia. }
    cbn [mbind option_bind].
    assert (negb (m_monotonic t) && bool_decide (2 < n) = false) as ->.
    { destruct Hlin as [?|[_ ->]]; [|done].
      rewrite (bool_decide_eq_false_2 (2 < n)) by lia. apply andb_false_r. }
    reflexivity.
  - intros k a b c d Ha Hb Hc Hd.
    assert (k + 1 < n) by (apply lookup_lt_Some in Hb; done).
    rewrite list_lookup_insert_ne by lia.
    eapply Hsl1; [lia|done..].
  - rewrite list_lookup_insert_eq by lia.
    rewrite list_lookup_insert_ne by lia. done.
Qed.

Lemma FindClosest_increasing (t : Interpolation) (v : Q) (k : nat) :
  increasing (m_x t) ->
  k <= length (m_x t) ->
  (forall j e, j < k -> m_x t !! j = Some e -> (e <= v)%Q) ->
  (forall e, m_x t !! k = Some e -> (v < e)%Q) ->
  FindClosest (NT := floating eps) t v = Some (k - 1).
Proof.
  intros Hinc Hk Hbelow Hat. unfold FindClosest.
  by rewrite (upper_bound_increasing _ _ k).
Qed.

(** X29.  Linear interpolation of a floating type through increasing
    samples, set on two samples or with the linear method on samples declared
    monotonic: [SetSamples] succeeds, and between two neighbouring samples
    (both ends included) [Interpolate] is the value of the straight line
    through them. *)
Theorem Interpolate_linear_between (x y : list Q) (t : Interpolation)
    (i : nat) (xi xj yi yj v : Q) :
  length x = length y ->
  increasing x ->
  length x = 2 \/ (m_method t = Linear /\ m_monotonic t = true) ->
  x !! i = Some xi -> x !! (i + 1) = Some xj ->
  y !! i = Some yi -> y !! (i + 1) = Some yj ->
  (xi <= v <= xj)%Q ->
  exists t' r,
    SetSamples (NT := floating eps) sqrt lu_solve x y t = Some t'
    /\ Interpolate (NT := floating eps) t' v = Some r
    /\ (r == yi + (yj - yi) / (xj - xi) * (v - xi))%Q.
Proof.
  intros Hlen Hinc Hlin Hxi Hxj Hyi Hyj [Hlo Hhi].
  assert (i + 1 < length x) as Hi by (by apply lookup_lt_Some in Hxj).
  destruct (SetSamples_linear x y t Hlen ltac:(lia) Hlin)
    as (c1 & Hset & Hc1 & Hsl & _).
  eexists. rewrite Hset.
  destruct (lookup_lt_is_Some_2 x 0) as [x0 Hx0]; [lia|].
  destruct (lookup_lt_is_Some_2 x (length x - 1)) as [xl Hxl]; [lia|].
  assert (x0 <= xi)%Q as H0i.
  { destruct (decide (i = 0)) as [->|Hne].
    - rewrite Hx0 in Hxi. injection Hxi as <-. apply Qle_refl.
    - apply Qlt_le_weak. eapply (increasing_lt x Hinc 0 i); [lia|done..]. }
  assert (xj <= xl)%Q as Hjl.
  { destruct (decide (i + 1 = length x - 1)) as [Heq|Hne].
    - rewrite Heq, Hxl in Hxj. injection Hxj as <-. apply Qle_refl.
    - apply Qlt_le_weak.
      eapply (increasing_lt x Hinc (i + 1) (length x - 1)); [lia|done..]. }
  pose proof (Hinc _ _ _ Hxi Hxj) as Hij.
  set (t' := mkInterpolation _ _ _ _ _ _ _ _ _ _ _ _).
  assert (forall idx xk yk s,
            FindClosest (NT := floating eps) t' v = Some idx ->
            x !! idx = Some xk -> y !! idx = Some yk -> c1 !! idx = Some s ->
            Interpolate (NT := floating eps) t' v
            = Some (((0 * (v - xk) + 0) * (v - xk) + s) * (v - xk) + yk)%Q)
    as Hrun.
  { intros idx xk yk s Hidx Hxk Hyk Hs.
    unfold Interpolate, Interpolate_floating. rewrite Hidx.
    cbn [mbind option_bind m_x m_y m_coef0 m_coef1 m_coef2 m_coef3 t'].
    rewrite Hxk. cbn [mbind option_bind]. rewrite Hx0. cbn [mbind option_bind].
    assert (num_ltb (NumType := floating eps) v x0 = false) as ->.
    { apply Qlt_bool_false_iff. lra. }
    rewrite Hxl. cbn [mbind option_bind].
    assert (num_ltb (NumType := floating eps) xl v = false) as ->.
    { apply Qlt_bool_false_iff. lra. }
    rewrite !lookup_replicate_2 by (by apply lookup_lt_Some in Hxk).
    cbn [mbind option_bind]. rewrite Hs, Hyk. reflexivity. }
  destruct (Qlt_le_dec v xj) as [Hlt|Hge].
  - eexists. split; [reflexivity|]. split.
    + apply (Hrun i xi yi).
      * replace (Some i) with (Some (i + 1 - 1)) by (f_equal; lia).
        apply FindClosest_increasing; [done|cbn [m_x t']; lia|..].
        -- intros j e Hj He. cbn [m_x t'] in He.
           destruct (decide (j = i)) as [->|Hne].
           ++ rewrite Hxi in He. by injection He as <-.
           ++ pose proof (increasing_lt x Hinc j i e xi ltac:(lia) He Hxi). lra.
        -- intros e He. cbn [m_x t'] in He. rewrite Hxj in He.
           by injection He as <-.
      * done.
      * done.
      * eapply Hsl; done.
    + ring.
  - assert (v == xj)%Q as Hv by lra.
    destruct (lookup_lt_is_Some_2 c1 (i + 1)) as [s Hs]; [lia|].
    eexists. split; [reflexivity|]. split.
    + apply (Hrun (i + 1) xj yj s).
      * replace (Some (i + 1)) with (Some (i + 2 - 1)) by (f_equal; lia).
        apply FindClosest_increasing; [done|cbn [m_x t']; lia|..].
        -- intros j e Hj He. cbn [m_x t'] in He.
           destruct (decide (j = i + 1)) as [->|Hne].
           ++ rewrite Hxj in He. by injection He as <-.
           ++ pose proof (increasing_lt x Hinc j (i + 1) e xj ltac:(lia) He Hxj).
              lra.
        -- intros e He. cbn [m_x t'] in He.
           pose proof (increasing_lt x Hinc (i + 1) (i + 2) xj e ltac:(lia) Hxj He).
           lra.
      * done.
      * done.
      * done.
    + rewrite Hv. field. lra.
Qed.

(** X30.  Linear interpolation of a floating type outside increasing
    samples, set as for the property before: below the first sample
    [Interpolate] follows the line through the first two samples, and above
    the last sample the line through the last two. *)
Theorem Interpolate_linear_outside (x y : list Q) (t : Interpolation)
    (x0 x1 y0 y1 xa xb ya yb v : Q) :
  length x = length y ->
  increasing x ->
  length x = 2 \/ (m_method t = Linear /\ m_monotonic t = true) ->
  x !! 0 = Some x0 -> x !! 1 = Some x1 ->
  y !! 0 = Some y0 -> y !! 1 = Some y1 ->
  x !! (length x - 2) = Some xa -> x !! (length x - 1) = Some xb ->
  y !! (length x - 2) = Some ya -> y !! (length x - 1) = Some yb ->
  exists t',
    SetSamples (NT := floating eps) sqrt lu_solve x y t = Some t'
    /\ ((v < x0)%Q ->
        exists r, Interpolate (NT := floating eps) t' v = Some r
                  /\ (r == y0 + (y1 - y0) / (x1 - x0) * (v - x0))%Q)
    /\ ((xb < v)%Q ->
        exists r, Interpolate (NT := floating eps) t' v = Some r
                  /\ (r == yb + (yb - ya) / (xb - xa) * (v - xb))%Q).
Proof.
  intros Hlen Hinc Hlin Hx0 Hx1 Hy0 Hy1 Hxa Hxb Hya Hyb.
  assert (2 <= length x) as Hsize by (apply lookup_lt_Some in Hx1; lia).
  destruct (SetSamples_linear x y t Hlen Hsize Hlin)
    as (c1 & Hset & Hc1 & Hsl & Hlast).
  eexists. split; [exact Hset|].
  set (t' := mkInterpolation _ _ _ _ _ _ _ _ _ _ _ _).
  assert (x0 <= xb)%Q as H0b.
  { apply Qlt_le_weak.
    eapply (increasing_lt x Hinc 0 (length x - 1)); [lia|done..]. }
  split; intros Hv.
  - eexists. split.
    + unfold Interpolate, Interpolate_floating.
      rewrite (FindClosest_increasing t' v 0); [|done|cbn [m_x t']; lia|..].
      * cbn [mbind option_bind m_x m_y m_coef0 m_coef1 m_coef2 m_coef3 t'
             Nat.sub].
        rewrite Hx0. cbn [mbind option_bind].
        assert (num_ltb (NumType := floating eps) v x0 = true) as ->
          by (by apply Qlt_bool_iff).
        rewrite (Hsl 0 x0 x1 y0 y1) by done. cbn [mbind option_bind].
        rewrite Hy0. reflexivity.
      * intros j e Hj. lia.
      * intros e He. cbn [m_x t'] in He. rewrite Hx0 in He.
        by injection He as <-.
    + cbn [is_integral floating to_float num_sub]. ring.
  - eexists. split.
    + unfold Interpolate, Interpolate_floating.
      rewrite (FindClosest_increasing t' v (length x)); [|done|done|..].
      * cbn [mbind option_bind m_x m_y m_coef0 m_coef1 m_coef2 m_coef3 t'].
        rewrite Hxb. cbn [mbind option_bind]. rewrite Hx0.
        cbn [mbind option_bind].
        assert (num_ltb (NumType := floating eps) v x0 = false) as ->.
        { apply Qlt_bool_false_iff. lra. }
        assert (num_ltb (NumType := floating eps) xb v = true) as ->
          by (by apply Qlt_bool_iff).
        rewrite lookup_replicate_2 by lia. cbn [mbind option_bind].
        rewrite Hlast.
        rewrite (Hsl (length x - 2) xa xb ya yb);
          [|done|by replace (length x - 2 + 1) with (length x - 1) by lia|done
           |by replace (length x - 2 + 1) with (length x - 1) by lia].
        cbn [mbind option_bind]. rewrite Hyb. reflexivity.
      * intros j e Hj He. cbn [m_x t'] in He.
        destruct (decide (j = length x - 1)) as [->|Hne].
        -- rewrite Hxb in He. injection He as <-. lra.
        -- pose proof (increasing_lt x Hinc j (length x - 1) e xb
                         ltac:(cbn [m_x t'] in Hj; lia) He Hxb). lra.
      * intros e He. cbn [m_x t'] in He.
        apply lookup_lt_Some in He. lia.
    + cbn [is_integral floating to_float num_sub]. ring.
Qed.

End InterpolationLinear.

(** *** At concrete samples *)

Lemma SetSamples_not_monotonic_undefined_witness :
  interpolation.SetSamples (NT := Examples.NTZ) (fun q => q)
    (fun _ _ _ _ _ => []) [0; 1; 2]%Z [0; 1; 4]%Z
    (interpolation.create interpolation.Cubic) = None.
Proof.
  apply (SetSamples_not_monotonic_undefined (NT := Examples.NTZ)).
  - simpl. lia.
  - simpl. lia.
  - reflexivity.
Defined.

Lemma Interpolate_linear_between_witness :
  exists t' r,
    interpolation.SetSamples (NT := floating double_epsilon)
      (fun q => q) (fun _ _ _ _ _ => []) [0; 1; 3]%Q [0; 2; 3]%Q
      (interpolation.mkInterpolation interpolation.Linear true
         interpolation.SecondDeriv interpolation.SecondDeriv 0 0 [] [] 0 [] [] [])
    = Some t'
    /\ interpolation.Interpolate (NT := floating double_epsilon) t' 2%Q
       = Some r
    /\ (r == 2 + (3 - 2) / (3 - 1) * (2 - 1))%Q.
Proof.
  apply (Interpolate_linear_between double_epsilon (fun q => q)
           (fun _ _ _ _ _ => []) [0; 1; 3]%Q [0; 2; 3]%Q _ 1).
  - reflexivity.
  - intros [|[|[|k]]] a b; simpl; intros [= <-] [= <-]; reflexivity.
  - right. split; reflexivity.
  - reflexivity.
  - reflexivity.
  - reflexivity.
  - reflexivity.
  - split; discriminate.
Defined.

Lemma Interpolate_linear_outside_witness :
  exists t',
    interpolation.SetSamples (NT := floating double_epsilon)
      (fun q => q) (fun _ _ _ _ _ => []) [0; 1; 3]%Q [0; 2; 3]%Q
      (interpolation.mkInterpolation interpolation.Linear true
         interpolation.SecondDeriv interpolation.SecondDeriv 0 0 [] [] 0 [] [] [])
    = Some t'
    /\ ((-1 < 0)%Q ->
        exists r,
          interpolation.Interpolate (NT := floating double_epsilon) t'
            (-1)%Q = Some r
          /\ (r == 0 + (2 - 0) / (1 - 0) * (-1 - 0))%Q)
    /\ ((3 < -1)%Q ->
        exists r,
          interpolation.Interpolate (NT := floating double_epsilon) t'
            (-1)%Q = Some r
          /\ (r == 3 + (3 - 2) / (3 - 1) * (-1 - 3))%Q).
Proof.
  apply (Interpolate_linear_outside double_epsilon (fun q => q)
           (fun _ _ _ _ _ => []) [0; 1; 3]%Q [0; 2; 3]%Q).
  - reflexivity.
  - intros [|[|[|k]]] a b; simpl; intros [= <-] [= <-]; reflexivity.
  - right. split; reflexivity.
  - reflexivity.
  - reflexivity.
  - reflexivity.
  - reflexivity.
  - reflexivity.
  - reflexivity.
  - reflexivity.
  - reflexivity.
Defined.
